(** * Pathway graph synthesis: a shallow embedding of [src/tools/pathways.ts]

    The development follows the TypeScript source.  JavaScript strings are
    [string]s, sequences of 8-bit characters: on ASCII text they are the
    JavaScript strings themselves, and case mapping, the white-space class
    and the length are the ASCII ones, so a property that depends on one
    of these for arbitrary text is stated for ASCII text ([asciiOnly]).
    Arrays are lists, the two builder classes are records threaded through
    their methods by a state monad, and a method that can raise a
    [TypeError] returns [None].  A value that comes out of [JSON.parse]
    unvalidated is a [JsValue].  A JavaScript [Map] is an association list
    in insertion order; a plain object used as a dictionary is the [gmap]
    of its own properties, written and read through [objSet] and [objGet],
    which treat the key [__proto__] as JavaScript does.

    Contents: string primitives; the concept extractor; nodes, edges and
    the node builder; [DomainSpecificBranchingBuilder] with
    [buildFromDescription]; [ModularPathwayBuilder] with the four template
    builders; [PathwayComponentParser], the branching analysis, the
    configuration parser and the list arguments of the tool handlers; then
    the properties. *)

From Stdlib Require Import String Ascii List Arith Lia Bool.
From Stdlib Require Import Sorted.
From Stdlib Require Import Decimal DecimalNat DecimalString.
From stdpp Require Import gmap strings.
Import ListNotations.

Local Open Scope string_scope.
Local Open Scope list_scope.
Local Open Scope nat_scope.

(** ** JavaScript string primitives *)

Module JsString.

(** [String.prototype.toLowerCase], one character. *)
Definition lower_ascii (c : ascii) : ascii :=
  let n := nat_of_ascii c in
  if (65 <=? n) && (n <=? 90) then ascii_of_nat (n + 32) else c.

(** [String.prototype.toUpperCase], one character. *)
Definition upper_ascii (c : ascii) : ascii :=
  let n := nat_of_ascii c in
  if (97 <=? n) && (n <=? 122) then ascii_of_nat (n - 32) else c.

Fixpoint map_string (f : ascii -> ascii) (s : string) : string :=
  match s with
  | EmptyString => EmptyString
  | String c t => String (f c) (map_string f t)
  end.

Definition toLowerCase : string -> string := map_string lower_ascii.
Definition toUpperCase : string -> string := map_string upper_ascii.

(** [hay.includes(needle)]. *)
Fixpoint includes (hay needle : string) : bool :=
  String.prefix needle hay ||
  match hay with
  | EmptyString => false
  | String _ t => includes t needle
  end.

(** [s.split(sep)] for a one-character separator. *)
Fixpoint split (sep : ascii) (s : string) : list string :=
  match s with
  | EmptyString => [EmptyString]
  | String c t =>
      if Ascii.eqb c sep then EmptyString :: split sep t
      else match split sep t with
           | w :: ws => String c w :: ws
           | [] => [String c EmptyString]
           end
  end.

(** [xs.join(sep)]. *)
Definition join (sep : string) (xs : list string) : string :=
  String.concat sep xs.

(** [s.replace(/\s+/g, '_')]: every maximal run of white space becomes
    one underscore. *)
Fixpoint replaceSpaceRuns (inRun : bool) (s : string) : string :=
  match s with
  | EmptyString => EmptyString
  | String c t =>
      if Ascii.is_space c
      then (if inRun then replaceSpaceRuns true t
            else String "_" (replaceSpaceRuns true t))
      else String c (replaceSpaceRuns false t)
  end.
Definition spacesToUnderscore (s : string) : string :=
  replaceSpaceRuns false s.

(** [s.replace(/_/g, ' ')]. *)
Definition underscoresToSpace : string -> string :=
  map_string (fun c => if Ascii.eqb c "_" then " "%char else c).

(** [w.charAt(0).toUpperCase() + w.slice(1)]. *)
Definition capitalize (w : string) : string :=
  match w with
  | EmptyString => EmptyString
  | String c t => String (upper_ascii c) t
  end.

(** The decimal numeral that a template literal prints for a counter. *)
Definition ofNat (n : nat) : string :=
  NilEmpty.string_of_uint (Nat.to_uint n).

(** [a || b] on strings: the empty string is falsy. *)
Definition orElse (a b : string) : string :=
  match a with EmptyString => b | _ => a end.

End JsString.
Import JsString.

(** ** Values read from parsed JSON

    The descriptors of webhooks, knowledge bases and transfer targets
    reach the builder as the output of [JSON.parse], unvalidated: a
    property of a descriptor can hold any JSON value or be missing.  A
    number is kept as the text that [String(n)] gives for it (zero is
    [0]). *)

#[warnings="-register-all"]
Inductive JsValue : Type :=
| JsUndefined
| JsNull
| JsBool (b : bool)
| JsNumber (shown : string)
| JsString (s : string)
| JsArray (items : list JsValue)
| JsObject (fields : list (string * JsValue)).

(** The test that [v || d] and [if (v)] apply to [v]. *)
Definition truthy (v : JsValue) : bool :=
  match v with
  | JsUndefined | JsNull => false
  | JsBool b => b
  | JsNumber shown => negb (String.eqb shown "0")
  | JsString s => negb (String.eqb s EmptyString)
  | JsArray _ | JsObject _ => true
  end.

(** [v || d]. *)
Definition orDefault (v d : JsValue) : JsValue := if truthy v then v else d.

(** [String(v)]; inside [Array.prototype.join] the elements [null] and
    [undefined] give the empty text. *)
Fixpoint jsToString (v : JsValue) : string :=
  match v with
  | JsUndefined => "undefined"
  | JsNull => "null"
  | JsBool true => "true"
  | JsBool false => "false"
  | JsNumber shown => shown
  | JsString s => s
  | JsArray items =>
      join ","
        (List.map (fun item => match item with
                               | JsUndefined | JsNull => EmptyString
                               | _ => jsToString item
                               end) items)
  | JsObject _ => "[object Object]"
  end.

Definition itemText (item : JsValue) : string :=
  match item with
  | JsUndefined | JsNull => EmptyString
  | _ => jsToString item
  end.

(** The receiver of a string method such as [v.replace(...)]: the call
    raises a [TypeError] unless [v] is a string, for no other JSON value
    has a callable property of that name. *)
Definition stringOf (v : JsValue) : option string :=
  match v with
  | JsString s => Some s
  | _ => None
  end.

(** ** Concepts and the concept extractor *)

Record Concept := mkConcept {
  c_type : string;
  c_condition : string;
  c_description : string;
  c_priority : nat
}.

(** [containsAny(text, keywords)]. *)
Definition containsAny (text : string) (keywords : list string) : bool :=
  existsb (fun keyword => includes text (toLowerCase keyword)) keywords.

(** [capitalizeWords(str)]. *)
Definition capitalizeWords (str : string) : string :=
  join " " (List.map capitalize (split " " str)).

(** The loop of [extractBusinessType] over [words[i]], [words[i + 1]]. *)
Fixpoint extractBusinessType_loop (words : list string) : string :=
  match words with
  | w :: ((w' :: _) as rest) =>
      if existsb (String.eqb w)
           ["business"; "company"; "service"; "sales"; "system"]
      then orElse w' "business"
      else extractBusinessType_loop rest
  | _ => "specialized business"
  end.

Definition extractBusinessType (text : string) : string :=
  extractBusinessType_loop (split " " text).

Definition extractPrimaryDomain (description name : string) : string :=
  let combined := toLowerCase (description +:+ " " +:+ name) in
  if containsAny combined
       ["health insurance"; "medical insurance"; "healthcare"; "insurance sales"]
  then "health insurance"
  else if containsAny combined
       ["real estate"; "property"; "home sales"; "mortgage"; "realtor"]
  then "real estate"
  else if containsAny combined
       ["financial"; "investment"; "banking"; "loans"; "finance"]
  then "financial services"
  else if containsAny combined
       ["ecommerce"; "online store"; "shopping"; "retail"; "products"]
  then "e-commerce"
  else if containsAny combined
       ["saas"; "software"; "technology"; "platform"; "app"]
  then "technology"
  else extractBusinessType combined.

Definition extractPrimaryPurpose (description : string) : string :=
  let lowerDesc := toLowerCase description in
  if containsAny lowerDesc ["sales"; "selling"; "sell"] then "sales"
  else if containsAny lowerDesc ["support"; "service"; "help"]
  then "customer support"
  else if containsAny lowerDesc ["booking"; "appointment"; "schedule"]
  then "appointment booking"
  else if containsAny lowerDesc ["consultation"; "advisory"; "advice"]
  then "consultation"
  else if containsAny lowerDesc ["information"; "inquiry"; "questions"]
  then "information"
  else "specialized assistance".

Definition individual_plans : Concept :=
  mkConcept "individual_plans"
    "needs individual health insurance coverage"
    "Individual health insurance plans and coverage options" 1.
Definition family_coverage : Concept :=
  mkConcept "family_coverage"
    "needs family health insurance coverage"
    "Family health insurance plans and coverage options" 1.
Definition group_business_plans : Concept :=
  mkConcept "group_business_plans"
    "needs business or group health insurance"
    "Business and group health insurance solutions" 2.
Definition medicare_senior_plans : Concept :=
  mkConcept "medicare_senior_plans"
    "needs Medicare or senior health coverage"
    "Medicare and senior health insurance options" 1.
Definition special_medical_needs : Concept :=
  mkConcept "special_medical_needs"
    "has special medical needs or pre-existing conditions"
    "Specialized coverage for medical conditions" 1.
Definition budget_plans : Concept :=
  mkConcept "budget_plans"
    "looking for budget-friendly insurance options"
    "Affordable health insurance solutions" 2.
Definition premium_coverage : Concept :=
  mkConcept "premium_coverage"
    "wants premium or comprehensive coverage"
    "Premium health insurance with comprehensive benefits" 2.
Definition urgent_assistance : Concept :=
  mkConcept "urgent_assistance"
    "needs immediate or urgent assistance"
    "Urgent assistance and immediate support" 0.

(** [if (cond) concepts.push(c)]. *)
Definition pushIf (cond : bool) (c : Concept) (concepts : list Concept)
  : list Concept :=
  if cond then concepts ++ [c] else concepts.

(** [Array.prototype.sort] with the comparator
    [(a, b) => a.priority - b.priority]; the sort is stable, so its result
    is the one of a stable insertion sort. *)
Fixpoint insertByPriority (c : Concept) (sorted : list Concept)
  : list Concept :=
  match sorted with
  | [] => [c]
  | d :: rest =>
      if c_priority c <=? c_priority d then c :: sorted
      else d :: insertByPriority c rest
  end.

Definition sortByPriority (concepts : list Concept) : list Concept :=
  fold_right insertByPriority [] concepts.

Definition healthInsuranceConcepts (lowerDesc : string) : list Concept :=
  pushIf (containsAny lowerDesc
            ["premium"; "comprehensive"; "best coverage"; "top-tier"])
    premium_coverage
  (pushIf (containsAny lowerDesc
            ["budget"; "affordable"; "cost"; "cheap"; "low-cost"])
    budget_plans
  (pushIf (containsAny lowerDesc
            ["pre-existing"; "medical condition"; "chronic"; "specialist"])
    special_medical_needs
  (pushIf (containsAny lowerDesc ["medicare"; "senior"; "retirement"; "65"])
    medicare_senior_plans
  (pushIf (containsAny lowerDesc ["business"; "group"; "employer"; "employees"])
    group_business_plans
  (pushIf (containsAny lowerDesc ["family"; "spouse"; "children"; "dependents"])
    family_coverage
  (pushIf (containsAny lowerDesc ["individual"; "single"; "personal"])
    individual_plans [])))))).

Definition urgencyKeywords : list string :=
  ["urgent"; "immediate"; "emergency"; "asap"; "right away"].

Definition extractDomainSpecificConcepts (description domain : string)
  : list Concept :=
  let lowerDesc := toLowerCase description in
  let concepts :=
    if String.eqb domain "health insurance"
    then healthInsuranceConcepts lowerDesc else [] in
  let concepts :=
    pushIf (containsAny lowerDesc urgencyKeywords) urgent_assistance concepts in
  sortByPriority concepts.


(** ** Nodes, edges and graphs

    [PathwayNodeData] keeps the fields that the builders set from their
    arguments or that identify a node.  The free-text [prompt] and the
    constant feature blocks ([dynamic_data], [custom_tools], [ai_features],
    [flow_control], [analytics], [fine_tuning], [global_config]) are never
    read back by the builders and are left out.  An optional boolean flag
    ([isStart], [isGlobal]) is [false] when the property is absent. *)

Inductive NodeType :=
| Default | Webhook | KnowledgeBase | EndCall | TransferNode | WaitForResponse.

Definition NodeType_eqb (a b : NodeType) : bool :=
  match a, b with
  | Default, Default | Webhook, Webhook | KnowledgeBase, KnowledgeBase
  | EndCall, EndCall | TransferNode, TransferNode
  | WaitForResponse, WaitForResponse => true
  | _, _ => false
  end.

(** [[varName, varType, varDescription, required?]]. *)
Record ExtractVar := mkVar {
  ev_name : string;
  ev_type : string;
  ev_description : string;
  ev_required : option bool
}.

Record PathwayNodeData := mkData {
  d_name : string;
  d_type : NodeType;
  isStart : bool;
  isGlobal : bool;
  globalLabel : option string;
  condition : option string;
  extractVars : option (list ExtractVar);
  webhookUrl : JsValue;
  webhookMethod : JsValue;
  transferNumber : JsValue;
  kb : JsValue
}.

Record PathwayNode := mkNode {
  id : string;
  type : NodeType;
  data : PathwayNodeData
}.

(** [source] and [target] hold whatever the caller passed: a node id, or
    something that is no string ([None]) when the caller read a key of an
    object that does not hold a node id. *)
Record PathwayEdge := mkEdge {
  e_id : string;
  source : option string;
  target : option string;
  label : string;
  e_data : option (string * string)
}.

Record Graph := mkGraph {
  g_nodes : list PathwayNode;
  g_edges : list PathwayEdge
}.

(** [`${prefix}_${n}`]: every id in the file ends in a counter value. *)
Definition numberedId (prefix : string) (n : nat) : string :=
  prefix +:+ "_" +:+ ofNat n.

(** ** ModularNodeBuilder and ModularEdgeBuilder *)

Record ModularNodeBuilder := mkNodeBuilder {
  nodeData : PathwayNodeData;
  nodeType : NodeType;
  nodeId : string
}.

Definition emptyData (name : string) : PathwayNodeData :=
  mkData name Default false false None None None
    JsUndefined JsUndefined JsUndefined JsUndefined.

Definition newNodeBuilder (id name : string) : ModularNodeBuilder :=
  mkNodeBuilder (emptyData name) Default id.

Definition updData (f : PathwayNodeData -> PathwayNodeData)
  (nb : ModularNodeBuilder) : ModularNodeBuilder :=
  mkNodeBuilder (f (nodeData nb)) (nodeType nb) (nodeId nb).

Definition setType (t : NodeType) (nb : ModularNodeBuilder)
  : ModularNodeBuilder :=
  mkNodeBuilder (nodeData nb) t (nodeId nb).

Definition asDefault : ModularNodeBuilder -> ModularNodeBuilder :=
  setType Default.

Definition asWebhook (url method : string) (nb : ModularNodeBuilder)
  : ModularNodeBuilder :=
  updData (fun d =>
    mkData (d_name d) (d_type d) (isStart d) (isGlobal d) (globalLabel d)
      (condition d) (extractVars d) (JsString url) (JsString method)
      (transferNumber d) (kb d))
    (setType Webhook nb).

Definition asKnowledgeBase (kbContent : string) (nb : ModularNodeBuilder)
  : ModularNodeBuilder :=
  updData (fun d =>
    mkData (d_name d) (d_type d) (isStart d) (isGlobal d) (globalLabel d)
      (condition d) (extractVars d) (webhookUrl d) (webhookMethod d)
      (transferNumber d) (JsString kbContent))
    (setType KnowledgeBase nb).

Definition asTransfer (phoneNumber : string) (nb : ModularNodeBuilder)
  : ModularNodeBuilder :=
  updData (fun d =>
    mkData (d_name d) (d_type d) (isStart d) (isGlobal d) (globalLabel d)
      (condition d) (extractVars d) (webhookUrl d) (webhookMethod d)
      (JsString phoneNumber) (kb d))
    (setType TransferNode nb).

Definition asEndCall : ModularNodeBuilder -> ModularNodeBuilder :=
  setType EndCall.

Definition asStart : ModularNodeBuilder -> ModularNodeBuilder :=
  updData (fun d =>
    mkData (d_name d) (d_type d) true (isGlobal d) (globalLabel d)
      (condition d) (extractVars d) (webhookUrl d) (webhookMethod d)
      (transferNumber d) (kb d)).

Definition asGlobal (label : string) : ModularNodeBuilder -> ModularNodeBuilder :=
  updData (fun d =>
    mkData (d_name d) (d_type d) (isStart d) true (Some label)
      (condition d) (extractVars d) (webhookUrl d) (webhookMethod d)
      (transferNumber d) (kb d)).

Definition withCondition (c : string) : ModularNodeBuilder -> ModularNodeBuilder :=
  updData (fun d =>
    mkData (d_name d) (d_type d) (isStart d) (isGlobal d) (globalLabel d)
      (Some c) (extractVars d) (webhookUrl d) (webhookMethod d)
      (transferNumber d) (kb d)).

Definition withVariableExtraction (vars : list ExtractVar)
  : ModularNodeBuilder -> ModularNodeBuilder :=
  updData (fun d =>
    mkData (d_name d) (d_type d) (isStart d) (isGlobal d) (globalLabel d)
      (condition d) (Some vars) (webhookUrl d) (webhookMethod d)
      (transferNumber d) (kb d)).

(** [build()]: the node type is copied into the data payload. *)
Definition buildNode (nb : ModularNodeBuilder) : PathwayNode :=
  let d := nodeData nb in
  mkNode (nodeId nb) (nodeType nb)
    (mkData (d_name d) (nodeType nb) (isStart d) (isGlobal d) (globalLabel d)
       (condition d) (extractVars d) (webhookUrl d) (webhookMethod d)
       (transferNumber d) (kb d)).

(** [new ModularEdgeBuilder(id, source, target, label)], optionally
    [withMetadata], then [build()]. *)
Definition buildEdge (id : string) (source target : option string)
  (label : string) (metadata : option (string * string)) : PathwayEdge :=
  mkEdge id source target label metadata.

(** ** DomainSpecificBranchingBuilder

    The class fields are a record; a method is a function from the state
    before the call to the result and the state after it, or to [None] when
    the method raises (calling a string method on the name of a descriptor
    that is no string, or [join] on a value that is no array).
    The field [nodeMap] is never read or written and is left out. *)

Record Builder := mkBuilder {
  nodes : list PathwayNode;
  edges : list PathwayEdge;
  nodeCount : nat;
  edgeCount : nat;
  domain : string;
  primaryPurpose : string
}.

(** [new DomainSpecificBranchingBuilder()]. *)
Definition newBuilder : Builder := mkBuilder [] [] 0 0 EmptyString EmptyString.

Definition Build (A : Type) : Type := Builder -> option (A * Builder).

Definition ret {A} (a : A) : Build A := fun b => Some (a, b).

Definition bind {A B} (m : Build A) (k : A -> Build B) : Build B :=
  fun b => match m b with
           | Some (a, b') => k a b'
           | None => None
           end.

Definition throwTypeError {A} : Build A := fun _ => None.

Declare Scope build_scope.
Delimit Scope build_scope with build.
Notation "x <- m ;; k" := (bind m (fun x => k))
  (at level 100, m at next level, right associativity) : build_scope.
Notation "m ;;; k" := (bind m (fun _ => k))
  (at level 100, right associativity) : build_scope.
Local Open Scope build_scope.

(** [for (const x of xs) body(x)]. *)
Fixpoint forEach {A} (xs : list A) (body : A -> Build unit) : Build unit :=
  match xs with
  | [] => ret tt
  | x :: rest => body x ;;; forEach rest body
  end.

(** A loop that also updates a local variable [acc]. *)
Fixpoint forEachAcc {A S} (xs : list A) (acc : S) (body : S -> A -> Build S)
  : Build S :=
  match xs with
  | [] => ret acc
  | x :: rest => acc' <- body acc x ;; forEachAcc rest acc' body
  end.

Definition getDomain : Build string := fun b => Some (domain b, b).
Definition getPrimaryPurpose : Build string :=
  fun b => Some (primaryPurpose b, b).
Definition getNodes : Build (list PathwayNode) := fun b => Some (nodes b, b).

Definition setDomain (d : string) : Build unit := fun b =>
  Some (tt, mkBuilder (nodes b) (edges b) (nodeCount b) (edgeCount b)
              d (primaryPurpose b)).
Definition setPrimaryPurpose (p : string) : Build unit := fun b =>
  Some (tt, mkBuilder (nodes b) (edges b) (nodeCount b) (edgeCount b)
              (domain b) p).

(** [++this.nodeCount] and [++this.edgeCount]. *)
Definition incrNodeCount : Build nat := fun b =>
  Some (S (nodeCount b),
        mkBuilder (nodes b) (edges b) (S (nodeCount b)) (edgeCount b)
          (domain b) (primaryPurpose b)).
Definition incrEdgeCount : Build nat := fun b =>
  Some (S (edgeCount b),
        mkBuilder (nodes b) (edges b) (nodeCount b) (S (edgeCount b))
          (domain b) (primaryPurpose b)).

(** [this.nodes.push(n)] and [this.edges.push(e)]. *)
Definition pushNode (n : PathwayNode) : Build unit := fun b =>
  Some (tt, mkBuilder (nodes b ++ [n]) (edges b) (nodeCount b) (edgeCount b)
              (domain b) (primaryPurpose b)).
Definition pushEdge (e : PathwayEdge) : Build unit := fun b =>
  Some (tt, mkBuilder (nodes b) (edges b ++ [e]) (nodeCount b) (edgeCount b)
              (domain b) (primaryPurpose b)).

(** The result of a call that may raise a [TypeError]. *)
Definition required {A} (o : option A) : Build A :=
  match o with
  | Some a => ret a
  | None => throwTypeError
  end.

(** *** Arguments of [buildFromDescription] *)

(** A descriptor is an element of a parsed JSON array, seen through the
    properties that the builder reads; a property that the element does
    not have is [JsUndefined].  (An element that is no object has none of
    them, and [null] raises where its name is read, as a missing name
    does.) *)
Record WebhookSpec := mkWebhook {
  wh_name : JsValue;
  wh_url : JsValue;
  wh_method : JsValue
}.

Record KnowledgeBaseSpec := mkKb {
  kb_name : JsValue;
  kb_content : JsValue;
  kb_trigger_phrases : JsValue
}.

Record TransferSpec := mkTransfer {
  tr_name : JsValue;
  tr_number : JsValue;
  tr_conditions : JsValue
}.

(** The three arguments are arrays or absent.  An absent array and an
    empty one take the same branches (the loops are guarded by
    [?.length > 0]), so the three arrays are plain lists. *)
Record Args := mkArgs {
  name : string;
  webhook_integrations : list WebhookSpec;
  knowledge_bases : list KnowledgeBaseSpec;
  transfer_numbers : list TransferSpec
}.

(** *** Node and edge constructors of the class *)

Definition var3 (n t d : string) : ExtractVar := mkVar n t d None.
Definition var4 (n t d : string) (r : bool) : ExtractVar := mkVar n t d (Some r).

Definition createDomainSpecificHub (concepts : list Concept) : Build string :=
  dom <- getDomain ;;
  n <- incrNodeCount ;;
  purpose <- getPrimaryPurpose ;;
  let hubId := numberedId (spacesToUnderscore dom +:+ "_hub") n in
  pushNode
    (mkNode hubId Default
       (mkData (capitalizeWords dom +:+ " " +:+ capitalizeWords purpose +:+ " Hub")
          Default true false None None
          (Some [ var3 (spacesToUnderscore dom +:+ "_need") "string"
                    ("Specific " +:+ dom +:+ " requirement");
                  var3 "customer_category" "string" "Type of customer or situation";
                  var3 "urgency_level" "string" "How urgent their need is";
                  var3 "budget_range" "string" "Budget considerations if applicable" ])
          JsUndefined JsUndefined JsUndefined JsUndefined)) ;;;
  ret hubId.

Definition getDomainVariablesForConcept (conceptType domain : string)
  : list ExtractVar :=
  let baseVars :=
    [ var4 (conceptType +:+ "_preference") "string"
        ("Specific preferences for " +:+ underscoresToSpace conceptType) true;
      var4 (conceptType +:+ "_timeline") "string"
        ("Timeline for " +:+ underscoresToSpace conceptType) false ] in
  if String.eqb domain "health insurance" then
    if String.eqb conceptType "individual_plans" then
      baseVars ++
      [ var4 "current_health_status" "string" "Current health status and medical needs" true;
        var4 "preferred_deductible" "string" "Preferred deductible range" false;
        var4 "doctor_preferences" "string" "Preferred doctors or networks" false;
        var4 "monthly_budget" "string" "Monthly premium budget" true;
        var4 "prescription_medications" "string" "Current prescription medications" false;
        var4 "coverage_priorities" "string" "Most important coverage priorities" true ]
    else if String.eqb conceptType "family_coverage" then
      baseVars ++
      [ var4 "family_size" "integer" "Number of family members to cover" true;
        var4 "ages_of_dependents" "string" "Ages of spouse and children" true;
        var4 "maternity_needs" "boolean" "Whether maternity coverage is needed" false;
        var4 "pediatric_needs" "string" "Specific pediatric care requirements" false;
        var4 "family_medical_history" "string" "Relevant family medical history" false;
        var4 "childcare_providers" "string" "Preferred pediatricians or hospitals" false ]
    else if String.eqb conceptType "medicare_senior_plans" then
      baseVars ++
      [ var4 "age" "integer" "Age of primary beneficiary" true;
        var4 "current_medicare_status" "string" "Current Medicare enrollment status" true;
        var4 "prescription_needs" "string" "Current prescription medications" false;
        var4 "supplement_interest" "boolean" "Interest in supplemental coverage" false;
        var4 "retirement_status" "string" "Current retirement status" false;
        var4 "healthcare_frequency" "string" "How often you visit healthcare providers" false ]
    else if String.eqb conceptType "group_business_plans" then
      baseVars ++
      [ var4 "business_size" "integer" "Number of employees" true;
        var4 "business_type" "string" "Type of business or industry" true;
        var4 "current_coverage" "string" "Current group coverage if any" false;
        var4 "budget_per_employee" "string" "Budget per employee per month" false;
        var4 "employee_demographics" "string" "General age range and family status" false;
        var4 "coverage_requirements" "string" "Specific coverage requirements" false ]
    else baseVars
  else baseVars.

Definition createDomainConceptNode (concept : Concept) (args : Args)
  : Build string :=
  n <- incrNodeCount ;;
  let nodeId := numberedId (c_type concept +:+ "_specialist") n in
  dom <- getDomain ;;
  let conceptVars := getDomainVariablesForConcept (c_type concept) dom in
  let nodeBuilder :=
    withVariableExtraction conceptVars
      (withCondition
         ("Must fully address " +:+ underscoresToSpace (c_type concept)
            +:+ " requirements")
         (asDefault
            (newNodeBuilder nodeId
               (capitalizeWords (underscoresToSpace (c_type concept))
                  +:+ " Specialist")))) in
  pushNode (buildNode nodeBuilder) ;;;
  ret nodeId.

Definition createDomainWebhookNode (webhook : WebhookSpec) : Build string :=
  dom <- getDomain ;;
  whName <- required (stringOf (wh_name webhook)) ;;
  n <- incrNodeCount ;;
  let nodeId :=
    numberedId (spacesToUnderscore dom +:+ "_"
                  +:+ toLowerCase (spacesToUnderscore whName)) n in
  pushNode
    (mkNode nodeId Webhook
       (mkData (capitalizeWords dom +:+ " " +:+ whName) Webhook false false
          None None None
          (wh_url webhook)
          (orDefault (wh_method webhook) (JsString "POST"))
          JsUndefined JsUndefined)) ;;;
  ret nodeId.

Definition createDomainKnowledgeBaseNode (kbSpec : KnowledgeBaseSpec)
  : Build string :=
  dom <- getDomain ;;
  kbName <- required (stringOf (kb_name kbSpec)) ;;
  n <- incrNodeCount ;;
  let nodeId :=
    numberedId (spacesToUnderscore dom +:+ "_"
                  +:+ toLowerCase (spacesToUnderscore kbName)) n in
  pushNode
    (mkNode nodeId KnowledgeBase
       (mkData (capitalizeWords dom +:+ " " +:+ kbName) KnowledgeBase
          false false None None None
          JsUndefined JsUndefined JsUndefined (kb_content kbSpec))) ;;;
  ret nodeId.

Definition createDomainTransferNode (transfer : TransferSpec) : Build string :=
  dom <- getDomain ;;
  trName <- required (stringOf (tr_name transfer)) ;;
  n <- incrNodeCount ;;
  let nodeId :=
    numberedId (spacesToUnderscore dom +:+ "_"
                  +:+ toLowerCase (spacesToUnderscore trName)) n in
  pushNode
    (mkNode nodeId TransferNode
       (mkData (capitalizeWords dom +:+ " " +:+ trName) TransferNode
          false false None None None
          JsUndefined JsUndefined (tr_number transfer) JsUndefined)) ;;;
  ret nodeId.

Definition createDomainResolutionNode : Build string :=
  dom <- getDomain ;;
  n <- incrNodeCount ;;
  let nodeId := numberedId (spacesToUnderscore dom +:+ "_resolution") n in
  pushNode
    (mkNode nodeId Default
       (mkData (capitalizeWords dom +:+ " Resolution & Satisfaction") Default
          false false None None
          (Some [ var3 (spacesToUnderscore dom +:+ "_satisfaction") "string"
                    ("Satisfaction with " +:+ dom +:+ " service");
                  var3 ("additional_" +:+ spacesToUnderscore dom +:+ "_needs")
                    "boolean"
                    ("Additional " +:+ dom +:+ " assistance needed");
                  var3 "next_steps" "string" "Next steps customer wants to take" ])
          JsUndefined JsUndefined JsUndefined JsUndefined)) ;;;
  ret nodeId.

Definition createDomainCompletionNode : Build string :=
  dom <- getDomain ;;
  n <- incrNodeCount ;;
  let nodeId := numberedId (spacesToUnderscore dom +:+ "_completion") n in
  pushNode
    (mkNode nodeId EndCall
       (mkData (capitalizeWords dom +:+ " Service Complete") EndCall
          false false None None None
          JsUndefined JsUndefined JsUndefined JsUndefined)) ;;;
  ret nodeId.

Definition createConditionalEdge (sourceId targetId condition description : string)
  : Build unit :=
  dom <- getDomain ;;
  n <- incrEdgeCount ;;
  let edgeId := numberedId (spacesToUnderscore dom +:+ "_edge") n in
  pushEdge
    (mkEdge edgeId (Some sourceId) (Some targetId) condition
       (Some (capitalizeWords dom +:+ ": " +:+ condition, description))).

Definition getEdges : Build (list PathwayEdge) := fun b => Some (edges b, b).

(** [Map.prototype.set] and [Map.prototype.has] on an insertion-ordered
    [Map<string, string>]. *)
Fixpoint mapSet (k v : string) (m : list (string * string))
  : list (string * string) :=
  match m with
  | [] => [(k, v)]
  | (k', v') :: rest =>
      if String.eqb k' k then (k, v) :: rest else (k', v') :: mapSet k v rest
  end.

Definition mapHas (k : string) (m : list (string * string)) : bool :=
  existsb (fun kv => String.eqb (fst kv) k) m.

(** [xs?.join(' or ') || fallback]: the fallback when [xs] is missing or
    [null], or when the joined text is empty; a [TypeError] when [xs] is
    neither missing nor an array, because it then has no method [join]. *)
Definition joinOr (xs : JsValue) (fallback : string) : Build string :=
  match xs with
  | JsUndefined | JsNull => ret fallback
  | JsArray items =>
      ret (orElse (join " or " (List.map itemText items)) fallback)
  | _ => throwTypeError
  end.

Definition nonEmpty {A} (xs : list A) : bool := 0 <? length xs.

(** Steps 1 and 2 of [buildFromDescription]: the concept extractor stores
    the domain and the purpose in the instance and yields the concepts. *)
Definition runConceptExtractor (description : string) (args : Args)
  : Build (list Concept) :=
  setDomain (extractPrimaryDomain description (name args)) ;;;
  setPrimaryPurpose (extractPrimaryPurpose description) ;;;
  dom <- getDomain ;;
  ret (extractDomainSpecificConcepts description dom).

Definition buildFromDescription (description : string) (args : Args)
  : Build Graph :=
  domainConcepts <- runConceptExtractor description args ;;
  hubId <- createDomainSpecificHub domainConcepts ;;
  conceptNodeIds <-
    forEachAcc domainConcepts [] (fun conceptNodeIds concept =>
      nodeId <- createDomainConceptNode concept args ;;
      createConditionalEdge hubId nodeId
        (c_condition concept) (c_description concept) ;;;
      ret (mapSet (c_type concept) nodeId conceptNodeIds)) ;;
  (if nonEmpty (webhook_integrations args) then
     forEach (webhook_integrations args) (fun webhook =>
       webhookId <- createDomainWebhookNode webhook ;;
       whName <- required (stringOf (wh_name webhook)) ;;
       createConditionalEdge hubId webhookId
         ("needs " +:+ toLowerCase whName)
         ("Route to " +:+ whName +:+ " for domain-specific processing"))
   else ret tt) ;;;
  (if nonEmpty (knowledge_bases args) then
     forEach (knowledge_bases args) (fun kbSpec =>
       kbId <- createDomainKnowledgeBaseNode kbSpec ;;
       kbName <- required (stringOf (kb_name kbSpec)) ;;
       triggerCondition <-
         joinOr (kb_trigger_phrases kbSpec)
           ("questions about " +:+ toLowerCase kbName) ;;
       createConditionalEdge hubId kbId
         ("asks about " +:+ triggerCondition)
         ("Provide specialized information from " +:+ kbName))
   else ret tt) ;;;
  (if nonEmpty (transfer_numbers args) then
     forEach (transfer_numbers args) (fun transfer =>
       transferId <- createDomainTransferNode transfer ;;
       trName <- required (stringOf (tr_name transfer)) ;;
       conditions <-
         joinOr (tr_conditions transfer) ("needs " +:+ toLowerCase trName) ;;
       createConditionalEdge hubId transferId conditions
         ("Transfer to " +:+ trName +:+ " for specialized assistance"))
   else ret tt) ;;;
  resolutionId <- createDomainResolutionNode ;;
  completionId <- createDomainCompletionNode ;;
  forEach conceptNodeIds (fun entry =>
    let conceptType := fst entry in
    let nodeId := snd entry in
    createConditionalEdge nodeId resolutionId
      (conceptType +:+ " assistance complete")
      ("Complete " +:+ conceptType +:+ " assistance and assess satisfaction")) ;;;
  (if nonEmpty (webhook_integrations args)
      || nonEmpty (knowledge_bases args)
      || nonEmpty (transfer_numbers args)
   then
     allNodes <- getNodes ;;
     let otherNodeIds :=
       List.map id
         (List.filter (fun node => negb (mapHas (id node) conceptNodeIds))
            (List.filter
               (fun node => negb (String.eqb (id node) hubId)
                            && negb (String.eqb (id node) resolutionId)
                            && negb (String.eqb (id node) completionId))
               allNodes)) in
     forEach otherNodeIds (fun nodeId =>
       createConditionalEdge nodeId resolutionId
         "service completed successfully"
         "Complete service and assess customer satisfaction")
   else ret tt) ;;;
  dom <- getDomain ;;
  createConditionalEdge resolutionId completionId
    ("satisfied with " +:+ dom +:+ " service")
    ("Complete " +:+ dom +:+ " interaction") ;;;
  createConditionalEdge resolutionId hubId
    ("additional " +:+ dom +:+ " needs")
    ("Return to " +:+ dom +:+ " options") ;;;
  ns <- getNodes ;;
  es <- getEdges ;;
  ret (mkGraph ns es).

(** A call as the tool handlers make it: on a fresh builder instance. *)
Definition assemble (description : string) (args : Args) : option Graph :=
  match buildFromDescription description args newBuilder with
  | Some (g, _) => Some g
  | None => None
  end.


Local Close Scope build_scope.

(** ** ModularPathwayBuilder and the four template builders *)

Module Modular.

Record ModularPathwayBuilder := mkBuilder {
  nodes : list PathwayNode;
  edges : list PathwayEdge;
  nodeCount : nat;
  edgeCount : nat
}.

(** [new ModularPathwayBuilder()]. *)
Definition newBuilder : ModularPathwayBuilder := mkBuilder [] [] 0 0.

Definition Build (A : Type) : Type :=
  ModularPathwayBuilder -> A * ModularPathwayBuilder.

Definition ret {A} (a : A) : Build A := fun b => (a, b).
Definition bind {A B} (m : Build A) (k : A -> Build B) : Build B :=
  fun b => let (a, b') := m b in k a b'.

Declare Scope modular_scope.
Delimit Scope modular_scope with modular.
Notation "x <- m ;; k" := (bind m (fun x => k))
  (at level 100, m at next level, right associativity) : modular_scope.
Notation "m ;;; k" := (bind m (fun _ => k))
  (at level 100, right associativity) : modular_scope.
Local Open Scope modular_scope.

Fixpoint forEach {A} (xs : list A) (body : A -> Build unit) : Build unit :=
  match xs with
  | [] => ret tt
  | x :: rest => body x ;;; forEach rest body
  end.

Fixpoint forEachAcc {A S} (xs : list A) (acc : S) (body : S -> A -> Build S)
  : Build S :=
  match xs with
  | [] => ret acc
  | x :: rest => acc' <- body acc x ;; forEachAcc rest acc' body
  end.

(** [createNode(name)]. *)
Definition createNode (name : string) : Build ModularNodeBuilder := fun b =>
  (newNodeBuilder (numberedId "node" (S (nodeCount b))) name,
   mkBuilder (nodes b) (edges b) (S (nodeCount b)) (edgeCount b)).

(** [addNode(builder)]. *)
Definition addNode (nb : ModularNodeBuilder) : Build string := fun b =>
  let node := buildNode nb in
  (id node,
   mkBuilder (nodes b ++ [node]) (edges b) (nodeCount b) (edgeCount b)).

(** [addEdge(source, target, label, metadata)]. *)
Definition addEdge (source target : option string) (label : string)
  (metadata : option (string * string)) : Build string := fun b =>
  let edgeId := numberedId "edge" (S (edgeCount b)) in
  (edgeId,
   mkBuilder (nodes b) (edges b ++ [buildEdge edgeId source target label metadata])
     (nodeCount b) (S (edgeCount b))).

(** [build()]. *)
Definition build : Build Graph := fun b => (mkGraph (nodes b) (edges b), b).

(** [builder.addNode(builder.createNode(name).f1().f2()...)]. *)
Definition addNew (name : string)
  (chain : ModularNodeBuilder -> ModularNodeBuilder) : Build string :=
  nb <- createNode name ;; addNode (chain nb).

Definition run {A} (m : Build A) : A := fst (m newBuilder).

(** *** Enterprise sales *)

Record SalesArgs := mkSalesArgs {
  sales_company_name : string;
  product_or_service : string;
  transfer_number : option string
}.

Definition optOr (o : option string) (fallback : string) : string :=
  match o with Some s => orElse s fallback | None => fallback end.

Definition buildEnterpriseSalesPathway (args : SalesArgs) : Graph :=
  run (
    helpNodeId <- addNew "Sales Help & Clarification" (asGlobal "help") ;;
    qualificationHubId <-
      addNew (sales_company_name args +:+ " Enterprise Sales")
        (fun nb => withVariableExtraction
           [ var4 "company_name" "string" "Prospect company name" true;
             var4 "company_size" "integer" "Number of employees" true;
             var4 "annual_revenue" "string" "Annual company revenue" false;
             var4 "current_solution" "string" "Current solution in use" false;
             var4 "decision_timeframe" "string" "Decision timeline" true;
             var4 "budget_authority" "boolean" "Has budget authority" true;
             var4 "pain_points" "string" "Current challenges" true ]
           (asStart nb)) ;;
    leadScoringId <-
      addNew "Enterprise Lead Scoring"
        (withCondition "Must calculate lead score before proceeding") ;;
    objectionNodeId <-
      addNew "Objection Resolution Specialist" (asGlobal "objection") ;;
    highValueId <-
      addNew "High-Value Enterprise Specialist"
        (withCondition "Lead score >= 50 points") ;;
    qualifiedId <-
      addNew "Qualified Prospect Specialist"
        (fun nb => withVariableExtraction
           [ var4 "preferred_demo_time" "string" "Preferred demo scheduling" true;
             var4 "key_stakeholders" "string" "Other decision makers" false;
             var4 "technical_requirements" "string" "Technical integration needs" false ]
           (withCondition "Lead score >= 40 points" nb)) ;;
    nurtureId <-
      addNew "Prospect Nurturing System"
        (fun nb => withVariableExtraction
           [ var4 "follow_up_timeframe" "string" "When to follow up" true;
             var4 "information_interests" "string" "Types of information wanted" false ]
           (withCondition "Lead score < 40 points" nb)) ;;
    transferId <-
      addNew "Enterprise Sales Executive Transfer"
        (asTransfer (optOr (transfer_number args) "+1-800-ENTERPRISE")) ;;
    completionId <- addNew "Sales Process Complete" asEndCall ;;
    addEdge (Some qualificationHubId) (Some leadScoringId)
      "completed qualification questions"
      (Some ("Qualification Complete", "All required qualification data collected")) ;;;
    addEdge (Some leadScoringId) (Some highValueId)
      "high-value enterprise prospect"
      (Some ("High-Value Route", "Score >= 50, enterprise fit")) ;;;
    addEdge (Some leadScoringId) (Some qualifiedId)
      "qualified enterprise prospect"
      (Some ("Qualified Route", "Score >= 40, good fit")) ;;;
    addEdge (Some leadScoringId) (Some nurtureId)
      "prospect needs nurturing"
      (Some ("Nurture Route", "Score < 40, future potential")) ;;;
    addEdge (Some highValueId) (Some transferId)
      "ready for executive consultation"
      (Some ("Executive Transfer", "High-value prospect ready for senior sales")) ;;;
    addEdge (Some qualifiedId) (Some transferId)
      "ready for detailed demo"
      (Some ("Demo Transfer", "Qualified prospect ready for demo")) ;;;
    addEdge (Some transferId) (Some completionId)
      "transfer completed"
      (Some ("Process Complete", "Successfully transferred to sales team")) ;;;
    addEdge (Some nurtureId) (Some completionId)
      "nurture process complete"
      (Some ("Nurture Complete", "Added to nurture campaign")) ;;;
    build).

(** *** Customer service

    [specialistNodes] (and [decisionNodes] of the custom workflow below)
    is a plain object, [{}], used as a dictionary from a caller-supplied
    string to a node id.  Its own properties are a finite map.  The key
    [__proto__] is no own property: the assignment
    [o['__proto__'] = id] reaches the setter inherited from
    [Object.prototype], which ignores a string, and [o['__proto__']]
    reads [Object.prototype] itself.  A key that was never assigned
    reads [undefined] or a member inherited from [Object.prototype].  In
    each of these cases what is read is no string, which is all that an
    edge end records ([None]). *)

Definition objSet (key value : string) (o : gmap string string)
  : gmap string string :=
  if String.eqb key "__proto__" then o else <[key := value]> o.

Definition objGet (key : string) (o : gmap string string) : option string :=
  if String.eqb key "__proto__" then None else o !! key.

Record ServiceArgs := mkServiceArgs {
  service_company_name : string;
  service_types : list string;
  knowledge_base_content : option string;
  escalation_number : option string
}.

Definition buildAdvancedCustomerServicePathway (args : ServiceArgs) : Graph :=
  run (
    escalationNodeId <-
      addNew "Escalation Manager"
        (fun nb => asTransfer (optOr (escalation_number args) "+1-800-ESCALATE")
                     (asGlobal "escalate" nb)) ;;
    serviceHubId <-
      addNew (service_company_name args +:+ " Customer Service")
        (fun nb => withVariableExtraction
           [ var4 "customer_email" "string" "Customer email address" true;
             var4 "issue_category" "string" "Type of issue or question" true;
             var4 "urgency_level" "string" "How urgent is this issue" false;
             var4 "previous_ticket" "string" "Any previous support ticket numbers" false ]
           (asStart nb)) ;;
    classificationId <-
      addNew "Intelligent Issue Classification" (fun nb => nb) ;;
    specialistNodes <-
      forEachAcc (service_types args) (∅ : gmap string string)
        (fun specialistNodes serviceType =>
           specialistId <-
             addNew (capitalize serviceType +:+ " Specialist")
               (fun nb => withVariableExtraction
                  [ var4 (serviceType +:+ "_details") "string"
                      ("Specific " +:+ serviceType +:+ " issue details") true;
                    var4 (serviceType +:+ "_resolution_preference") "string"
                      "Preferred resolution method" false ]
                  (withCondition ("Issue classified as " +:+ serviceType) nb)) ;;
           ret (objSet serviceType specialistId specialistNodes)) ;;
    knowledgeBaseId <-
      addNew "Knowledge Base Search"
        (asKnowledgeBase
           (optOr (knowledge_base_content args)
              "Comprehensive customer service knowledge base with solutions, procedures, and troubleshooting guides.")) ;;
    satisfactionId <-
      addNew "Customer Satisfaction Survey"
        (withVariableExtraction
           [ var4 "satisfaction_rating" "integer" "Satisfaction rating 1-10" true;
             var4 "service_feedback" "string" "Additional feedback or comments" false;
             var4 "follow_up_needed" "boolean" "Does this need follow-up" false ]) ;;
    completionId <- addNew "Service Complete" asEndCall ;;
    addEdge (Some serviceHubId) (Some classificationId)
      "issue information collected"
      (Some ("Classification Route", "Route to issue analysis")) ;;;
    forEach (service_types args) (fun serviceType =>
      addEdge (Some classificationId) (objGet serviceType specialistNodes)
        ("issue classified as " +:+ serviceType)
        (Some (serviceType +:+ " Route",
               "Route to " +:+ serviceType +:+ " specialist")) ;;;
      ret tt) ;;;
    addEdge (Some classificationId) (Some knowledgeBaseId)
      "needs knowledge base search"
      (Some ("Knowledge Base Route", "Route to knowledge base for information")) ;;;
    forEach (service_types args) (fun serviceType =>
      addEdge (objGet serviceType specialistNodes) (Some satisfactionId)
        (serviceType +:+ " issue resolved")
        (Some ("Resolution Complete",
               serviceType +:+ " issue successfully resolved")) ;;;
      ret tt) ;;;
    addEdge (Some knowledgeBaseId) (Some satisfactionId)
      "information provided"
      (Some ("Information Complete", "Knowledge base information provided")) ;;;
    addEdge (Some satisfactionId) (Some completionId)
      "satisfaction survey complete"
      (Some ("Survey Complete", "Customer satisfaction survey completed")) ;;;
    build).

(** *** Appointment booking *)

Record AppointmentArgs := mkAppointmentArgs {
  business_name : string;
  appointment_service_types : list string;
  business_hours : string
}.

Definition buildIntelligentAppointmentSystem (args : AppointmentArgs) : Graph :=
  run (
    rescheduleNodeId <-
      addNew "Appointment Rescheduling"
        (fun nb => withVariableExtraction
           [ var4 "current_appointment_id" "string" "Current appointment reference" false;
             var4 "preferred_new_time" "string" "Preferred new appointment time" true;
             var4 "reason_for_change" "string" "Reason for rescheduling" false ]
           (asGlobal "reschedule" nb)) ;;
    bookingHubId <-
      addNew (business_name args +:+ " Appointment Booking")
        (fun nb => withVariableExtraction
           [ var4 "customer_name" "string" "Customer full name" true;
             var4 "customer_phone" "string" "Customer phone number" true;
             var4 "customer_email" "string" "Customer email address" true;
             var4 "service_requested" "string" "Type of service needed" true;
             var4 "preferred_date" "string" "Preferred appointment date" true;
             var4 "preferred_time" "string" "Preferred appointment time" true ]
           (asStart nb)) ;;
    serviceSelectionId <-
      addNew "Service Selection & Information" (fun nb => nb) ;;
    availabilityId <-
      addNew "Real-Time Availability Checker"
        (withCondition "Service selected and preferred time provided") ;;
    confirmationId <-
      addNew "Appointment Confirmation"
        (fun nb => withCondition "Available slot found"
           (withVariableExtraction
              [ var4 "confirmation_agreed" "boolean" "Customer confirms appointment" true;
                var4 "special_requests" "string" "Any special requests or notes" false;
                var4 "preferred_reminder_method" "string" "How to send reminders" false ]
              nb)) ;;
    bookingCompleteId <-
      addNew "Booking Completion & Confirmation" (fun nb => nb) ;;
    alternativeTimesId <-
      addNew "Alternative Time Options"
        (fun nb => withCondition "Preferred time not available"
           (withVariableExtraction
              [ var4 "selected_alternative" "string" "Chosen alternative time" true ]
              nb)) ;;
    completionId <- addNew "Appointment Booking Complete" asEndCall ;;
    addEdge (Some bookingHubId) (Some serviceSelectionId)
      "service interest expressed"
      (Some ("Service Selection", "Customer interested in specific service")) ;;;
    addEdge (Some serviceSelectionId) (Some availabilityId)
      "service selected"
      (Some ("Check Availability", "Service chosen, checking availability")) ;;;
    addEdge (Some availabilityId) (Some confirmationId)
      "preferred time available"
      (Some ("Time Available", "Preferred slot is available")) ;;;
    addEdge (Some availabilityId) (Some alternativeTimesId)
      "preferred time not available"
      (Some ("No Availability", "Preferred time unavailable, offering alternatives")) ;;;
    addEdge (Some alternativeTimesId) (Some confirmationId)
      "alternative time selected"
      (Some ("Alternative Chosen", "Customer selected alternative time")) ;;;
    addEdge (Some confirmationId) (Some bookingCompleteId)
      "appointment confirmed"
      (Some ("Confirmation Complete", "Customer confirmed the appointment")) ;;;
    addEdge (Some bookingCompleteId) (Some completionId)
      "booking process complete"
      (Some ("Process Complete", "Appointment successfully booked")) ;;;
    build).

(** *** Custom workflow *)

Record WorkflowArgs := mkWorkflowArgs {
  workflow_name : string;
  workflow_description : string;
  required_data_points : option (list string);
  decision_points : list string;
  global_fallbacks : bool
}.

(** [required_data_points.map((point, index) => [...])]. *)
Fixpoint dataPointVars (index : nat) (points : list string) : list ExtractVar :=
  match points with
  | [] => []
  | point :: rest =>
      var4 (spacesToUnderscore (toLowerCase point)) "string" point (index <? 3)
      :: dataPointVars (S index) rest
  end.

(** The edge loop over [decision_points[i]]; [currentNodeId] is the loop
    variable of the same name. *)
Fixpoint chainDecisions (decisionNodes : gmap string string)
  (processorId : string) (i : nat) (points : list string)
  (currentNodeId : option string) : Build unit :=
  match points with
  | [] => ret tt
  | decisionPoint :: rest =>
      let nextNodeId :=
        match rest with
        | next :: _ => objGet next decisionNodes
        | [] => Some processorId
        end in
      addEdge currentNodeId (objGet decisionPoint decisionNodes)
        (decisionPoint +:+ " decision needed")
        (Some ("Decision " +:+ ofNat (i + 1),
               "Route to " +:+ decisionPoint +:+ " decision")) ;;;
      addEdge (objGet decisionPoint decisionNodes) nextNodeId
        (decisionPoint +:+ " decision made")
        (Some ("Decision Complete", decisionPoint +:+ " decision completed")) ;;;
      chainDecisions decisionNodes processorId (S i) rest
        (objGet decisionPoint decisionNodes)
  end.

Definition buildCustomWorkflowPathway (args : WorkflowArgs) : Graph :=
  run (
    helpNodeId <- addNew "Workflow Help Assistant" (asGlobal "help") ;;
    entryId <-
      addNew "Custom Workflow Entry"
        (fun nb => withVariableExtraction
           (match required_data_points args with
            | Some points => dataPointVars 0 points
            | None =>
                [ var4 "workflow_intent" "string" "Purpose of workflow interaction" true;
                  var4 "customer_context" "string" "Customer context or background" false ]
            end)
           (asStart nb)) ;;
    decisionNodes <-
      (if nonEmpty (decision_points args) then
         forEachAcc (decision_points args) (∅ : gmap string string)
           (fun decisionNodes decisionPoint =>
              decisionId <-
                addNew ("Decision Point: " +:+ decisionPoint)
                  (withCondition (decisionPoint +:+ " decision required")) ;;
              ret (objSet decisionPoint decisionId decisionNodes))
       else ret ∅) ;;
    processorId <- addNew "Workflow Processor" (fun nb => nb) ;;
    fallbackNodeId <-
      (if global_fallbacks args then
         fallbackId <- addNew "Workflow Fallback Handler" (asGlobal "fallback") ;;
         ret (Some fallbackId)
       else ret None) ;;
    resultsId <- addNew "Workflow Results" (fun nb => nb) ;;
    completionId <- addNew "Workflow Complete" asEndCall ;;
    (if nonEmpty (decision_points args) then
       chainDecisions decisionNodes processorId 0 (decision_points args)
         (Some entryId)
     else
       addEdge (Some entryId) (Some processorId)
         "workflow ready for processing"
         (Some ("Processing Route", "Route to workflow processor")) ;;;
       ret tt) ;;;
    addEdge (Some processorId) (Some resultsId)
      "workflow processing complete"
      (Some ("Results Ready", "Workflow processing completed")) ;;;
    addEdge (Some resultsId) (Some completionId)
      "results delivered"
      (Some ("Workflow Complete", "Results delivered to customer")) ;;;
    build).

End Modular.


(** ** Further string primitives *)

Module JsText.

(** [s.trimStart()], [s.trimEnd()] and [s.trim()]. *)
Fixpoint trimStart (s : string) : string :=
  match s with
  | EmptyString => EmptyString
  | String c t => if Ascii.is_space c then trimStart t else s
  end.

Fixpoint trimEnd (s : string) : string :=
  match s with
  | EmptyString => EmptyString
  | String c t =>
      match trimEnd t with
      | EmptyString => if Ascii.is_space c then EmptyString
                       else String c EmptyString
      | t' => String c t'
      end
  end.

Definition trim (s : string) : string := trimEnd (trimStart s).

(** The character class [[.!?]]. *)
Definition isTerminator (c : ascii) : bool :=
  Ascii.eqb c "." || Ascii.eqb c "!" || Ascii.eqb c "?".

(** [s.split(/[.!?]+/)]: the pieces between maximal runs of terminators;
    a run at either end of the text leaves an empty piece there. *)
Fixpoint splitAtRuns (inRun : bool) (s : string) : list string :=
  match s with
  | EmptyString => [EmptyString]
  | String c t =>
      if isTerminator c
      then (if inRun then splitAtRuns true t
            else EmptyString :: splitAtRuns true t)
      else match splitAtRuns false t with
           | w :: ws => String c w :: ws
           | [] => [String c EmptyString]
           end
  end.
Definition splitSentences : string -> list string := splitAtRuns false.

(** [s.replace('_', ' ')]: a string pattern replaces its first occurrence
    only. *)
Fixpoint replaceFirstUnderscore (s : string) : string :=
  match s with
  | EmptyString => EmptyString
  | String c t =>
      if Ascii.eqb c "_" then String " " t
      else String c (replaceFirstUnderscore t)
  end.

(** [s.endsWith(suffix)]. *)
Fixpoint endsWith (s suffix : string) : bool :=
  String.eqb s suffix ||
  match s with
  | EmptyString => false
  | String _ t => endsWith t suffix
  end.

(** [s.replace(/suffix$/, '')] when it matches: the text before the
    suffix. *)
Fixpoint beforeSuffix (suffix s : string) : option string :=
  if String.eqb s suffix then Some EmptyString
  else match s with
       | EmptyString => None
       | String c t =>
           match beforeSuffix suffix t with
           | Some p => Some (String c p)
           | None => None
           end
       end.

(** [if (cond) xs.push(x)]. *)
Definition pushWhen {A} (cond : bool) (x : A) (xs : list A) : list A :=
  if cond then xs ++ [x] else xs.

End JsText.
Import JsText.

(** ** PathwayComponentParser *)

Module PathwayComponentParser.

(** [contains(text, keywords)]. *)
Definition contains (text : string) (keywords : list string) : bool :=
  let lowerText := toLowerCase text in
  existsb (fun keyword => includes lowerText (toLowerCase keyword)) keywords.

Record NodeTypeEntry := mkNodeTypeEntry {
  nt_type : string;
  nt_purpose : string
}.

Definition parseNodeTypes (description : string) : list NodeTypeEntry :=
  let nodeTypes := [] in
  let nodeTypes :=
    pushWhen (contains description
                ["webhook"; "api"; "integration"; "system"; "database"; "crm"])
      (mkNodeTypeEntry "Webhook" "system integration") nodeTypes in
  let nodeTypes :=
    pushWhen (contains description
                ["knowledge"; "faq"; "documentation"; "information"; "search"])
      (mkNodeTypeEntry "Knowledge Base" "information lookup") nodeTypes in
  let nodeTypes :=
    pushWhen (contains description
                ["transfer"; "human"; "agent"; "specialist"; "escalate"])
      (mkNodeTypeEntry "Transfer Node" "human handoff") nodeTypes in
  let nodeTypes :=
    pushWhen (contains description ["wait"; "pause"; "hold"; "think"; "process"])
      (mkNodeTypeEntry "Wait for Response" "processing time") nodeTypes in
  let nodeTypes :=
    pushWhen (contains description ["end"; "finish"; "complete"; "goodbye"; "close"])
      (mkNodeTypeEntry "End Call" "conversation ending") nodeTypes in
  nodeTypes ++ [mkNodeTypeEntry "Default" "conversation handling"].

Record Features := mkFeatures {
  needsVariableExtraction : bool;
  needsConditions : bool;
  needsGlobalNodes : bool;
  variables : list ExtractVar
}.

Definition parseFeatures (description : string) : Features :=
  let needsVariableExtraction :=
    contains description
      ["collect"; "gather"; "ask for"; "get"; "name"; "email"; "phone";
       "information"] in
  let variables :=
    if needsVariableExtraction then
      let variables := [] in
      let variables :=
        pushWhen (contains description ["name"])
          (var3 "customer_name" "string" "Customer name") variables in
      let variables :=
        pushWhen (contains description ["email"])
          (var3 "email_address" "string" "Email address") variables in
      let variables :=
        pushWhen (contains description ["phone"])
          (var3 "phone_number" "string" "Phone number") variables in
      pushWhen (contains description ["intent"; "reason"; "purpose"])
        (var3 "call_intent" "string" "Reason for calling") variables
    else [] in
  mkFeatures needsVariableExtraction
    (contains description
       ["if"; "when"; "unless"; "before"; "after"; "ensure"; "verify"; "check"])
    (contains description
       ["help"; "questions"; "anytime"; "interrupt"; "clarification"])
    variables.

Record WorkflowStep := mkWorkflowStep {
  stepName : string;
  stepType : string;
  stepPurpose : string
}.

(** The [if / else if] chain that picks [stepType]. *)
Definition stepTypeOf (sentence : string) : string :=
  if contains sentence ["start"; "begin"; "greet"; "welcome"] then "greeting"
  else if contains sentence ["collect"; "ask"; "gather"]
  then "information_gathering"
  else if contains sentence ["decide"; "determine"; "route"; "check"]
  then "decision_making"
  else if contains sentence ["resolve"; "solve"; "handle"; "process"]
  then "resolution"
  else if contains sentence ["end"; "finish"; "close"] then "ending"
  else "Default".

(** The loop [for (let i = 0; i < sentences.length; i++)], from index [i]
    on. *)
Fixpoint stepsFrom (i : nat) (sentences : list string) : list WorkflowStep :=
  match sentences with
  | [] => []
  | s :: rest =>
      let sentence := trim s in
      if String.length sentence <? 10 then stepsFrom (S i) rest
      else
        let stepType := stepTypeOf sentence in
        mkWorkflowStep
          ("Step " +:+ ofNat (i + 1) +:+ ": " +:+ replaceFirstUnderscore stepType)
          stepType sentence
        :: stepsFrom (S i) rest
  end.

(** [description.split(/[.!?]+/).filter(s => s.trim().length > 0)]. *)
Definition sentencesOf (description : string) : list string :=
  List.filter (fun s => 0 <? String.length (trim s))
    (splitSentences description).

Definition parseWorkflowSteps (description : string) : list WorkflowStep :=
  stepsFrom 0 (sentencesOf description).

End PathwayComponentParser.

(** ** analyzeBranchingComplexity *)

(** [nodeEdgeCounts]: a [Map] from [edge.source] to a count, in insertion
    order.  The key is whatever the edge holds as its source. *)
Definition sameKey (a b : option string) : bool :=
  match a, b with
  | Some x, Some y => String.eqb x y
  | None, None => true
  | _, _ => false
  end.

Fixpoint countsGet (k : option string) (m : list (option string * nat))
  : option nat :=
  match m with
  | [] => None
  | (k', v) :: rest => if sameKey k' k then Some v else countsGet k rest
  end.

Fixpoint countsSet (k : option string) (v : nat)
  (m : list (option string * nat)) : list (option string * nat) :=
  match m with
  | [] => [(k, v)]
  | (k', v') :: rest =>
      if sameKey k' k then (k, v) :: rest else (k', v') :: countsSet k v rest
  end.

(** One turn of the loop over the edges:
    [nodeEdgeCounts.set(edge.source, (nodeEdgeCounts.get(edge.source) || 0) + 1)]. *)
Definition countEdge (nodeEdgeCounts : list (option string * nat))
  (edge : PathwayEdge) : list (option string * nat) :=
  let count :=
    match countsGet (source edge) nodeEdgeCounts with
    | Some n => n
    | None => 0
    end in
  countsSet (source edge) (count + 1) nodeEdgeCounts.

Record RoutingCondition := mkRoutingCondition {
  rc_from : option string;
  rc_to : option string;
  rc_condition : string
}.

Record BranchingAnalysis := mkBranchingAnalysis {
  branchingPoints : nat;
  maxBranches : nat;
  conditionalPaths : list string;
  specialistTypes : list string;
  routingConditions : list RoutingCondition
}.

Definition analyzeBranchingComplexity (pathwayStructure : Graph)
  : BranchingAnalysis :=
  let nodeEdgeCounts := fold_left countEdge (g_edges pathwayStructure) [] in
  let conditionalPaths := List.map label (g_edges pathwayStructure) in
  let routingConditions :=
    List.map (fun edge =>
                mkRoutingCondition (source edge) (target edge) (label edge))
      (g_edges pathwayStructure) in
  let specialistTypes :=
    List.map (fun node => d_name (data node))
      (List.filter (fun node => includes (d_name (data node)) "Specialist")
         (g_nodes pathwayStructure)) in
  let values := List.map snd nodeEdgeCounts in
  let maxBranches := fold_right Nat.max 0 values in
  let branchingPoints := length (List.filter (fun count => 1 <? count) values) in
  mkBranchingAnalysis branchingPoints maxBranches conditionalPaths
    specialistTypes routingConditions.

(** ** parseAllConfigurations

    The arguments have passed the tool's input schema, so each of the
    eight keys holds a string or is absent.  [JSON.parse] is a parameter:
    it yields a value or raises ([None]).  The values of the result are
    the parsed ones, the empty array or the empty object. *)

Definition keysToParse : list string :=
  ["webhook_integrations"; "knowledge_bases"; "transfer_numbers";
   "custom_tools_config"; "dynamic_data_config"; "voice_settings";
   "model_settings"; "analytics_config"].

(** [key.replace(/_config$|_settings$/, '')]. *)
Definition targetKeyOf (key : string) : string :=
  match beforeSuffix "_config" key with
  | Some p => p
  | None =>
      match beforeSuffix "_settings" key with
      | Some p => p
      | None => key
      end
  end.

Inductive ConfigValue (V : Type) :=
| Parsed (v : V)
| EmptyArray
| EmptyObject.
Arguments Parsed {V} v.
Arguments EmptyArray {V}.
Arguments EmptyObject {V}.

(** [(key.endsWith('s') || key.endsWith('es')) ? [] : {}]. *)
Definition defaultFor {V} (key : string) : ConfigValue V :=
  if endsWith key "s" || endsWith key "es" then EmptyArray else EmptyObject.

Definition parseAllConfigurations {V} (JSON_parse : string -> option V)
  (args : string -> option string) : gmap string (ConfigValue V) :=
  fold_left
    (fun config key =>
       let targetKey := targetKeyOf key in
       match args key with
       | Some (String c t) =>
           match JSON_parse (String c t) with
           | Some v => <[targetKey := Parsed v]> config
           | None => <[targetKey := defaultFor key]> config
           end
       | _ => <[targetKey := defaultFor key]> config
       end)
    keysToParse ∅.

(** ** Comma-separated lists in the tool handlers *)

(** [s.split(',').map(s => s.trim()).filter(s => s.length > 0)]. *)
Definition commaSeparated (s : string) : list string :=
  List.filter (fun s => 0 <? String.length s) (List.map trim (split "," s)).

(** The handler of [create_ai_customer_service_pathway]: the arguments
    passed on to the template builder. *)
Definition customerServiceArgs (company_name service_types : string)
  (knowledge_base_content escalation_number : option string)
  : Modular.ServiceArgs :=
  Modular.mkServiceArgs company_name (commaSeparated service_types)
    knowledge_base_content escalation_number.

(** The handler of [create_custom_workflow_pathway]: an absent or empty
    string gives the empty array. *)
Definition listArgument (o : option string) : list string :=
  match o with
  | Some (String c t) => commaSeparated (String c t)
  | _ => []
  end.

Definition customWorkflowArgs (name workflow_description : string)
  (required_data_points decision_points : option string)
  (enable_global_fallbacks : bool) : Modular.WorkflowArgs :=
  Modular.mkWorkflowArgs name workflow_description
    (Some (listArgument required_data_points))
    (listArgument decision_points)
    enable_global_fallbacks.


(** ** Vocabulary of the properties *)

Definition byPriority (a b : Concept) : Prop := c_priority a <= c_priority b.

(** The urgency keywords that the specification names. *)
Definition namedUrgencyKeywords : list string := ["urgent"; "emergency"; "asap"].

Definition familyPhrase : string :=
  "family of four, spouse and children, affordable options".

Definition nodeIds (ns : list PathwayNode) : list string := List.map id ns.

(** An edge end names a node of the list. *)
Definition endPresent (ns : list PathwayNode) (o : option string) : Prop :=
  exists n, In n ns /\ o = Some (id n).

Definition edgePresent (ns : list PathwayNode) (e : PathwayEdge) : Prop :=
  endPresent ns (source e) /\ endPresent ns (target e).

(** No dangling edge, no duplicate node id. *)
Definition wellFormed (g : Graph) : Prop :=
  (forall e, In e (g_edges g) -> edgePresent (g_nodes g) e) /\
  List.NoDup (nodeIds (g_nodes g)).

Definition connects (e : PathwayEdge) (a b : string) : Prop :=
  source e = Some a /\ target e = Some b.

Definition optEqb (o : option string) (s : string) : bool :=
  match o with Some x => String.eqb x s | None => false end.

Definition connectsb (e : PathwayEdge) (a b : string) : bool :=
  optEqb (source e) a && optEqb (target e) b.

(** The edges that lead from node [a] to node [b]. *)
Definition edgesBetween (es : list PathwayEdge) (a b : string)
  : list PathwayEdge :=
  List.filter (fun e => connectsb e a b) es.

(** Following edges forward from [a]. *)
Inductive reachable (es : list PathwayEdge) (a : string) : string -> Prop :=
| reach_here : reachable es a a
| reach_step (e : PathwayEdge) (b c : string) :
    reachable es a b -> In e es -> connects e b c -> reachable es a c.

Definition nodesOfType (t : NodeType) (ns : list PathwayNode)
  : list PathwayNode :=
  List.filter (fun n => NodeType_eqb (type n) t) ns.

Definition startNodes (ns : list PathwayNode) : list PathwayNode :=
  List.filter (fun n => isStart (data n)) ns.

Definition varNames (n : PathwayNode) : list string :=
  match extractVars (data n) with
  | Some vars => List.map ev_name vars
  | None => []
  end.

(** The first node that carries a given [condition]. *)
Definition nodeWithCondition (ns : list PathwayNode) (c : string)
  : option PathwayNode :=
  List.find (fun n => optEqb (condition (data n)) c) ns.

(** An id that ends in the counter value [k]. *)
Definition numbered (s : string) (k : nat) : Prop :=
  exists prefix, s = numberedId prefix k.

(** Strings made of decimal digits only. *)
Fixpoint digitsOnly (s : string) : bool :=
  match s with
  | EmptyString => true
  | String c t =>
      match Ascii.is_nat c with Some _ => digitsOnly t | None => false end
  end.

(** The invariant of both builders: ids end in counter values already
    handed out, no id occurs twice, no edge dangles. *)
Record WF (ns : list PathwayNode) (es : list PathwayEdge) (count : nat)
  : Prop := mkWF {
  wf_bound : forall n, In n ns -> exists k, k <= count /\ numbered (id n) k;
  wf_nodup : List.NoDup (nodeIds ns);
  wf_edges : forall e, In e es -> edgePresent ns e
}.

(** The invariant of [DomainSpecificBranchingBuilder], with a list of ids
    known to name nodes already pushed. *)
Definition Inv (known : list string) (b : Builder) : Prop :=
  WF (nodes b) (edges b) (nodeCount b) /\ incl known (nodeIds (nodes b)).

(** The same for [ModularPathwayBuilder]; [known] holds of ids that name
    nodes already added. *)
Definition InvM (known : string -> Prop) (b : Modular.ModularPathwayBuilder)
  : Prop :=
  WF (Modular.nodes b) (Modular.edges b) (Modular.nodeCount b) /\
  forall i, known i -> In i (nodeIds (Modular.nodes b)).

Definition hoareM {A} (P : Modular.ModularPathwayBuilder -> Prop)
  (m : Modular.Build A)
  (Q : A -> Modular.ModularPathwayBuilder -> Prop) : Prop :=
  forall b, P b -> Q (fst (m b)) (snd (m b)).

(** An edge end that is a known id. *)
Definition knownEnd (known : string -> Prop) (o : option string) : Prop :=
  exists i, o = Some i /\ known i.

(** Every method chained on a node builder keeps the id given by
    [createNode]. *)
Definition keepsId (chain : ModularNodeBuilder -> ModularNodeBuilder) : Prop :=
  forall nb, nodeId (chain nb) = nodeId nb.

(** The ids known so far together with the values of a dictionary. *)
Definition mapKnown (known : string -> Prop) (m : gmap string string)
  : string -> Prop :=
  fun j => known j \/ exists k, m !! k = Some j.

(** What identifies the node built for a concept or for a descriptor. *)
Definition isConceptNodeFor (dom : string) (c : Concept) (nd : PathwayNode)
  : Prop :=
  type nd = Default /\
  d_name (data nd)
    = capitalizeWords (underscoresToSpace (c_type c)) +:+ " Specialist" /\
  extractVars (data nd) = Some (getDomainVariablesForConcept (c_type c) dom).

Definition isWebhookNodeFor (w : WebhookSpec) (nd : PathwayNode) : Prop :=
  type nd = Webhook /\ webhookUrl (data nd) = wh_url w.

Definition isKnowledgeBaseNodeFor (k : KnowledgeBaseSpec) (nd : PathwayNode)
  : Prop :=
  type nd = KnowledgeBase /\ kb (data nd) = kb_content k.

Definition isTransferNodeFor (t : TransferSpec) (nd : PathwayNode) : Prop :=
  type nd = TransferNode /\ transferNumber (data nd) = tr_number t.

(** The instance holds exactly these nodes, these edges and this domain. *)
Definition St (ns : list PathwayNode) (es : list PathwayEdge) (dom : string)
  (b : Builder) : Prop :=
  nodes b = ns /\ edges b = es /\ domain b = dom.

(** Every node of [news] has an edge from [hub] among [es]. *)
Definition wiredFrom (hub : string) (es : list PathwayEdge)
  (news : list PathwayNode) : Prop :=
  forall nd, In nd news -> exists e, In e es /\ connects e hub (id nd).




(** The content of [conceptNodeIds] after the concept loop has pushed the
    nodes [news] for the concepts [cs]. *)
Definition recordIds (acc : list (string * string)) (cs : list Concept)
  (news : list PathwayNode) : list (string * string) :=
  fold_left (fun m cn => mapSet (c_type (fst cn)) (id (snd cn)) m)
    (combine cs news) acc.

(** The ids that the second wiring loop of [buildFromDescription] visits. *)
Definition otherNodeIds (allNodes : list PathwayNode)
  (conceptNodeIds : list (string * string))
  (hubId resolutionId completionId : string) : list string :=
  List.map id
    (List.filter (fun node => negb (mapHas (id node) conceptNodeIds))
       (List.filter
          (fun node => negb (String.eqb (id node) hubId)
                       && negb (String.eqb (id node) resolutionId)
                       && negb (String.eqb (id node) completionId))
          allNodes)).

Definition hasIntegrations (args : Args) : bool :=
  nonEmpty (webhook_integrations args)
  || nonEmpty (knowledge_bases args)
  || nonEmpty (transfer_numbers args).

(** Each element of [xs] has its edge into [tgt], in order. *)
Definition wiredInto {A} (src : A -> string) (tgt : string) (xs : list A)
  (es : list PathwayEdge) : Prop :=
  Forall2 (fun x e => connects e (src x) tgt) xs es.

(** A list of strings without repetition, as a test. *)
Fixpoint distinctb (l : list string) : bool :=
  match l with
  | [] => true
  | x :: rest => negb (existsb (String.eqb x) rest) && distinctb rest
  end.

(** The two sides of the fan-out count of the specification. *)
Definition fanOutSize (description : string) (args : Args) : nat :=
  length (extractDomainSpecificConcepts description
            (extractPrimaryDomain description (name args)))
  + length (webhook_integrations args)
  + length (knowledge_bases args)
  + length (transfer_numbers args).

(** A string that ends in an underscore followed by decimal digits. *)
Definition nonEmptyDigits (s : string) : bool :=
  digitsOnly s && negb (String.eqb s EmptyString).

Fixpoint counterSuffix (s : string) : bool :=
  match s with
  | EmptyString => false
  | String c t => (Ascii.eqb c "_" && nonEmptyDigits t) || counterSuffix t
  end.

(** Every concept that a rule of the extractor can push. *)
Definition allConcepts : list Concept :=
  [individual_plans; family_coverage; group_business_plans;
   medicare_senior_plans; special_medical_needs; budget_plans;
   premium_coverage; urgent_assistance].

(** Partial correctness of a method: from a state satisfying [P], every
    normal return satisfies [Q]. *)
Definition hoare {A} (P : Builder -> Prop) (m : Build A)
  (Q : A -> Builder -> Prop) : Prop :=
  forall b a b', P b -> m b = Some (a, b') -> Q a b'.


(** One turn of a fan-out loop: a node for [x] is pushed and wired from
    [hub]; nothing else changes. *)
Definition fanStep {A S} (R : string -> A -> PathwayNode -> Prop) (hub : string)
  (body : S -> A -> Build S) : Prop :=
  forall s x pre es dom,
    hoare (St pre es dom) (body s x)
      (fun _ b' => exists nd e,
           St (pre ++ [nd]) (es ++ [e]) dom b' /\ R dom x nd /\
           connects e hub (id nd)).

(** Inputs at which the assembler is evaluated below. *)
Definition mixedDescription : string :=
  "Health insurance quotes for a family".
Definition mixedArgs : Args :=
  mkArgs "Quote line"
    [mkWebhook (JsString "CRM") (JsString "https://crm.example.com/hook")
       JsUndefined] [] [].

Definition plainDescription : string :=
  "Please route incoming callers politely".
Definition plainArgs : Args := mkArgs "Front desk" [] [] [].


Definition familyDescription : string :=
  "Health insurance: family of four, spouse and children, affordable options".
Definition familyArgs : Args := mkArgs "Plan advisor" [] [] [].

(** A workflow description of the length that the tool schema asks for. *)
Definition returnsDescription : string :=
  "Handle the return of an order: look it up, then refund or exchange it.".

(** *** Vocabulary for the parsers and the analysis *)

(** Every character of [s] passes the test [p]. *)
Fixpoint allChars (p : ascii -> bool) (s : string) : bool :=
  match s with
  | EmptyString => true
  | String c t => p c && allChars p t
  end.

Definition commaFree : string -> bool :=
  allChars (fun c => negb (Ascii.eqb c ",")).

(** A text of the ASCII range: every character is below 128.  On such a
    text the case mapping, the white-space class and the length computed
    here are exactly those of JavaScript; a property that depends on one
    of them for arbitrary text is stated for ASCII text. *)
Definition asciiChar (c : ascii) : bool :=
  match c with
  | Ascii _ _ _ _ _ _ _ high => negb high
  end.

Definition asciiOnly : string -> bool := allChars asciiChar.

(** A string that does not start with white space. *)
Definition startsClean (s : string) : Prop :=
  match s with
  | EmptyString => True
  | String c _ => Ascii.is_space c = false
  end.

(** An entry as [commaSeparated] returns them: not empty, no white space
    at either end, no comma. *)
Definition listItem (s : string) : Prop :=
  s <> EmptyString /\ trim s = s /\ commaFree s = true.

(** The node types that [parseNodeTypes] can report, in its order. *)
Definition reportableNodeTypes : list PathwayComponentParser.NodeTypeEntry :=
  [ PathwayComponentParser.mkNodeTypeEntry "Webhook" "system integration";
    PathwayComponentParser.mkNodeTypeEntry "Knowledge Base" "information lookup";
    PathwayComponentParser.mkNodeTypeEntry "Transfer Node" "human handoff";
    PathwayComponentParser.mkNodeTypeEntry "Wait for Response" "processing time";
    PathwayComponentParser.mkNodeTypeEntry "End Call" "conversation ending";
    PathwayComponentParser.mkNodeTypeEntry "Default" "conversation handling" ].

(** The variables that [parseFeatures] can report, in its order. *)
Definition customerNameVar : ExtractVar :=
  var3 "customer_name" "string" "Customer name".
Definition emailAddressVar : ExtractVar :=
  var3 "email_address" "string" "Email address".
Definition phoneNumberVar : ExtractVar :=
  var3 "phone_number" "string" "Phone number".
Definition callIntentVar : ExtractVar :=
  var3 "call_intent" "string" "Reason for calling".

Definition terminatorFree : string -> bool :=
  allChars (fun c => negb (isTerminator c)).

(** The step made from the sentence at index [i]: its purpose is the
    trimmed sentence and its name carries the number [i + 1]. *)
Definition stepAt (sentences : list string) (i : nat)
  (step : PathwayComponentParser.WorkflowStep) : Prop :=
  exists s,
    nth_error sentences i = Some s /\
    PathwayComponentParser.stepPurpose step = trim s /\
    PathwayComponentParser.stepName step
    = "Step " +:+ ofNat (i + 1) +:+ ": "
        +:+ replaceFirstUnderscore (PathwayComponentParser.stepType step).

(** The number of edges that leave [s]. *)
Definition outDegree (es : list PathwayEdge) (s : option string) : nat :=
  length (List.filter (fun e => sameKey (source e) s) es).

(** The counts after the loop has seen the edges [es]: one entry per
    source, holding the number of edges that leave it. *)
Record Tallied (es : list PathwayEdge) (m : list (option string * nat))
  : Prop := mkTallied {
  tallied_keys : List.NoDup (List.map fst m);
  tallied_count : forall k v, In (k, v) m -> v = outDegree es k /\ 1 <= v;
  tallied_all : forall e, In e es -> exists v, In (source e, v) m
}.

(** The entry that [parseAllConfigurations] stores for the argument
    [key]: the parsed value, or the default when the argument is absent,
    empty or not valid JSON. *)
Definition configEntry {V} (JSON_parse : string -> option V)
  (args : string -> option string) (key : string) : ConfigValue V :=
  match args key with
  | None => defaultFor key
  | Some text =>
      if String.eqb text EmptyString then defaultFor key
      else match JSON_parse text with
           | Some v => Parsed v
           | None => defaultFor key
           end
  end.

(** The state of a [ModularPathwayBuilder] that has handed out [n] node
    ids and [e] edge ids: the ids read [node_1 .. node_n] and
    [edge_1 .. edge_e] in the order of creation. *)
Definition NumberedM (n e : nat) (b : Modular.ModularPathwayBuilder) : Prop :=
  Modular.nodeCount b = n /\ Modular.edgeCount b = e /\
  List.map id (Modular.nodes b) = List.map (numberedId "node") (seq 1 n) /\
  List.map e_id (Modular.edges b) = List.map (numberedId "edge") (seq 1 e).

(** A graph with [n] nodes and [e] edges whose ids are numbered from 1 in
    list order. *)
Definition consecutivelyNumbered (g : Graph) (n e : nat) : Prop :=
  List.map id (g_nodes g) = List.map (numberedId "node") (seq 1 n) /\
  List.map e_id (g_edges g) = List.map (numberedId "edge") (seq 1 e).

(** The edges [es] lead from [hub] to the nodes [news], one each, in
    order. *)
Definition wiredOut (hub : string) (news : list PathwayNode)
  (es : list PathwayEdge) : Prop :=
  Forall2 (fun nd e => connects e hub (id nd)) news es.

(** The number of nodes of [ns] whose id is the key [s]. *)
Definition occurrences (s : option string) (ns : list PathwayNode) : nat :=
  length (List.filter (fun nd => sameKey (Some (id nd)) s) ns).

(** The state of a [DomainSpecificBranchingBuilder] working on the domain
    [dom]: the id of the j-th node ends in the counter value [j], and the
    j-th edge has the id [<dom>_edge_<j>] (white space in [dom] read as an
    underscore). *)
Definition NumberedB (dom : string) (b : Builder) : Prop :=
  domain b = dom /\
  Forall2 (fun nd j => numbered (id nd) j) (nodes b) (seq 1 (nodeCount b)) /\
  List.map e_id (edges b)
  = List.map (numberedId (spacesToUnderscore dom +:+ "_edge"))
      (seq 1 (edgeCount b)).

(** A property of the instance that every node and edge constructor of
    the class keeps, once the hub constructor has established it. *)
Record keptByConstructors (J : Builder -> Prop) : Prop := mkKept {
  kept_concept : forall c args,
      hoare J (createDomainConceptNode c args) (fun _ => J);
  kept_webhook : forall w, hoare J (createDomainWebhookNode w) (fun _ => J);
  kept_kb : forall k, hoare J (createDomainKnowledgeBaseNode k) (fun _ => J);
  kept_transfer : forall t,
      hoare J (createDomainTransferNode t) (fun _ => J);
  kept_resolution : hoare J createDomainResolutionNode (fun _ => J);
  kept_completion : hoare J createDomainCompletionNode (fun _ => J);
  kept_edge : forall s t c d,
      hoare J (createConditionalEdge s t c d) (fun _ => J)
}.

(** The number of start nodes and of End Call nodes in a node list. *)
Definition startCount (ns : list PathwayNode) : nat := length (startNodes ns).
Definition endCount (ns : list PathwayNode) : nat :=
  length (nodesOfType EndCall ns).

Definition MarkedM (s t : nat) (b : Modular.ModularPathwayBuilder) : Prop :=
  startCount (Modular.nodes b) = s /\ endCount (Modular.nodes b) = t.



(** The nodes of the builder begin with the list [l]. *)
Definition PrefixM (l : list PathwayNode) (b : Modular.ModularPathwayBuilder)
  : Prop :=
  exists rest, Modular.nodes b = l ++ rest.

(** The variable name derived from a data point. *)
Definition dataPointName (point : string) : string :=
  spacesToUnderscore (toLowerCase point).

(** The exact state of a [ModularPathwayBuilder]. *)
Definition StM (ns : list PathwayNode) (es : list PathwayEdge) (n e : nat)
  (b : Modular.ModularPathwayBuilder) : Prop :=
  Modular.nodes b = ns /\ Modular.edges b = es /\
  Modular.nodeCount b = n /\ Modular.edgeCount b = e.

(** The edges [es] link [cur] to the first id of [ds], every id of [ds]
    to the next one, and the last one to [proc]. *)
Fixpoint linked (cur : string) (ds : list string) (proc : string)
  (es : list PathwayEdge) : Prop :=
  match ds with
  | [] => True
  | d :: rest =>
      (exists e, In e es /\ connects e cur d) /\
      match rest with
      | [] => exists e, In e es /\ connects e d proc
      | _ => linked d rest proc es
      end
  end.


(** * Properties *)

(** ** Facts about the string primitives *)

Section StringFacts.

Local Arguments String.append !s1 s2 : simpl nomatch.

Lemma append_nil_r (s : string) : s +:+ EmptyString = s.
Proof. induction s as [|c s IH]; simpl; [reflexivity | now rewrite IH]. Qed.

Lemma append_assoc (a b c : string) : (a +:+ b) +:+ c = a +:+ (b +:+ c).
Proof. induction a as [|x a IH]; simpl; [reflexivity | now rewrite IH]. Qed.

Lemma map_string_append (f : ascii -> ascii) (a b : string) :
  map_string f (a +:+ b) = map_string f a +:+ map_string f b.
Proof. induction a as [|x a IH]; simpl; [reflexivity | now rewrite IH]. Qed.

Lemma prefix_spec (n h : string) :
  String.prefix n h = true <-> exists q, h = n +:+ q.
Proof.
  revert h. induction n as [|c n IH]; intros h; simpl.
  - split; [intros _; exists h; reflexivity | intros _; now destruct h].
  - destruct h as [|d h].
    + split; [discriminate | intros [q Hq]; discriminate].
    + simpl. destruct (ascii_dec c d) as [->|Hne].
      * rewrite IH. split; intros [q Hq]; exists q.
        -- now rewrite Hq.
        -- now injection Hq.
      * split; [discriminate | intros [q Hq]; injection Hq; congruence].
Qed.

Lemma includes_spec (h n : string) :
  includes h n = true <-> exists p q, h = p +:+ n +:+ q.
Proof.
  induction h as [|c h IH].
  - change (includes EmptyString n)
      with (String.prefix n EmptyString || false).
    rewrite orb_false_r, prefix_spec. split.
    + intros [q Hq]. exists EmptyString, q. exact Hq.
    + intros [p [q Hq]]. destruct p; [exists q; exact Hq | discriminate].
  - change (includes (String c h) n)
      with (String.prefix n (String c h) || includes h n).
    rewrite orb_true_iff, IH, prefix_spec. split.
    + intros [[q Hq] | [p [q Hq]]].
      * exists EmptyString, q. exact Hq.
      * exists (String c p), q. simpl. now rewrite Hq.
    + intros [p [q Hq]]. destruct p as [|d p].
      * left. exists q. exact Hq.
      * right. simpl in Hq. injection Hq as _ Hq. now exists p, q.
Qed.

Lemma includes_refl (s : string) : includes s s = true.
Proof. apply includes_spec. exists EmptyString, EmptyString. simpl. now rewrite append_nil_r. Qed.

Lemma includes_trans (a b c : string) :
  includes a b = true -> includes b c = true -> includes a c = true.
Proof.
  rewrite !includes_spec. intros [p [q ->]] [p' [q' ->]].
  exists (p +:+ p'), (q' +:+ q). now rewrite !append_assoc.
Qed.

Lemma includes_map_string (f : ascii -> ascii) (h n : string) :
  includes h n = true -> includes (map_string f h) (map_string f n) = true.
Proof.
  rewrite !includes_spec. intros [p [q ->]].
  exists (map_string f p), (map_string f q).
  now rewrite !map_string_append.
Qed.

Lemma includes_toLowerCase (h n : string) :
  includes h n = true -> includes (toLowerCase h) (toLowerCase n) = true.
Proof. apply includes_map_string. Qed.

End StringFacts.

(** ** Node ids and the builder invariant *)

Section IdFacts.

Local Arguments String.append !s1 s2 : simpl nomatch.

Lemma digitsOnly_string_of_uint (d : uint) :
  digitsOnly (NilEmpty.string_of_uint d) = true.
Proof. induction d; simpl; auto. Qed.

Lemma digitsOnly_ofNat (n : nat) : digitsOnly (ofNat n) = true.
Proof. apply digitsOnly_string_of_uint. Qed.

Lemma digitsOnly_no_underscore (p q : string) :
  digitsOnly (p +:+ String "_" q) = false.
Proof.
  induction p as [|c p IH]; simpl; [reflexivity|].
  destruct (Ascii.is_nat c); auto.
Qed.

Lemma numbered_suffix (p1 p2 d1 d2 : string) :
  digitsOnly d1 = true -> digitsOnly d2 = true ->
  p1 +:+ "_" +:+ d1 = p2 +:+ "_" +:+ d2 -> d1 = d2.
Proof.
  intros H1 H2. revert p2.
  induction p1 as [|c p1 IH]; intros [|c' p2] Heq; simpl in Heq.
  - now injection Heq.
  - injection Heq as _ Heq. subst d1.
    now rewrite digitsOnly_no_underscore in H1.
  - injection Heq as _ Heq. subst d2.
    now rewrite digitsOnly_no_underscore in H2.
  - injection Heq as _ Heq. eauto.
Qed.

Lemma ofNat_inj (n m : nat) : ofNat n = ofNat m -> n = m.
Proof.
  unfold ofNat. intros H. apply Unsigned.to_uint_inj.
  assert (Some (Nat.to_uint n) = Some (Nat.to_uint m)) as E
    by (rewrite <- !NilEmpty.usu; now rewrite H).
  now injection E.
Qed.

Lemma numbered_inj (s : string) (k1 k2 : nat) :
  numbered s k1 -> numbered s k2 -> k1 = k2.
Proof.
  intros [p1 ->] [p2 Heq]. unfold numberedId in Heq.
  apply ofNat_inj.
  eapply numbered_suffix; eauto using digitsOnly_ofNat.
Qed.

Lemma numbered_numberedId (prefix : string) (k : nat) :
  numbered (numberedId prefix k) k.
Proof. now exists prefix. Qed.

End IdFacts.

Section InvariantFacts.

Lemma endPresent_ids (ns : list PathwayNode) (s : string) :
  In s (nodeIds ns) <-> endPresent ns (Some s).
Proof.
  unfold nodeIds, endPresent. rewrite in_map_iff. split.
  - intros [n [<- Hin]]. now exists n.
  - intros [n [Hin Heq]]. injection Heq as ->. now exists n.
Qed.

Lemma endPresent_incl (ns ns' : list PathwayNode) (o : option string) :
  incl ns ns' -> endPresent ns o -> endPresent ns' o.
Proof. intros Hincl [n [Hin Heq]]. exists n. auto. Qed.

Lemma edgePresent_incl (ns ns' : list PathwayNode) (e : PathwayEdge) :
  incl ns ns' -> edgePresent ns e -> edgePresent ns' e.
Proof. intros Hincl [Hs Ht]. split; eauto using endPresent_incl. Qed.

Lemma WF_nil : WF [] [] 0.
Proof.
  constructor.
  - intros n [].
  - constructor.
  - intros e [].
Qed.

(** A node whose id ends in the next counter value keeps the invariant. *)
Lemma WF_push_node ns es count (nd : PathwayNode) :
  WF ns es count -> numbered (id nd) (S count) ->
  WF (ns ++ [nd]) es (S count).
Proof.
  intros [Hb Hn He] Hnum. constructor.
  - intros n Hin. apply in_app_or in Hin as [Hin|[<-|[]]].
    + destruct (Hb n Hin) as [k [Hk Hnk]]. exists k. split; [lia|exact Hnk].
    + exists (S count). split; [lia|exact Hnum].
  - unfold nodeIds. rewrite map_app. simpl.
    apply List.NoDup_app; [exact Hn | repeat constructor; intros [] |].
    intros x Hx [Hy|[]]. subst x.
    apply in_map_iff in Hx as [n [Heq Hin]].
    destruct (Hb n Hin) as [k [Hk Hnk]]. rewrite Heq in Hnk.
    pose proof (numbered_inj _ _ _ Hnk Hnum). lia.
  - intros e Hin. apply edgePresent_incl with (ns := ns); [|auto].
    apply incl_appl, incl_refl.
Qed.

Lemma WF_push_edge ns es count (e : PathwayEdge) :
  WF ns es count -> edgePresent ns e -> WF ns (es ++ [e]) count.
Proof.
  intros [Hb Hn He] Hp. constructor; auto.
  intros e' Hin. apply in_app_or in Hin as [Hin|[<-|[]]]; auto.
Qed.

Lemma WF_wellFormed ns es count :
  WF ns es count -> wellFormed (mkGraph ns es).
Proof. intros [Hb Hn He]. split; assumption. Qed.

End InvariantFacts.

(** ** Reasoning rules for the methods of the builder *)

Section BuildLogic.

Lemma hoare_ret {A} (P : Builder -> Prop) (a : A) (Q : A -> Builder -> Prop) :
  (forall b, P b -> Q a b) -> hoare P (ret a) Q.
Proof. intros H b a' b' HP Hrun. inversion Hrun; subst; clear Hrun. auto. Qed.

Lemma hoare_bind {A B} (P : Builder -> Prop) (m : Build A) (k : A -> Build B)
  (R : A -> Builder -> Prop) (Q : B -> Builder -> Prop) :
  hoare P m R -> (forall a, hoare (R a) (k a) Q) -> hoare P (bind m k) Q.
Proof.
  intros Hm Hk b c b' HP Hrun. unfold bind in Hrun.
  destruct (m b) as [[a b1]|] eqn:E; [|discriminate].
  exact (Hk a b1 c b' (Hm b a b1 HP E) Hrun).
Qed.

Lemma hoare_conseq {A} (P P' : Builder -> Prop) (m : Build A)
  (Q Q' : A -> Builder -> Prop) :
  hoare P m Q -> (forall b, P' b -> P b) -> (forall a b, Q a b -> Q' a b) ->
  hoare P' m Q'.
Proof. intros H HP HQ b a b' HP' Hrun. eauto. Qed.

Lemma hoare_if {A} (c : bool) (P : Builder -> Prop) (m1 m2 : Build A)
  (Q : A -> Builder -> Prop) :
  hoare P m1 Q -> hoare P m2 Q -> hoare P (if c then m1 else m2) Q.
Proof. destruct c; auto. Qed.

Lemma hoare_forEach {A} (I : Builder -> Prop) (xs : list A)
  (body : A -> Build unit) :
  (forall x, In x xs -> hoare I (body x) (fun _ => I)) ->
  hoare I (forEach xs body) (fun _ => I).
Proof.
  induction xs as [|x xs IH]; intros Hbody; simpl.
  - apply hoare_ret. auto.
  - eapply hoare_bind; [apply Hbody; now left|].
    intros ?. apply IH. intros y Hy. apply Hbody. now right.
Qed.

Lemma hoare_forEachAcc {A S} (I : S -> Builder -> Prop) (xs : list A)
  (acc : S) (body : S -> A -> Build S) :
  (forall s x, In x xs -> hoare (I s) (body s x) I) ->
  hoare (I acc) (forEachAcc xs acc body) I.
Proof.
  revert acc. induction xs as [|x xs IH]; intros acc Hbody; simpl.
  - apply hoare_ret. auto.
  - eapply hoare_bind; [apply Hbody; now left|].
    intros acc'. apply IH. intros s y Hy. apply Hbody. now right.
Qed.

Lemma hoare_getNodes (P : Builder -> Prop) :
  hoare P getNodes (fun ns b => ns = nodes b /\ P b).
Proof. intros b ns b' HP Hrun. inversion Hrun; subst; clear Hrun. auto. Qed.

Lemma hoare_getEdges (P : Builder -> Prop) :
  hoare P getEdges (fun es b => es = edges b /\ P b).
Proof. intros b es b' HP Hrun. inversion Hrun; subst; clear Hrun. auto. Qed.

Lemma hoare_getDomain (P : Builder -> Prop) :
  hoare P getDomain (fun d b => d = domain b /\ P b).
Proof. intros b d b' HP Hrun. inversion Hrun; subst; clear Hrun. auto. Qed.

Lemma hoare_required {A} (P : Builder -> Prop) (o : option A) :
  hoare P (required o) (fun a b => o = Some a /\ P b).
Proof.
  intros b a b' HP Hrun. destruct o; [|discriminate].
  inversion Hrun; subst; clear Hrun. auto.
Qed.

(** *** Totality *)






End BuildLogic.

(** ** The concept extractor *)

Section ConceptExtractor.

Lemma insertByPriority_In (c x : Concept) (l : list Concept) :
  In x (insertByPriority c l) <-> x = c \/ In x l.
Proof.
  induction l as [|d l IH]; simpl.
  - intuition.
  - destruct (c_priority c <=? c_priority d); simpl; rewrite ?IH; intuition.
Qed.

Lemma sortByPriority_In (x : Concept) (l : list Concept) :
  In x (sortByPriority l) <-> In x l.
Proof.
  induction l as [|d l IH]; simpl; [tauto|].
  rewrite insertByPriority_In, IH. intuition.
Qed.

Lemma insertByPriority_sorted (c : Concept) (l : list Concept) :
  StronglySorted byPriority l -> StronglySorted byPriority (insertByPriority c l).
Proof.
  induction 1 as [|d l Hs IH Hall]; simpl.
  - repeat constructor.
  - destruct (c_priority c <=? c_priority d) eqn:E.
    + apply Nat.leb_le in E. constructor; [now constructor|].
      constructor; [exact E|].
      rewrite List.Forall_forall in *. intros y Hy. specialize (Hall y Hy).
      unfold byPriority in *. lia.
    + apply Nat.leb_gt in E. constructor; [exact IH|].
      rewrite List.Forall_forall in *. intros y Hy.
      apply insertByPriority_In in Hy as [->|Hy]; [|now apply Hall].
      unfold byPriority. lia.
Qed.

Lemma sortByPriority_sorted (l : list Concept) :
  StronglySorted byPriority (sortByPriority l).
Proof.
  induction l as [|d l IH]; simpl; [constructor|].
  now apply insertByPriority_sorted.
Qed.

(** The one concept of priority 0 heads the sorted list. *)
Lemma sortByPriority_head (x : Concept) (l : list Concept) :
  In x l -> c_priority x = 0 ->
  (forall y, In y l -> c_priority y = 0 -> y = x) ->
  hd_error (sortByPriority l) = Some x.
Proof.
  induction l as [|a l IH]; intros Hin Hx Huniq; [destruct Hin|].
  simpl. destruct (Nat.eq_dec (c_priority a) 0) as [Ha|Ha].
  - assert (a = x) as -> by (apply Huniq; simpl; auto).
    destruct (sortByPriority l) as [|d s]; simpl; [reflexivity|].
    rewrite Hx. reflexivity.
  - destruct Hin as [->|Hin]; [contradiction|].
    specialize (IH Hin Hx (fun y Hy => Huniq y (or_intror Hy))).
    destruct (sortByPriority l) as [|d s]; [discriminate|].
    simpl in IH. injection IH as ->. simpl.
    rewrite Hx. destruct (c_priority a <=? 0) eqn:E; [|reflexivity].
    apply Nat.leb_le in E. lia.
Qed.

Lemma pushIf_In (cond : bool) (c x : Concept) (l : list Concept) :
  In x (pushIf cond c l) -> x = c \/ In x l.
Proof.
  destruct cond; simpl; [|auto].
  rewrite in_app_iff. simpl. intuition.
Qed.

Lemma healthInsuranceConcepts_priority (lowerDesc : string) (c : Concept) :
  In c (healthInsuranceConcepts lowerDesc) -> 1 <= c_priority c.
Proof.
  unfold healthInsuranceConcepts. intros H.
  repeat (apply pushIf_In in H as [->|H]; [simpl; lia|]).
  destruct H.
Qed.

(** A keyword found in the description is found again after the
    description is put in lower case. *)
Lemma containsAny_toLowerCase (text : string) (keywords more : list string) :
  incl (List.map toLowerCase (List.map toLowerCase keywords))
       (List.map toLowerCase more) ->
  containsAny text keywords = true ->
  containsAny (toLowerCase text) more = true.
Proof.
  unfold containsAny. intros Hincl H.
  apply existsb_exists in H as [kw [Hkw Hinc]].
  apply includes_toLowerCase in Hinc.
  assert (In (toLowerCase (toLowerCase kw)) (List.map toLowerCase more)) as Hin
    by (apply Hincl; do 2 apply in_map; exact Hkw).
  apply in_map_iff in Hin as [kw' [Heq Hkw']].
  apply existsb_exists. exists kw'. split; [exact Hkw'|].
  now rewrite Heq.
Qed.

End ConceptExtractor.

Section ExtractorClaims.

Lemma extractDomainSpecificConcepts_unfold (description domain : string) :
  extractDomainSpecificConcepts description domain =
  sortByPriority
    (pushIf (containsAny (toLowerCase description) urgencyKeywords)
       urgent_assistance
       (if String.eqb domain "health insurance"
        then healthInsuranceConcepts (toLowerCase description) else [])).
Proof. reflexivity. Qed.

(** C6. A description that contains "urgent", "emergency" or "asap"
    (as written, or once put in lower case) makes the concept extractor
    return a list sorted in ascending priority whose first element is the
    urgent-assistance concept, whatever the domain and whatever other
    keywords occur. *)
Theorem urgency_keyword_puts_urgent_first (description domain : string) :
  containsAny description namedUrgencyKeywords = true \/
  containsAny (toLowerCase description) namedUrgencyKeywords = true ->
  StronglySorted byPriority (extractDomainSpecificConcepts description domain)
  /\ hd_error (extractDomainSpecificConcepts description domain)
     = Some urgent_assistance.
Proof.
  intros Hkw. rewrite extractDomainSpecificConcepts_unfold.
  split; [apply sortByPriority_sorted|].
  assert (containsAny (toLowerCase description) urgencyKeywords = true) as ->.
  { destruct Hkw as [Hkw|Hkw].
    - apply containsAny_toLowerCase with (keywords := namedUrgencyKeywords);
        [|exact Hkw].
      intros x Hx. vm_compute in Hx. vm_compute. tauto.
    - unfold containsAny in *. apply existsb_exists in Hkw as [kw [Hin Hinc]].
      apply existsb_exists. exists kw. split; [|exact Hinc].
      vm_compute in Hin. vm_compute. tauto. }
  unfold pushIf. apply sortByPriority_head.
  - apply in_or_app. right. left. reflexivity.
  - reflexivity.
  - intros y Hy Hprio. apply in_app_or in Hy as [Hy|[<-|[]]]; [|reflexivity].
    destruct (String.eqb domain "health insurance"); [|destruct Hy].
    apply healthInsuranceConcepts_priority in Hy. lia.
Qed.

Lemma urgency_keyword_puts_urgent_first_witness :
  containsAny "health insurance for my family, it is urgent"
    namedUrgencyKeywords = true
  /\ hd_error (extractDomainSpecificConcepts
                 "health insurance for my family, it is urgent"
                 "health insurance")
     = Some urgent_assistance.
Proof.
  split; [reflexivity|].
  apply (urgency_keyword_puts_urgent_first
           "health insurance for my family, it is urgent" "health insurance").
  left. reflexivity.
Defined.

(** C9. The concept extractor does not depend on the state of the
    instance it runs on: from any two builder states it returns normally
    with the same concept list, and stores the same domain and the same
    purpose, each a function of the description and the name only. *)
Theorem concept_extractor_is_deterministic
  (description : string) (args : Args) (b1 b2 : Builder) :
  exists concepts b1' b2',
    runConceptExtractor description args b1 = Some (concepts, b1') /\
    runConceptExtractor description args b2 = Some (concepts, b2') /\
    domain b1' = domain b2' /\
    primaryPurpose b1' = primaryPurpose b2' /\
    domain b1' = extractPrimaryDomain description (name args) /\
    primaryPurpose b1' = extractPrimaryPurpose description /\
    concepts = extractDomainSpecificConcepts description (domain b1').
Proof.
  do 3 eexists. repeat split; reflexivity.
Qed.

End ExtractorClaims.

(** ** Graphs computed at given inputs *)

Section Evaluations.

Lemma reachable_stuck (es : list PathwayEdge) (a x : string) :
  (forall e, In e es -> source e <> Some a) ->
  reachable es a x -> x = a.
Proof.
  intros Hnone Hreach. induction Hreach as [|e' b c _ IH Hin Hconn].
  - reflexivity.
  - destruct Hconn as [Hsrc _]. subst b. exfalso. exact (Hnone e' Hin Hsrc).
Qed.

Lemma reachable_edge (es : list PathwayEdge) (a b c : string) :
  reachable es a b ->
  (exists e, In e es /\ connects e b c) ->
  reachable es a c.
Proof. intros H [e [Hin Hc]]. exact (reach_step es a e b c H Hin Hc). Qed.

Lemma edgesBetween_connects (es : list PathwayEdge) (a b : string) :
  edgesBetween es a b <> [] -> exists e, In e es /\ connects e a b.
Proof.
  unfold edgesBetween. intros Hne.
  destruct (List.filter (fun e => connectsb e a b) es) as [|e l] eqn:E;
    [contradiction|].
  assert (In e (List.filter (fun e => connectsb e a b) es)) as Hin
    by (rewrite E; left; reflexivity).
  apply filter_In in Hin as [Hin Hc]. exists e. split; [exact Hin|].
  unfold connectsb, optEqb in Hc. apply andb_true_iff in Hc as [Hs Ht].
  unfold connects.
  destruct (source e); [|discriminate]. destruct (target e); [|discriminate].
  apply String.eqb_eq in Hs, Ht. now subst.
Qed.

(** C1. With one detected concept and one webhook integration the graph
    has 1 + 1 + 1 + 0 + 0 + 2 nodes, the webhook node has one edge into
    the resolution node, but the concept node has two: the filter meant
    to leave concept nodes out of the second wiring loop looks node ids
    up in a map keyed by concept type. *)
Theorem concept_node_is_wired_twice_to_resolution :
  exists g,
    assemble mixedDescription mixedArgs = Some g /\
    List.map c_type
      (extractDomainSpecificConcepts mixedDescription
         (extractPrimaryDomain mixedDescription (name mixedArgs)))
      = ["family_coverage"] /\
    nodeIds (g_nodes g) =
      ["health_insurance_hub_1"; "family_coverage_specialist_2";
       "health_insurance_crm_3"; "health_insurance_resolution_4";
       "health_insurance_completion_5"] /\
    List.map label
      (edgesBetween (g_edges g) "health_insurance_crm_3"
         "health_insurance_resolution_4")
      = ["service completed successfully"] /\
    List.map label
      (edgesBetween (g_edges g) "family_coverage_specialist_2"
         "health_insurance_resolution_4")
      = ["family_coverage assistance complete";
         "service completed successfully"].
Proof.
  eexists. split; [vm_compute; reflexivity|].
  repeat split; vm_compute; reflexivity.
Qed.

(** C2. With no concept and no integration the graph has the three nodes
    hub, resolution and terminal and no dangling edge, but its only edges
    are resolution -> terminal and resolution -> hub: no edge leaves the
    hub, so the graph is not connected as hub -> resolution -> terminal. *)
Theorem degenerate_graph_has_no_edge_out_of_the_hub :
  exists g,
    assemble plainDescription plainArgs = Some g /\
    extractDomainSpecificConcepts plainDescription
      (extractPrimaryDomain plainDescription (name plainArgs)) = [] /\
    List.map (fun n => (id n, type n, isStart (data n))) (g_nodes g) =
      [("specialized_business_hub_1", Default, true);
       ("specialized_business_resolution_2", Default, false);
       ("specialized_business_completion_3", EndCall, false)] /\
    List.map (fun e => (source e, target e)) (g_edges g) =
      [(Some "specialized_business_resolution_2",
        Some "specialized_business_completion_3");
       (Some "specialized_business_resolution_2",
        Some "specialized_business_hub_1")] /\
    edgesBetween (g_edges g) "specialized_business_hub_1"
      "specialized_business_resolution_2" = [] /\
    wellFormed g.
Proof.
  eexists. split; [vm_compute; reflexivity|].
  do 4 (split; [vm_compute; reflexivity|]).
  split.
  - intros e He. cbn in He.
    destruct He as [<-|[<-|[]]]; split; apply endPresent_ids; cbn; tauto.
  - cbn. repeat constructor; cbn; intuition discriminate.
Qed.

(** C3. In the graph built from no concept and no integration the
    resolution node and the terminal node are not global and cannot be
    reached from the start node. *)
Theorem degenerate_graph_leaves_resolution_unreachable :
  exists g hub,
    assemble plainDescription plainArgs = Some g /\
    startNodes (g_nodes g) = [hub] /\
    forall n, In n (g_nodes g) -> n <> hub ->
      isGlobal (data n) = false /\
      ~ reachable (g_edges g) (id hub) (id n).
Proof.
  eexists. eexists. split; [vm_compute; reflexivity|].
  split; [vm_compute; reflexivity|].
  intros n Hn Hne. cbn in Hn.
  destruct Hn as [<-|[<-|[<-|[]]]]; [contradiction| |];
    (split; [reflexivity|]); intros Hreach;
    apply reachable_stuck in Hreach; try discriminate;
    intros e He; cbn in He; destruct He as [<-|[<-|[]]]; discriminate.
Qed.

End Evaluations.

(** ** The graph assembler *)

(** Symbolic execution of one method call recorded in [Hrun]: unfold the
    method, split on the descriptor name it requires, and read off the
    result and the state after the call. *)
Ltac run_builder Hrun :=
  cbv [createDomainSpecificHub createDomainConceptNode
       createDomainWebhookNode createDomainKnowledgeBaseNode
       createDomainTransferNode createDomainResolutionNode
       createDomainCompletionNode createConditionalEdge] in Hrun;
  try match type of Hrun with
      | context [required ?o] => destruct o eqn:?
      end;
  try match type of Hrun with
      | context [joinOr ?v _] => destruct v eqn:?
      end;
  cbv [bind ret getDomain getPrimaryPurpose required joinOr throwTypeError
       incrNodeCount incrEdgeCount pushNode pushEdge] in Hrun;
  try discriminate Hrun;
  inversion Hrun; subst; clear Hrun.

Section AssemblerFacts.

Lemma Inv_incl (known known' : list string) (b : Builder) :
  incl known' known -> Inv known b -> Inv known' b.
Proof. intros Hincl [Hwf Hk]. split; [exact Hwf|]. eapply incl_tran; eauto. Qed.

Ltac creator_spec :=
  let b := fresh "b" in let i := fresh "i" in let b' := fresh "b'" in
  let Hwf := fresh "Hwf" in let Hk := fresh "Hk" in
  let Hrun := fresh "Hrun" in
  intros b i b' [Hwf Hk] Hrun; run_builder Hrun;
  split; cbn [nodes edges nodeCount];
  [ apply WF_push_node; [assumption | apply numbered_numberedId]
  | unfold nodeIds; rewrite map_app; apply incl_cons;
    [ apply in_or_app; right; left; reflexivity
    | apply incl_appl; exact Hk ] ].

Lemma createDomainSpecificHub_spec (known : list string) (cs : list Concept) :
  hoare (Inv known) (createDomainSpecificHub cs) (fun i => Inv (i :: known)).
Proof. creator_spec. Qed.

Lemma createDomainConceptNode_spec (known : list string) (c : Concept)
  (args : Args) :
  hoare (Inv known) (createDomainConceptNode c args) (fun i => Inv (i :: known)).
Proof. creator_spec. Qed.

Lemma createDomainWebhookNode_spec (known : list string) (w : WebhookSpec) :
  hoare (Inv known) (createDomainWebhookNode w) (fun i => Inv (i :: known)).
Proof. creator_spec. Qed.

Lemma createDomainKnowledgeBaseNode_spec (known : list string)
  (k : KnowledgeBaseSpec) :
  hoare (Inv known) (createDomainKnowledgeBaseNode k) (fun i => Inv (i :: known)).
Proof. creator_spec. Qed.

Lemma createDomainTransferNode_spec (known : list string) (t : TransferSpec) :
  hoare (Inv known) (createDomainTransferNode t) (fun i => Inv (i :: known)).
Proof. creator_spec. Qed.

Lemma createDomainResolutionNode_spec (known : list string) :
  hoare (Inv known) createDomainResolutionNode (fun i => Inv (i :: known)).
Proof. creator_spec. Qed.

Lemma createDomainCompletionNode_spec (known : list string) :
  hoare (Inv known) createDomainCompletionNode (fun i => Inv (i :: known)).
Proof. creator_spec. Qed.

Lemma createConditionalEdge_spec (known : list string)
  (sourceId targetId c d : string) :
  In sourceId known -> In targetId known ->
  hoare (Inv known) (createConditionalEdge sourceId targetId c d)
    (fun _ => Inv known).
Proof.
  intros Hs Ht b i b' [Hwf Hk] Hrun. run_builder Hrun.
  split; cbn [nodes edges nodeCount]; [|exact Hk].
  apply WF_push_edge; [exact Hwf|].
  split; apply endPresent_ids; apply Hk; assumption.
Qed.

Lemma runConceptExtractor_spec (description : string) (args : Args) :
  hoare (fun b => b = newBuilder) (runConceptExtractor description args)
    (fun _ => Inv []).
Proof.
  intros b cs b' -> Hrun. inversion Hrun; subst; clear Hrun.
  split; [apply WF_nil | apply incl_nil_l].
Qed.

Lemma mapSet_values (k v : string) (m : list (string * string)) :
  incl (List.map snd (mapSet k v m)) (v :: List.map snd m).
Proof.
  induction m as [|[k' v'] m IH]; simpl.
  - apply incl_refl.
  - destruct (String.eqb k' k); simpl.
    + apply incl_cons; [now left|]. apply incl_tl, incl_tl, incl_refl.
    + apply incl_cons; [right; now left|].
      eapply incl_tran; [exact IH|].
      intros x [->|Hx]; [now left | right; now right].
Qed.

Lemma edge_step (known K : list string) (sourceId targetId c d : string) :
  In sourceId known -> In targetId known -> incl K known ->
  hoare (Inv known) (createConditionalEdge sourceId targetId c d)
    (fun _ => Inv K).
Proof.
  intros Hs Ht Hincl.
  eapply hoare_conseq;
    [apply (createConditionalEdge_spec known); eassumption | auto |].
  intros ? b. now apply Inv_incl.
Qed.

Lemma required_keep {A} (P : Builder -> Prop) (o : option A) :
  hoare P (required o) (fun _ => P).
Proof.
  eapply hoare_conseq; [apply (hoare_required P) | auto |].
  intros a b [_ HP]. exact HP.
Qed.

Lemma joinOr_keep (P : Builder -> Prop) (xs : JsValue) (fallback : string) :
  hoare P (joinOr xs fallback) (fun _ => P).
Proof.
  intros b a b' HP Hrun.
  destruct xs; try discriminate; inversion Hrun; subst; exact HP.
Qed.

Lemma getDomain_keep (P : Builder -> Prop) :
  hoare P getDomain (fun _ => P).
Proof.
  eapply hoare_conseq; [apply (hoare_getDomain P) | auto |].
  intros a b [_ HP]. exact HP.
Qed.

(** The wiring loops that follow node creation keep the invariant. *)
Lemma filter_ids_incl (f : PathwayNode -> bool) (ns : list PathwayNode) :
  incl (nodeIds (List.filter f ns)) (nodeIds ns).
Proof.
  intros x Hx. unfold nodeIds in *.
  apply in_map_iff in Hx as [n [<- Hn]]. apply filter_In in Hn as [Hn _].
  now apply in_map.
Qed.

Lemma buildFromDescription_keeps_invariant
  (description : string) (args : Args) :
  hoare (fun b => b = newBuilder) (buildFromDescription description args)
    (fun g b => WF (g_nodes g) (g_edges g) (nodeCount b)).
Proof.
  unfold buildFromDescription.
  eapply hoare_bind; [apply runConceptExtractor_spec|]. intros concepts.
  eapply hoare_bind; [apply createDomainSpecificHub_spec|]. intros hubId.
  eapply hoare_bind.
  { eapply hoare_conseq;
      [apply (hoare_forEachAcc
                (fun m => Inv (hubId :: List.map snd m)))| |].
    - intros m c _.
      eapply hoare_bind; [apply createDomainConceptNode_spec|].
      intros nodeId.
      eapply hoare_bind;
        [apply createConditionalEdge_spec; simpl; auto|].
      intros ?. apply hoare_ret. intros b. apply Inv_incl.
      apply incl_cons; [right; now left|].
      eapply incl_tran; [apply mapSet_values|].
      intros x [->|Hx]; [now left | right; now right].
    - simpl. auto.
    - intros m b H. exact H. }
  intros conceptNodeIds.
  set (K := hubId :: List.map snd conceptNodeIds).
  assert (In hubId K) as HhubK by now left.
  eapply hoare_bind with (R := fun _ => Inv K).
  { apply hoare_if; [|apply hoare_ret; auto].
    apply hoare_forEach. intros w _.
    eapply hoare_bind; [apply createDomainWebhookNode_spec|]. intros i.
    eapply hoare_bind; [apply required_keep|]. intros nm.
    apply edge_step; [now right | now left | apply incl_tl, incl_refl]. }
  intros ?.
  eapply hoare_bind with (R := fun _ => Inv K).
  { apply hoare_if; [|apply hoare_ret; auto].
    apply hoare_forEach. intros w _.
    eapply hoare_bind; [apply createDomainKnowledgeBaseNode_spec|]. intros i.
    eapply hoare_bind; [apply required_keep|]. intros nm.
    eapply hoare_bind; [apply joinOr_keep|]. intros ?.
    apply edge_step; [now right | now left | apply incl_tl, incl_refl]. }
  intros ?.
  eapply hoare_bind with (R := fun _ => Inv K).
  { apply hoare_if; [|apply hoare_ret; auto].
    apply hoare_forEach. intros w _.
    eapply hoare_bind; [apply createDomainTransferNode_spec|]. intros i.
    eapply hoare_bind; [apply required_keep|]. intros nm.
    eapply hoare_bind; [apply joinOr_keep|]. intros ?.
    apply edge_step; [now right | now left | apply incl_tl, incl_refl]. }
  intros ?.
  eapply hoare_bind; [apply createDomainResolutionNode_spec|].
  intros resolutionId.
  eapply hoare_bind; [apply createDomainCompletionNode_spec|].
  intros completionId.
  set (K2 := completionId :: resolutionId :: K).
  assert (In resolutionId K2) as HresK by (right; now left).
  assert (In completionId K2) as HcompK by now left.
  assert (In hubId K2) as HhubK2 by (right; right; exact HhubK).
  eapply hoare_bind with (R := fun _ => Inv K2).
  { apply hoare_forEach. intros entry Hentry.
    apply edge_step; [|exact HresK|apply incl_refl].
    right; right; right. apply in_map. exact Hentry. }
  intros ?.
  eapply hoare_bind with (R := fun _ => Inv K2).
  { apply hoare_if; [|apply hoare_ret; auto].
    eapply hoare_bind; [apply hoare_getNodes|]. intros allNodes. simpl.
    match goal with
    | |- hoare _ (forEach ?ids _) _ => set (otherNodeIds := ids)
    end.
    eapply hoare_conseq with (P := Inv (otherNodeIds ++ K2));
      [apply hoare_forEach| |].
    - intros nodeId Hid.
      apply edge_step;
        [ apply in_or_app; now left
        | apply in_or_app; now right
        | apply incl_refl ].
    - intros b [-> [Hwf Hk]]. split; [exact Hwf|].
      apply incl_app; [|exact Hk].
      subst otherNodeIds.
      eapply incl_tran; [apply filter_ids_incl|apply filter_ids_incl].
    - intros ? b. apply Inv_incl. apply incl_appr, incl_refl. }
  intros ?.
  eapply hoare_bind; [apply getDomain_keep|]. intros dom.
  eapply hoare_bind;
    [apply edge_step with (K := K2); [exact HresK|exact HcompK|apply incl_refl]|].
  intros ?.
  eapply hoare_bind;
    [apply edge_step with (K := K2); [exact HresK|exact HhubK2|apply incl_refl]|].
  intros ?.
  eapply hoare_bind; [apply hoare_getNodes|]. intros ns.
  eapply hoare_bind; [apply hoare_getEdges|]. intros es.
  apply hoare_ret. intros b [-> [-> [Hwf _]]].
  exact Hwf.
Qed.

End AssemblerFacts.

(** ** The template builders *)

Section TemplateFacts.

Import Modular.

Lemma hoareM_ret {A} (P : ModularPathwayBuilder -> Prop) (a : A)
  (Q : A -> ModularPathwayBuilder -> Prop) :
  (forall b, P b -> Q a b) -> hoareM P (Modular.ret a) Q.
Proof. intros H b HP. simpl. auto. Qed.

Lemma hoareM_bind {A B} (P : ModularPathwayBuilder -> Prop)
  (m : Modular.Build A) (k : A -> Modular.Build B)
  (R : A -> ModularPathwayBuilder -> Prop)
  (Q : B -> ModularPathwayBuilder -> Prop) :
  hoareM P m R -> (forall a, hoareM (R a) (k a) Q) ->
  hoareM P (Modular.bind m k) Q.
Proof.
  intros Hm Hk b HP. unfold Modular.bind.
  specialize (Hm b HP). destruct (m b) as [a b1]. simpl in Hm.
  exact (Hk a b1 Hm).
Qed.

Lemma hoareM_conseq {A} (P P' : ModularPathwayBuilder -> Prop)
  (m : Modular.Build A) (Q Q' : A -> ModularPathwayBuilder -> Prop) :
  hoareM P m Q -> (forall b, P' b -> P b) ->
  (forall a b, Q a b -> Q' a b) -> hoareM P' m Q'.
Proof. intros H HP HQ b HP'. auto. Qed.

Lemma hoareM_assume {A} (fact : Prop) (P : ModularPathwayBuilder -> Prop)
  (m : Modular.Build A) (Q : A -> ModularPathwayBuilder -> Prop) :
  (fact -> hoareM P m Q) -> hoareM (fun b => P b /\ fact) m Q.
Proof. intros H b [HP Hf]. exact (H Hf b HP). Qed.

Lemma hoareM_if {A} (c : bool) (P : ModularPathwayBuilder -> Prop)
  (m1 m2 : Modular.Build A) (Q : A -> ModularPathwayBuilder -> Prop) :
  hoareM P m1 Q -> hoareM P m2 Q -> hoareM P (if c then m1 else m2) Q.
Proof. destruct c; auto. Qed.

Lemma hoareM_forEach {A} (I : ModularPathwayBuilder -> Prop) (xs : list A)
  (body : A -> Modular.Build unit) :
  (forall x, In x xs -> hoareM I (body x) (fun _ => I)) ->
  hoareM I (Modular.forEach xs body) (fun _ => I).
Proof.
  induction xs as [|x xs IH]; intros Hbody; simpl.
  - apply hoareM_ret. auto.
  - eapply hoareM_bind; [apply Hbody; now left|].
    intros ?. apply IH. intros y Hy. apply Hbody. now right.
Qed.

Lemma InvM_weaken (known known' : string -> Prop) (b : ModularPathwayBuilder) :
  (forall i, known' i -> known i) -> InvM known b -> InvM known' b.
Proof. intros Hsub [Hwf Hk]. split; auto. Qed.

Lemma addNew_spec (known : string -> Prop) (name : string)
  (chain : ModularNodeBuilder -> ModularNodeBuilder) :
  keepsId chain ->
  hoareM (InvM known) (addNew name chain)
    (fun i => InvM (fun j => j = i \/ known j)).
Proof.
  intros Hchain b [Hwf Hk].
  unfold addNew, Modular.bind, createNode, addNode.
  cbn [fst snd Modular.nodes Modular.edges Modular.nodeCount].
  set (nb := newNodeBuilder (numberedId "node" (S (Modular.nodeCount b))) name).
  assert (id (buildNode (chain nb)) = numberedId "node" (S (Modular.nodeCount b)))
    as Hid by (unfold buildNode; cbn [id]; now rewrite Hchain).
  unfold InvM. cbn [Modular.nodes Modular.edges Modular.nodeCount].
  rewrite Hid. split.
  - apply WF_push_node; [exact Hwf|]. rewrite Hid.
    apply numbered_numberedId.
  - intros i [->|Hi]; unfold nodeIds; rewrite map_app; apply in_or_app.
    + right. left. exact Hid.
    + left. now apply Hk.
Qed.

Lemma addEdge_spec (known : string -> Prop) (src tgt : option string)
  (label : string) (metadata : option (string * string)) :
  knownEnd known src -> knownEnd known tgt ->
  hoareM (InvM known) (addEdge src tgt label metadata)
    (fun _ => InvM known).
Proof.
  intros [s [-> Hs]] [t [-> Ht]] b [Hwf Hk]. simpl. split; [|exact Hk].
  apply WF_push_edge; [exact Hwf|].
  split; apply endPresent_ids; auto.
Qed.

Lemma build_spec (known : string -> Prop) :
  hoareM (InvM known) Modular.build (fun g _ => wellFormed g).
Proof. intros b [Hwf _]. simpl. eapply WF_wellFormed. exact Hwf. Qed.

Lemma run_spec {A} (m : Modular.Build A) (Q : A -> Prop) :
  hoareM (InvM (fun _ => False)) m (fun a _ => Q a) -> Q (run m).
Proof.
  intros H. apply (H Modular.newBuilder).
  split; [apply WF_nil | intros i []].
Qed.

Ltac find_id := first [reflexivity | left; find_id | right; find_id].
Ltac known_id := cbv beta; unfold mapKnown; cbv beta; find_id.
Ltac known_end := eexists; split; [reflexivity | known_id].
Ltac add_new :=
  eapply hoareM_bind;
  [apply addNew_spec; intros ?; reflexivity | intros ?].
Ltac add_edge :=
  eapply hoareM_bind; [apply addEdge_spec; known_end | intros ?].

Lemma buildEnterpriseSalesPathway_wellFormed (args : SalesArgs) :
  wellFormed (buildEnterpriseSalesPathway args).
Proof.
  unfold buildEnterpriseSalesPathway. apply run_spec.
  do 9 add_new. do 8 add_edge. apply build_spec.
Qed.

Lemma buildIntelligentAppointmentSystem_wellFormed (args : AppointmentArgs) :
  wellFormed (buildIntelligentAppointmentSystem args).
Proof.
  unfold buildIntelligentAppointmentSystem. apply run_spec.
  do 8 add_new. do 7 add_edge. apply build_spec.
Qed.

Lemma objSet_other (key value : string) (o : gmap string string) :
  key <> "__proto__" -> objSet key value o = <[key := value]> o.
Proof.
  intros Hne. unfold objSet.
  destruct (String.eqb key "__proto__") eqn:E; [|reflexivity].
  apply String.eqb_eq in E. contradiction.
Qed.

Lemma objGet_other (key : string) (o : gmap string string) :
  key <> "__proto__" -> objGet key o = o !! key.
Proof.
  intros Hne. unfold objGet.
  destruct (String.eqb key "__proto__") eqn:E; [|reflexivity].
  apply String.eqb_eq in E. contradiction.
Qed.

Lemma objSet_values (key value : string) (o : gmap string string)
  (k j : string) :
  objSet key value o !! k = Some j -> j = value \/ o !! k = Some j.
Proof.
  unfold objSet. destruct (String.eqb key "__proto__"); [now right|].
  destruct (decide (key = k)) as [->|Hne].
  - rewrite lookup_insert_eq. intros [= ->]. now left.
  - rewrite lookup_insert_ne by exact Hne. now right.
Qed.

Lemma objSet_keeps (key value : string) (o : gmap string string) (k : string) :
  is_Some (o !! k) -> is_Some (objSet key value o !! k).
Proof.
  unfold objSet. destruct (String.eqb key "__proto__"); [auto|].
  destruct (decide (key = k)) as [->|Hne].
  - rewrite lookup_insert_eq. eauto.
  - now rewrite lookup_insert_ne.
Qed.

(** The loops that fill [specialistNodes] and [decisionNodes]: every key
    of the list other than [__proto__] ends up bound to the id of a node
    of the graph. *)
Lemma dictionary_loop (known : string -> Prop)
  (mk : string -> Modular.Build string) (xs : list string) :
  (forall K x, hoareM (InvM K) (mk x) (fun i => InvM (fun j => j = i \/ K j))) ->
  forall m : gmap string string,
  hoareM (InvM (mapKnown known m))
    (Modular.forEachAcc xs m
       (fun acc x => Modular.bind (mk x)
                       (fun i => Modular.ret (objSet x i acc))))
    (fun m' b => InvM (mapKnown known m') b /\
                 (forall k, is_Some (m !! k) -> is_Some (m' !! k)) /\
                 (forall x, In x xs -> x <> "__proto__" ->
                            is_Some (m' !! x))).
Proof.
  intros Hmk. induction xs as [|x xs IH]; intros m; simpl.
  - apply hoareM_ret. intros b Hb. split; [exact Hb|]. split; [auto|].
    intros x [].
  - eapply hoareM_bind with
      (R := fun m1 b => InvM (mapKnown known m1) b /\
                        (forall k, is_Some (m !! k) -> is_Some (m1 !! k)) /\
                        (x <> "__proto__" -> is_Some (m1 !! x))).
    + eapply hoareM_bind; [apply Hmk|]. intros i.
      apply hoareM_ret. intros b Hb. split; [|split].
      * eapply InvM_weaken; [|exact Hb].
        intros j [Hj|[k Hk]]; [right; now left|].
        apply objSet_values in Hk as [->|Hk]; [now left|].
        right. right. now exists k.
      * intros k Hk. now apply objSet_keeps.
      * intros Hne. rewrite objSet_other by exact Hne.
        rewrite lookup_insert_eq. eauto.
    + intros m1. apply hoareM_assume. intros [Hkeep Hx].
      eapply hoareM_conseq; [apply IH | auto |].
      intros m' b [Hb [Hkeep' Hxs]]. split; [exact Hb|]. split.
      * auto.
      * intros y [<-|Hy] Hne; auto.
Qed.

Lemma mapKnown_empty (known : string -> Prop) (b : ModularPathwayBuilder) :
  InvM known b -> InvM (mapKnown known ∅) b.
Proof.
  apply InvM_weaken. intros j [Hj|[k Hk]]; [exact Hj|].
  now rewrite lookup_empty in Hk.
Qed.

Ltac find_value :=
  first [solve [eexists; eassumption] | left; find_value | right; find_value].
Ltac known_value := cbv beta; unfold mapKnown; cbv beta; find_value.

(** An edge end read from the dictionary at a key of the list. *)
Lemma knownEnd_lookup (known : string -> Prop) (m : gmap string string)
  (x : string) :
  x <> "__proto__" ->
  is_Some (m !! x) -> (forall v, m !! x = Some v -> known v) ->
  knownEnd known (objGet x m).
Proof.
  intros Hne [v Hv] Hk. rewrite objGet_other by exact Hne.
  exists v. split; [exact Hv | now apply Hk].
Qed.

Lemma not_the_proto_key (xs : list string) (x : string) :
  ~ In "__proto__" xs -> In x xs -> x <> "__proto__".
Proof. intros Hnp Hin ->. contradiction. Qed.

Lemma buildAdvancedCustomerServicePathway_wellFormed (args : ServiceArgs) :
  ~ In "__proto__" (service_types args) ->
  wellFormed (buildAdvancedCustomerServicePathway args).
Proof.
  intros Hnp. pose proof (fun x => not_the_proto_key _ x Hnp) as Hkey.
  unfold buildAdvancedCustomerServicePathway. apply run_spec.
  do 3 add_new.
  eapply hoareM_bind.
  { eapply hoareM_conseq; [eapply dictionary_loop | apply mapKnown_empty |].
    - intros K x. apply addNew_spec. intros ?. reflexivity.
    - intros m' b H. exact H. }
  intros specialistNodes. apply hoareM_assume. intros [_ Hdom].
  do 3 add_new. add_edge.
  eapply hoareM_bind.
  { apply hoareM_forEach. intros serviceType Hin.
    eapply hoareM_bind;
      [apply addEdge_spec; [known_end|]
      |intros ?; apply hoareM_ret; intros b Hb; exact Hb].
    apply knownEnd_lookup; [auto | auto |]. intros v Hv. known_value. }
  intros ?. add_edge.
  eapply hoareM_bind.
  { apply hoareM_forEach. intros serviceType Hin.
    eapply hoareM_bind;
      [apply addEdge_spec; [|known_end]
      |intros ?; apply hoareM_ret; intros b Hb; exact Hb].
    apply knownEnd_lookup; [auto | auto |]. intros v Hv. known_value. }
  intros ?. do 2 add_edge. apply build_spec.
Qed.

Lemma chainDecisions_spec (known : string -> Prop)
  (decisionNodes : gmap string string) (processorId : string)
  (points : list string) :
  known processorId ->
  (forall x v, decisionNodes !! x = Some v -> known v) ->
  (forall x, In x points ->
     x <> "__proto__" /\ is_Some (decisionNodes !! x)) ->
  forall (i : nat) (currentNodeId : option string),
  knownEnd known currentNodeId ->
  hoareM (InvM known)
    (chainDecisions decisionNodes processorId i points currentNodeId)
    (fun _ => InvM known).
Proof.
  intros Hproc Hvals. induction points as [|p rest IH]; intros Hdom i cur Hcur.
  - apply hoareM_ret. auto.
  - assert (knownEnd known (objGet p decisionNodes)) as Hp.
    { apply knownEnd_lookup;
        [apply Hdom; now left | apply Hdom; now left | apply Hvals]. }
    simpl.
    eapply hoareM_bind; [apply addEdge_spec; assumption | intros ?].
    eapply hoareM_bind; [apply addEdge_spec; [assumption|] | intros ?].
    + destruct rest as [|next rest'].
      * now exists processorId.
      * apply knownEnd_lookup;
          [apply Hdom; right; now left | apply Hdom; right; now left
          | apply Hvals].
    + apply IH; [|exact Hp]. intros x Hx. apply Hdom. now right.
Qed.

Lemma buildCustomWorkflowPathway_wellFormed (args : WorkflowArgs) :
  ~ In "__proto__" (decision_points args) ->
  wellFormed (buildCustomWorkflowPathway args).
Proof.
  intros Hnp. pose proof (fun x => not_the_proto_key _ x Hnp) as Hkey.
  unfold buildCustomWorkflowPathway. apply run_spec.
  do 2 add_new.
  eapply hoareM_bind with
    (R := fun m b =>
            InvM (mapKnown (fun j => j = a0 \/ j = a \/ False) m) b /\
            forall x, In x (decision_points args) ->
                      x <> "__proto__" /\ is_Some (m !! x)).
  { destruct (decision_points args) as [|p ps] eqn:Hdp.
    - simpl. apply hoareM_ret. intros b Hb.
      split; [now apply mapKnown_empty | intros x []].
    - change (nonEmpty (p :: ps)) with true. cbv iota.
      eapply hoareM_conseq; [eapply dictionary_loop | apply mapKnown_empty |].
      + intros K x. apply addNew_spec. intros ?. reflexivity.
      + intros m' b [H1 [_ H3]]. split; [exact H1|].
        intros x Hx. split; [now apply Hkey | apply H3; [exact Hx|]].
        now apply Hkey. }
  intros decisionNodes. apply hoareM_assume. intros Hdom.
  add_new.
  eapply hoareM_bind with
    (R := fun _ => InvM (fun j => j = a1 \/
             mapKnown (fun j => j = a0 \/ j = a \/ False) decisionNodes j)).
  { destruct (global_fallbacks args).
    - eapply hoareM_bind; [apply addNew_spec; intros ?; reflexivity|].
      intros fallbackId. apply hoareM_ret. intros b.
      apply InvM_weaken. intros j Hj. now right.
    - apply hoareM_ret. auto. }
  intros ?. do 2 add_new. cbv beta.
  match goal with
  | |- hoareM (InvM ?K) _ _ => eapply hoareM_bind with (R := fun _ => InvM K)
  end.
  { apply hoareM_if.
    - apply chainDecisions_spec.
      + known_id.
      + intros x v Hv. known_value.
      + exact Hdom.
      + known_end.
    - add_edge. apply hoareM_ret. auto. }
  intros ?. do 2 add_edge. apply build_spec.
Qed.

End TemplateFacts.

(** ** Well-formedness of every generated graph *)

Section GeneratedGraphs.

(** C4. The claim fails on the two templates that keep node ids in a
    plain object.  With the service type [__proto__] the customer-service
    builder adds no entry to [specialistNodes] and reads no node id back
    from it: the edge from the classification node has no target among
    the nodes, and the edge to the satisfaction survey has no source.
    With the decision point [__proto__] the custom workflow leaves the
    entry node with an edge that has no target, and the processor is
    entered by an edge that has no source.  Neither graph is well
    formed. *)
Theorem proto_key_leaves_edges_without_a_node :
  let service :=
    Modular.buildAdvancedCustomerServicePathway
      (customerServiceArgs "Acme" "__proto__" None None) in
  let workflow :=
    Modular.buildCustomWorkflowPathway
      (customWorkflowArgs "Returns" returnsDescription None
         (Some "__proto__") false) in
  List.map id (g_nodes service)
  = ["node_1"; "node_2"; "node_3"; "node_4"; "node_5"; "node_6"; "node_7"] /\
  List.map (fun e => (e_id e, source e, target e)) (g_edges service)
  = [ ("edge_1", Some "node_2", Some "node_3");
      ("edge_2", Some "node_3", None);
      ("edge_3", Some "node_3", Some "node_5");
      ("edge_4", None, Some "node_6");
      ("edge_5", Some "node_5", Some "node_6");
      ("edge_6", Some "node_6", Some "node_7") ] /\
  ~ wellFormed service /\
  List.map id (g_nodes workflow)
  = ["node_1"; "node_2"; "node_3"; "node_4"; "node_5"; "node_6"] /\
  List.map (fun e => (e_id e, source e, target e)) (g_edges workflow)
  = [ ("edge_1", Some "node_2", None);
      ("edge_2", None, Some "node_4");
      ("edge_3", Some "node_4", Some "node_5");
      ("edge_4", Some "node_5", Some "node_6") ] /\
  ~ wellFormed workflow.
Proof.
  cbv zeta.
  assert (forall g e, In e (g_edges g) -> target e = None -> ~ wellFormed g)
    as Hbad.
  { intros g e He Ht [Hedges _].
    destruct (Hedges e He) as [_ [n [_ Hn]]]. congruence. }
  split; [vm_compute; reflexivity|]. split; [vm_compute; reflexivity|].
  split.
  { eapply Hbad; [|shelve]. vm_compute. right. left. reflexivity.
    Unshelve. reflexivity. }
  split; [vm_compute; reflexivity|]. split; [vm_compute; reflexivity|].
  eapply Hbad; [|shelve]. vm_compute. left. reflexivity.
  Unshelve. reflexivity.
Qed.

(** X25. Apart from the key [__proto__], every generated graph is well
    formed: in every graph returned by the assembler, by the sales and the
    appointment builder, by the customer-service builder when no service
    type is [__proto__], and by the custom-workflow builder when no
    decision point is [__proto__], the source and the target of every
    edge are ids of nodes of that graph, and no two nodes of the graph
    share an id. *)
Theorem graphs_are_well_formed_off_the_proto_key :
  (forall description args g,
      assemble description args = Some g -> wellFormed g) /\
  (forall args, wellFormed (Modular.buildEnterpriseSalesPathway args)) /\
  (forall args,
      ~ In "__proto__" (Modular.service_types args) ->
      wellFormed (Modular.buildAdvancedCustomerServicePathway args)) /\
  (forall args, wellFormed (Modular.buildIntelligentAppointmentSystem args)) /\
  (forall args,
      ~ In "__proto__" (Modular.decision_points args) ->
      wellFormed (Modular.buildCustomWorkflowPathway args)).
Proof.
  split; [|split; [|split; [|split]]].
  - intros description args g Hrun. unfold assemble in Hrun.
    destruct (buildFromDescription description args newBuilder)
      as [[g' b']|] eqn:E; [|discriminate].
    injection Hrun as ->.
    exact (WF_wellFormed _ _ _
             (buildFromDescription_keeps_invariant description args
                newBuilder g b' eq_refl E)).
  - apply buildEnterpriseSalesPathway_wellFormed.
  - apply buildAdvancedCustomerServicePathway_wellFormed.
  - apply buildIntelligentAppointmentSystem_wellFormed.
  - apply buildCustomWorkflowPathway_wellFormed.
Qed.

Lemma graphs_are_well_formed_off_the_proto_key_witness :
  wellFormed
    (Modular.buildAdvancedCustomerServicePathway
       (customerServiceArgs "Acme" "billing, technical" None None)) /\
  wellFormed
    (Modular.buildCustomWorkflowPathway
       (customWorkflowArgs "Returns" returnsDescription None
          (Some "refund, exchange") true)).
Proof.
  split.
  - apply (proj1 (proj2 (proj2 graphs_are_well_formed_off_the_proto_key))).
    vm_compute. intuition discriminate.
  - apply (proj2 (proj2 (proj2 (proj2 graphs_are_well_formed_off_the_proto_key)))).
    vm_compute. intuition discriminate.
Defined.

(** C10. For every company name and product the enterprise-sales builder
    returns a graph with exactly one End Call node; from the start node
    an edge leads to the lead-scoring node (the node that must calculate
    the lead score), from there one edge leads to the high-value node
    (lead score >= 50) and one to the nurture node (lead score < 40), and
    from each of these two the same End Call node is reached by following
    edges. *)
Theorem sales_paths_end_in_the_one_terminal (args : Modular.SalesArgs) :
  let g := Modular.buildEnterpriseSalesPathway args in
  exists start lead high nurture terminal,
    startNodes (g_nodes g) = [start] /\
    nodesOfType EndCall (g_nodes g) = [terminal] /\
    nodeWithCondition (g_nodes g)
      "Must calculate lead score before proceeding" = Some lead /\
    nodeWithCondition (g_nodes g) "Lead score >= 50 points" = Some high /\
    nodeWithCondition (g_nodes g) "Lead score < 40 points" = Some nurture /\
    edgesBetween (g_edges g) (id start) (id lead) <> [] /\
    edgesBetween (g_edges g) (id lead) (id high) <> [] /\
    edgesBetween (g_edges g) (id lead) (id nurture) <> [] /\
    reachable (g_edges g) (id high) (id terminal) /\
    reachable (g_edges g) (id nurture) (id terminal) /\
    reachable (g_edges g) (id start) (id high) /\
    reachable (g_edges g) (id start) (id nurture).
Proof.
  intros g. subst g. do 5 eexists.
  do 5 (split; [vm_compute; reflexivity|]).
  do 3 (split; [vm_compute; discriminate|]).
  split; [|split; [|split]].
  - apply reachable_edge with (b := "node_8").
    + apply reachable_edge with (b := "node_5"); [apply reach_here|].
      apply edgesBetween_connects. vm_compute. discriminate.
    + apply edgesBetween_connects. vm_compute. discriminate.
  - apply reachable_edge with (b := "node_7"); [apply reach_here|].
    apply edgesBetween_connects. vm_compute. discriminate.
  - apply reachable_edge with (b := "node_3").
    + apply reachable_edge with (b := "node_2"); [apply reach_here|].
      apply edgesBetween_connects. vm_compute. discriminate.
    + apply edgesBetween_connects. vm_compute. discriminate.
  - apply reachable_edge with (b := "node_3").
    + apply reachable_edge with (b := "node_2"); [apply reach_here|].
      apply edgesBetween_connects. vm_compute. discriminate.
    + apply edgesBetween_connects. vm_compute. discriminate.
Qed.

End GeneratedGraphs.

(** ** The shape of an assembled graph *)

Section AssemblerShape.

Lemma bind_inv {A B} (m : Build A) (k : A -> Build B) (b : Builder)
  (r : B * Builder) :
  bind m k b = Some r ->
  exists a b1, m b = Some (a, b1) /\ k a b1 = Some r.
Proof.
  unfold bind. destruct (m b) as [[a b1]|]; [|discriminate].
  intros H. now exists a, b1.
Qed.

Lemma forEach_as_forEachAcc {A} (xs : list A) (body : A -> Build unit)
  (b : Builder) :
  forEach xs body b = forEachAcc xs tt (fun _ x => body x) b.
Proof.
  revert b. induction xs as [|x xs IH]; intros b; simpl; [reflexivity|].
  unfold bind. destruct (body x b) as [[[] b1]|]; [apply IH | reflexivity].
Qed.

Lemma guarded_forEach {A} (xs : list A) (body : A -> Build unit) :
  (if nonEmpty xs then forEach xs body else ret tt) = forEach xs body.
Proof. destruct xs; reflexivity. Qed.

Lemma wiredFrom_app (hub : string) (es es' : list PathwayEdge)
  (ns ns' : list PathwayNode) :
  wiredFrom hub es ns -> wiredFrom hub es' ns' ->
  wiredFrom hub (es ++ es') (ns ++ ns').
Proof.
  intros H H' nd Hin. apply in_app_or in Hin as [Hin|Hin].
  - destruct (H nd Hin) as [e [He Hc]]. exists e. split; [|exact Hc].
    apply in_or_app. now left.
  - destruct (H' nd Hin) as [e [He Hc]]. exists e. split; [|exact Hc].
    apply in_or_app. now right.
Qed.

Lemma wiredFrom_incl (hub : string) (es es' : list PathwayEdge)
  (ns : list PathwayNode) :
  incl es es' -> wiredFrom hub es ns -> wiredFrom hub es' ns.
Proof.
  intros Hincl H nd Hin. destruct (H nd Hin) as [e [He Hc]].
  exists e. split; [apply Hincl, He | exact Hc].
Qed.

(** A fan-out loop pushes one node per element, in order, each wired
    from the hub. *)
Lemma fanOut_loop {A S} (R : string -> A -> PathwayNode -> Prop) (hub : string)
  (body : S -> A -> Build S) (xs : list A) :
  fanStep R hub body ->
  forall acc pre es dom,
    hoare (St pre es dom) (forEachAcc xs acc body)
      (fun _ b' => exists news es',
           St (pre ++ news) (es ++ es') dom b' /\
           Forall2 (R dom) xs news /\ wiredFrom hub es' news).
Proof.
  intros Hstep. induction xs as [|x xs IH]; intros acc pre es dom b r b' HSt Hrun.
  - inversion Hrun; subst; clear Hrun. exists [], [].
    rewrite !app_nil_r. split; [exact HSt|]. split; [constructor|].
    intros nd [].
  - simpl in Hrun. apply bind_inv in Hrun as [acc' [b1 [E Hrun]]].
    destruct (Hstep acc x pre es dom b acc' b1 HSt E)
      as [nd [e [HSt1 [HR Hc]]]].
    destruct (IH acc' _ _ _ b1 r b' HSt1 Hrun)
      as [news [es' [HSt2 [HF Hw]]]].
    exists (nd :: news), (e :: es').
    rewrite <- !app_assoc in HSt2. simpl in HSt2.
    split; [exact HSt2|]. split; [now constructor|].
    intros n [<-|Hn].
    + exists e. split; [now left | exact Hc].
    + destruct (Hw n Hn) as [e' [He' Hc']].
      exists e'. split; [now right | exact Hc'].
Qed.

Ltac fan_step :=
  let b := fresh "b" in
  intros ? ? ? ? ? b ? ? [? [? ?]] Hrun;
  destruct b; cbn [nodes edges domain] in *; subst;
  run_builder Hrun;
  (cbn [nodes edges domain nodeCount edgeCount] in *;
   do 2 eexists; split; [repeat split|split]; repeat split).

Lemma concept_loop_step (hubId : string) (args : Args) :
  fanStep isConceptNodeFor hubId
    (fun (conceptNodeIds : list (string * string)) concept =>
       (nodeId <- createDomainConceptNode concept args ;;
        createConditionalEdge hubId nodeId
          (c_condition concept) (c_description concept) ;;;
        ret (mapSet (c_type concept) nodeId conceptNodeIds))%build).
Proof. fan_step. Qed.

Lemma webhook_loop_step (hubId : string) :
  fanStep (fun _ => isWebhookNodeFor) hubId
    (fun (_ : unit) webhook =>
       (webhookId <- createDomainWebhookNode webhook ;;
        whName <- required (stringOf (wh_name webhook)) ;;
        createConditionalEdge hubId webhookId
          ("needs " +:+ toLowerCase whName)
          ("Route to " +:+ whName +:+ " for domain-specific processing"))%build).
Proof. fan_step. Qed.

Lemma knowledge_base_loop_step (hubId : string) :
  fanStep (fun _ => isKnowledgeBaseNodeFor) hubId
    (fun (_ : unit) kbSpec =>
       (kbId <- createDomainKnowledgeBaseNode kbSpec ;;
        kbName <- required (stringOf (kb_name kbSpec)) ;;
        triggerCondition <-
          joinOr (kb_trigger_phrases kbSpec)
            ("questions about " +:+ toLowerCase kbName) ;;
        createConditionalEdge hubId kbId
          ("asks about " +:+ triggerCondition)
          ("Provide specialized information from " +:+ kbName))%build).
Proof. fan_step. Qed.

Lemma transfer_loop_step (hubId : string) :
  fanStep (fun _ => isTransferNodeFor) hubId
    (fun (_ : unit) transfer =>
       (transferId <- createDomainTransferNode transfer ;;
        trName <- required (stringOf (tr_name transfer)) ;;
        conditions <-
          joinOr (tr_conditions transfer) ("needs " +:+ toLowerCase trName) ;;
        createConditionalEdge hubId transferId conditions
          ("Transfer to " +:+ trName +:+ " for specialized assistance"))%build).
Proof. fan_step. Qed.

Lemma fanOut_forEach {A} (R : string -> A -> PathwayNode -> Prop)
  (hub : string) (body : A -> Build unit) (xs : list A) :
  fanStep R hub (fun (_ : unit) x => body x) ->
  forall pre es dom,
    hoare (St pre es dom) (forEach xs body)
      (fun _ b' => exists news es',
           St (pre ++ news) (es ++ es') dom b' /\
           Forall2 (R dom) xs news /\ wiredFrom hub es' news).
Proof.
  intros Hstep pre es dom b r b' HSt Hrun.
  rewrite forEach_as_forEachAcc in Hrun.
  exact (fanOut_loop R hub _ xs Hstep tt pre es dom b r b' HSt Hrun).
Qed.

Ltac node_step :=
  let b := fresh "b" in
  intros b ? ? [? [? ?]] Hrun;
  destruct b; cbn [nodes edges domain] in *; subst;
  run_builder Hrun; cbn [nodes edges domain nodeCount edgeCount] in *;
  eexists; repeat split.

Lemma hub_step (cs : list Concept) (pre : list PathwayNode)
  (es : list PathwayEdge) (dom : string) :
  hoare (St pre es dom) (createDomainSpecificHub cs)
    (fun i b' => exists nd, St (pre ++ [nd]) es dom b' /\ id nd = i /\
                            type nd = Default /\ isStart (data nd) = true).
Proof. node_step. Qed.

Lemma resolution_step (pre : list PathwayNode) (es : list PathwayEdge)
  (dom : string) :
  hoare (St pre es dom) createDomainResolutionNode
    (fun i b' => exists nd, St (pre ++ [nd]) es dom b' /\ id nd = i /\
                            type nd = Default).
Proof. node_step. Qed.

Lemma completion_step (pre : list PathwayNode) (es : list PathwayEdge)
  (dom : string) :
  hoare (St pre es dom) createDomainCompletionNode
    (fun i b' => exists nd, St (pre ++ [nd]) es dom b' /\ id nd = i /\
                            type nd = EndCall).
Proof. node_step. Qed.

Lemma edge_exact (ns : list PathwayNode) (es : list PathwayEdge)
  (dom s t c d : string) :
  hoare (St ns es dom) (createConditionalEdge s t c d)
    (fun _ b' => exists e, St ns (es ++ [e]) dom b' /\ connects e s t).
Proof.
  intros b ? b' [Hn [He Hd]] Hrun.
  destruct b; cbn [nodes edges domain] in *; subst.
  run_builder Hrun. eexists. repeat split.
Qed.

(** A wiring loop appends one edge per element and nothing else. *)
Lemma edge_loop {A} (src : A -> string) (tgt : string)
  (c d : A -> string) (xs : list A) :
  forall ns es dom,
    hoare (St ns es dom)
      (forEach xs (fun x => createConditionalEdge (src x) tgt (c x) (d x)))
      (fun _ b' => exists es', St ns (es ++ es') dom b' /\
                               wiredInto src tgt xs es').
Proof.
  induction xs as [|x xs IH]; intros ns es dom b r b' HSt Hrun.
  - inversion Hrun; subst; clear Hrun. exists [].
    rewrite app_nil_r. split; [exact HSt | constructor].
  - simpl in Hrun. apply bind_inv in Hrun as [u [b1 [E Hrun]]].
    destruct (edge_exact _ _ _ _ _ _ _ _ _ _ HSt E) as [e [HSt1 Hc]].
    destruct (IH _ _ _ _ _ _ HSt1 Hrun) as [es' [HSt2 HF]].
    exists (e :: es'). rewrite <- app_assoc in HSt2.
    split; [exact HSt2 | now constructor].
Qed.

(** What the concept loop leaves in [conceptNodeIds]. *)
Lemma concept_loop_map (hubId : string) (args : Args) (cs : list Concept) :
  forall acc pre es dom,
    hoare (St pre es dom)
      (forEachAcc cs acc
         (fun (conceptNodeIds : list (string * string)) concept =>
            (nodeId <- createDomainConceptNode concept args ;;
             createConditionalEdge hubId nodeId
               (c_condition concept) (c_description concept) ;;;
             ret (mapSet (c_type concept) nodeId conceptNodeIds))%build))
      (fun m b' => exists news,
           nodes b' = pre ++ news /\ length news = length cs /\
           m = recordIds acc cs news).
Proof.
  induction cs as [|c cs IH]; intros acc pre es dom b m b' HSt Hrun.
  - inversion Hrun; subst; clear Hrun. exists [].
    rewrite app_nil_r. destruct HSt as [Hn _]. repeat split; auto.
  - simpl in Hrun. apply bind_inv in Hrun as [acc' [b1 [E Hrun]]].
    assert (exists nd e, St (pre ++ [nd]) (es ++ [e]) dom b1 /\
                         acc' = mapSet (c_type c) (id nd) acc)
      as [nd [e [HSt1 ->]]].
    { destruct HSt as [Hn [He Hd]].
      destruct b; cbn [nodes edges domain] in *; subst.
      run_builder E. do 2 eexists. repeat split. }
    destruct (IH _ _ _ _ _ _ _ HSt1 Hrun) as [news [Hn [Hlen ->]]].
    exists (nd :: news). rewrite <- app_assoc in Hn.
    split; [exact Hn|]. split; [simpl; now rewrite Hlen | reflexivity].
Qed.

(** The complete trace of [buildFromDescription] on a fresh instance: the
    nodes in order, and the edges in order: the fan-out edges from the hub,
    one edge into the resolution node per entry of [conceptNodeIds], one per
    id visited by the second wiring loop when an integration is configured,
    then resolution -> terminal and resolution -> hub. *)
Lemma assemble_trace (description : string) (args : Args) (g : Graph) :
  assemble description args = Some g ->
  exists hub cn wn kn tn res comp esFan esConcept esOther e1 e2,
    g_nodes g = hub :: cn ++ wn ++ kn ++ tn ++ [res; comp] /\
    g_edges g = esFan ++ esConcept ++ esOther ++ [e1; e2] /\
    Forall2 (isConceptNodeFor (extractPrimaryDomain description (name args)))
      (extractDomainSpecificConcepts description
         (extractPrimaryDomain description (name args))) cn /\
    Forall2 isWebhookNodeFor (webhook_integrations args) wn /\
    Forall2 isKnowledgeBaseNodeFor (knowledge_bases args) kn /\
    Forall2 isTransferNodeFor (transfer_numbers args) tn /\
    (type hub = Default /\ isStart (data hub) = true) /\
    type res = Default /\ type comp = EndCall /\
    wiredFrom (id hub) esFan (cn ++ wn ++ kn ++ tn) /\
    wiredInto snd (id res)
      (recordIds []
         (extractDomainSpecificConcepts description
            (extractPrimaryDomain description (name args))) cn)
      esConcept /\
    wiredInto (fun i => i) (id res)
      (if hasIntegrations args
       then otherNodeIds (g_nodes g)
              (recordIds []
                 (extractDomainSpecificConcepts description
                    (extractPrimaryDomain description (name args))) cn)
              (id hub) (id res) (id comp)
       else [])
      esOther /\
    connects e1 (id res) (id comp) /\ connects e2 (id res) (id hub).
Proof.
  unfold assemble.
  destruct (buildFromDescription description args newBuilder)
    as [[g' b']|] eqn:E; [|discriminate].
  intros Hg. injection Hg as ->.
  unfold buildFromDescription in E.
  set (dom := extractPrimaryDomain description (name args)) in *.
  apply bind_inv in E as [cs [b1 [E1 E]]].
  assert (cs = extractDomainSpecificConcepts description dom /\
          St [] [] dom b1) as [-> HSt1].
  { cbv [runConceptExtractor bind ret setDomain setPrimaryPurpose getDomain
         newBuilder] in E1.
    inversion E1; subst; clear E1. repeat split. }
  apply bind_inv in E as [hubId [b2 [E2 E]]].
  destruct (hub_step _ _ _ _ _ _ _ HSt1 E2) as [hub [HSt2 [Hid [Hty Hst]]]].
  simpl in HSt2.
  apply bind_inv in E as [m [b3 [E3 E]]].
  destruct (fanOut_loop _ _ _ _ (concept_loop_step hubId args)
              _ _ _ _ _ _ _ HSt2 E3) as [cn [es1 [HSt3 [HF1 Hw1]]]].
  destruct (concept_loop_map hubId args _ _ _ _ _ _ _ _ HSt2 E3)
    as [cn' [Hcn' [_ Hm]]].
  assert (cn' = cn) as ->.
  { destruct HSt3 as [Hn3 _]. rewrite Hn3 in Hcn'.
    now apply app_inv_head in Hcn'. }
  apply bind_inv in E as [u4 [b4 [E4 E]]]. rewrite guarded_forEach in E4.
  destruct (fanOut_forEach _ _ _ _ (webhook_loop_step hubId)
              _ _ _ _ _ _ HSt3 E4) as [wn [es2 [HSt4 [HF2 Hw2]]]].
  apply bind_inv in E as [u5 [b5 [E5 E]]]. rewrite guarded_forEach in E5.
  destruct (fanOut_forEach _ _ _ _ (knowledge_base_loop_step hubId)
              _ _ _ _ _ _ HSt4 E5) as [kn [es3 [HSt5 [HF3 Hw3]]]].
  apply bind_inv in E as [u6 [b6 [E6 E]]]. rewrite guarded_forEach in E6.
  destruct (fanOut_forEach _ _ _ _ (transfer_loop_step hubId)
              _ _ _ _ _ _ HSt5 E6) as [tn [es4 [HSt6 [HF4 Hw4]]]].
  apply bind_inv in E as [resolutionId [b7 [E7 E]]].
  destruct (resolution_step _ _ _ _ _ _ HSt6 E7) as [res [HSt7 [Hrid Hrty]]].
  apply bind_inv in E as [completionId [b8 [E8 E]]].
  destruct (completion_step _ _ _ _ _ _ HSt7 E8) as [comp [HSt8 [Hcid Hcty]]].
  clear HSt1 HSt2 HSt3 HSt4 HSt5 HSt6 HSt7 E1 E2 E3 E4 E5 E6 E7 E8.
  simpl in HSt8. repeat rewrite <- app_assoc in HSt8. simpl in HSt8.
  set (NS := hub :: cn ++ wn ++ kn ++ tn ++ [res; comp]) in *.
  set (ES := es1 ++ es2 ++ es3 ++ es4) in *.
  apply bind_inv in E as [u9 [b9 [E9 E]]].
  destruct (edge_loop snd resolutionId
              (fun entry => fst entry +:+ " assistance complete")
              (fun entry => "Complete " +:+ fst entry
                            +:+ " assistance and assess satisfaction")
              m _ _ _ _ _ _ HSt8 E9) as [esC [HSt9 HFC]].
  apply bind_inv in E as [u10 [b10 [E10 E]]].
  fold (hasIntegrations args) in E10.
  assert (exists esO,
             St NS ((ES ++ esC) ++ esO) dom b10 /\
             wiredInto (fun i => i) resolutionId
               (if hasIntegrations args
                then otherNodeIds NS m hubId resolutionId completionId
                else []) esO) as [esO [HSt10 HFO]].
  { destruct (hasIntegrations args).
    - apply bind_inv in E10 as [allNodes [b9' [Eg E10]]].
      inversion Eg; subst allNodes b9'; clear Eg.
      destruct HSt9 as [Hn9 [He9 Hd9]]. rewrite Hn9 in E10.
      exact (edge_loop (fun i => i) resolutionId
               (fun _ => "service completed successfully")
               (fun _ => "Complete service and assess customer satisfaction")
               _ _ _ _ _ _ _ (conj Hn9 (conj He9 Hd9)) E10).
    - inversion E10; subst; clear E10. exists [].
      rewrite app_nil_r. split; [exact HSt9 | constructor]. }
  apply bind_inv in E as [d [b11 [E11 E]]].
  inversion E11; subst d b11; clear E11.
  apply bind_inv in E as [u12 [b12 [E12 E]]].
  destruct (edge_exact _ _ _ _ _ _ _ _ _ _ HSt10 E12) as [e1 [HSt12 Hc1]].
  apply bind_inv in E as [u13 [b13 [E13 E]]].
  destruct (edge_exact _ _ _ _ _ _ _ _ _ _ HSt12 E13) as [e2 [HSt13 Hc2]].
  cbv [bind getNodes getEdges ret] in E. inversion E; subst g b'; clear E.
  destruct HSt13 as [Hn [He _]].
  exists hub, cn, wn, kn, tn, res, comp, ES, esC, esO, e1, e2.
  cbn [g_nodes g_edges]. rewrite Hn, He. subst hubId resolutionId completionId.
  split; [reflexivity|].
  split; [repeat rewrite <- app_assoc; reflexivity|].
  do 7 (split; [assumption || (split; assumption)|]).
  split.
  { subst ES. apply wiredFrom_app; [exact Hw1|].
    apply wiredFrom_app; [exact Hw2|].
    apply wiredFrom_app; [exact Hw3|exact Hw4]. }
  subst m. split; [assumption|split; [assumption|split; assumption]].
Qed.

(** The nodes of an assembled graph, in order: the hub, one node per
    concept, per webhook, per knowledge base and per transfer target,
    then the resolution node and the End Call node; each fan-out node
    has an edge from the hub. *)
Lemma assemble_shape (description : string) (args : Args) (g : Graph) :
  assemble description args = Some g ->
  exists hub cn wn kn tn res comp,
    g_nodes g = hub :: cn ++ wn ++ kn ++ tn ++ [res; comp] /\
    Forall2 (isConceptNodeFor (extractPrimaryDomain description (name args)))
      (extractDomainSpecificConcepts description
         (extractPrimaryDomain description (name args))) cn /\
    Forall2 isWebhookNodeFor (webhook_integrations args) wn /\
    Forall2 isKnowledgeBaseNodeFor (knowledge_bases args) kn /\
    Forall2 isTransferNodeFor (transfer_numbers args) tn /\
    (type hub = Default /\ isStart (data hub) = true) /\
    type res = Default /\ type comp = EndCall /\
    wiredFrom (id hub) (g_edges g) (cn ++ wn ++ kn ++ tn).
Proof.
  intros Hg.
  destruct (assemble_trace description args g Hg)
    as (hub & cn & wn & kn & tn & res & comp & esFan & esC & esO & e1 & e2
        & Hn & He & HFc & HFw & HFk & HFt & Hhub & Hres & Hcomp & Hw & _).
  exists hub, cn, wn, kn, tn, res, comp.
  do 8 (split; [assumption|]).
  rewrite He. eapply wiredFrom_incl; [|exact Hw].
  apply incl_appl, incl_refl.
Qed.

End AssemblerShape.

(** ** Normal return of the assembler *)

Section AssemblerTotal.











(** A descriptor without a name makes the build raise. *)
Example nameless_webhook_aborts :
  assemble plainDescription
    (mkArgs "Front desk"
       [mkWebhook JsUndefined (JsString "https://crm.example.com/hook")
          JsUndefined] [] [])
  = None.
Proof. vm_compute. reflexivity. Qed.

(** A named knowledge base whose trigger phrases are a string, not an
    array, makes the build raise as well; with an array the phrases are
    joined into the condition of the edge. *)
Example string_trigger_phrases_abort :
  assemble plainDescription
    (mkArgs "Front desk" []
       [mkKb (JsString "FAQ") (JsString "Opening hours") (JsString "billing")]
       [])
  = None /\
  exists g,
    assemble plainDescription
      (mkArgs "Front desk" []
         [mkKb (JsString "FAQ") (JsString "Opening hours")
            (JsArray [JsString "billing"; JsString "refunds"])]
         [])
    = Some g /\
    List.map label (g_edges g)
    = [ "asks about billing or refunds";
        "service completed successfully";
        "satisfied with specialized business service";
        "additional specialized business needs" ].
Proof.
  split; [vm_compute; reflexivity|].
  eexists. split; vm_compute; reflexivity.
Qed.

End AssemblerTotal.

(** ** Descriptors and concepts in the assembled graph *)

Section AssembledNodes.

Lemma Forall2_In_left {A B} (R : A -> B -> Prop) (xs : list A)
  (ys : list B) (x : A) :
  Forall2 R xs ys -> In x xs -> exists y, In y ys /\ R x y.
Proof.
  induction 1 as [|a c xs ys HR _ IH]; intros Hin; [destruct Hin|].
  destruct Hin as [<-|Hin].
  - exists c. split; [now left | exact HR].
  - destruct (IH Hin) as [y [Hy HRy]]. exists y. split; [now right | exact HRy].
Qed.

Lemma Forall2_types {A} (R : A -> PathwayNode -> Prop) (t : NodeType)
  (xs : list A) (ns : list PathwayNode) :
  (forall x n, R x n -> type n = t) ->
  Forall2 R xs ns -> Forall (fun n => type n = t) ns /\ length ns = length xs.
Proof.
  intros HR. induction 1 as [|a c xs ys H _ [IH1 IH2]]; simpl.
  - split; [constructor | reflexivity].
  - split; [constructor; eauto | now rewrite IH2].
Qed.

Lemma nodesOfType_same (t : NodeType) (ns : list PathwayNode) :
  Forall (fun n => type n = t) ns -> nodesOfType t ns = ns.
Proof.
  induction 1 as [|n ns Hn _ IH]; simpl; [reflexivity|].
  rewrite Hn. destruct t; simpl; f_equal; exact IH.
Qed.

Lemma nodesOfType_other (t t' : NodeType) (ns : list PathwayNode) :
  NodeType_eqb t' t = false ->
  Forall (fun n => type n = t') ns -> nodesOfType t ns = [].
Proof.
  intros Hne. induction 1 as [|n ns Hn _ IH]; simpl; [reflexivity|].
  rewrite Hn, Hne. exact IH.
Qed.

Lemma nodesOfType_app (t : NodeType) (ns ns' : list PathwayNode) :
  nodesOfType t (ns ++ ns') = nodesOfType t ns ++ nodesOfType t ns'.
Proof. unfold nodesOfType. apply List.filter_app. Qed.





Lemma pushIf_true (c x : Concept) (l : list Concept) :
  In x (pushIf true c l) <-> x = c \/ In x l.
Proof. simpl. rewrite in_app_iff. simpl. intuition. Qed.

Lemma pushIf_keeps (cond : bool) (c x : Concept) (l : list Concept) :
  In x l -> In x (pushIf cond c l).
Proof. destruct cond; simpl; [|auto]. intros H. apply in_or_app. now left. Qed.

Lemma containsAny_keyword (text keyword : string) (keywords : list string) :
  In keyword keywords -> includes text (toLowerCase keyword) = true ->
  containsAny text keywords = true.
Proof.
  intros Hin Hinc. unfold containsAny. apply existsb_exists.
  exists keyword. now split.
Qed.

(** C8 as stated fails: a description that is exactly the phrase names no
    health-insurance keyword, so the domain is another one and no concept
    is extracted. *)
Lemma family_phrase_alone_yields_no_concept :
  includes familyPhrase familyPhrase = true /\
  extractPrimaryDomain familyPhrase "Plan advisor" = "specialized business" /\
  extractDomainSpecificConcepts familyPhrase
    (extractPrimaryDomain familyPhrase "Plan advisor") = [] /\
  ~ In family_coverage
      (extractDomainSpecificConcepts familyPhrase
         (extractPrimaryDomain familyPhrase "Plan advisor")).
Proof.
  split; [apply includes_refl|].
  split; [vm_compute; reflexivity|].
  split; [vm_compute; reflexivity|].
  vm_compute. tauto.
Qed.

(** C8, as the code has it. When the description contains the phrase and
    the primary domain extracted from description and name is "health
    insurance", the concept list includes family_coverage and
    budget_plans, and every graph assembled from this input holds the
    node built for family_coverage, whose variable-extraction list
    includes family_size and ages_of_dependents. *)
Theorem family_phrase_in_health_insurance_domain
  (description : string) (args : Args) :
  includes description familyPhrase = true ->
  extractPrimaryDomain description (name args) = "health insurance" ->
  In family_coverage
    (extractDomainSpecificConcepts description
       (extractPrimaryDomain description (name args))) /\
  In budget_plans
    (extractDomainSpecificConcepts description
       (extractPrimaryDomain description (name args))) /\
  forall g, assemble description args = Some g ->
    exists nd,
      In nd (g_nodes g) /\
      isConceptNodeFor "health insurance" family_coverage nd /\
      In "family_size" (varNames nd) /\
      In "ages_of_dependents" (varNames nd).
Proof.
  intros Hphrase Hdom.
  assert (forall kw, includes familyPhrase kw = true ->
                     includes (toLowerCase description) (toLowerCase kw) = true)
    as Hkw.
  { intros kw Hin. apply includes_toLowerCase.
    eapply includes_trans; eassumption. }
  assert (In family_coverage
            (extractDomainSpecificConcepts description
               (extractPrimaryDomain description (name args)))) as Hfam.
  { rewrite Hdom, extractDomainSpecificConcepts_unfold.
    apply sortByPriority_In, pushIf_keeps. simpl String.eqb. cbv iota.
    unfold healthInsuranceConcepts. do 5 apply pushIf_keeps.
    rewrite (containsAny_keyword _ "family"); [apply pushIf_true; now left | |].
    - simpl. tauto.
    - apply Hkw. vm_compute. reflexivity. }
  split; [exact Hfam|]. split.
  { rewrite Hdom, extractDomainSpecificConcepts_unfold.
    apply sortByPriority_In, pushIf_keeps. simpl String.eqb. cbv iota.
    unfold healthInsuranceConcepts. do 1 apply pushIf_keeps.
    rewrite (containsAny_keyword _ "affordable"); [apply pushIf_true; now left | |].
    - simpl. tauto.
    - apply Hkw. vm_compute. reflexivity. }
  intros g Hg.
  destruct (assemble_shape description args g Hg)
    as (hub & cn & wn & kn & tn & res & comp & Hnodes & HFc & _).
  destruct (Forall2_In_left _ _ _ _ HFc Hfam) as [nd [Hnd HR]].
  rewrite Hdom in HR.
  exists nd. split; [|split; [exact HR|]].
  - rewrite Hnodes. right. apply in_or_app. now left.
  - destruct HR as [_ [_ Hvars]]. unfold varNames. rewrite Hvars.
    split; vm_compute; tauto.
Qed.

Lemma family_phrase_in_health_insurance_domain_witness :
  In family_coverage
    (extractDomainSpecificConcepts familyDescription
       (extractPrimaryDomain familyDescription (name familyArgs))) /\
  In budget_plans
    (extractDomainSpecificConcepts familyDescription
       (extractPrimaryDomain familyDescription (name familyArgs))) /\
  forall g, assemble familyDescription familyArgs = Some g ->
    exists nd,
      In nd (g_nodes g) /\
      isConceptNodeFor "health insurance" family_coverage nd /\
      In "family_size" (varNames nd) /\
      In "ages_of_dependents" (varNames nd).
Proof.
  apply (family_phrase_in_health_insurance_domain
           familyDescription familyArgs).
  - vm_compute. reflexivity.
  - vm_compute. reflexivity.
Defined.

(** *** Further consequences of the trace *)

Lemma Forall2_length_eq {A B} (R : A -> B -> Prop) (xs : list A) (ys : list B) :
  Forall2 R xs ys -> length ys = length xs.
Proof. induction 1; simpl; congruence. Qed.


Lemma distinctb_sound (l : list string) : distinctb l = true -> List.NoDup l.
Proof.
  induction l as [|x l IH]; simpl; intros H; [constructor|].
  apply andb_true_iff in H as [Hx Hl]. constructor; [|auto].
  intros Hin. apply negb_true_iff in Hx.
  assert (existsb (String.eqb x) l = true) as E; [|congruence].
  apply existsb_exists. exists x. split; [exact Hin | apply String.eqb_refl].
Qed.

(** No concept type is extracted twice. *)
Lemma extracted_types_distinct (description domain : string) :
  List.NoDup (List.map c_type (extractDomainSpecificConcepts description domain)).
Proof.
  rewrite extractDomainSpecificConcepts_unfold. unfold healthInsuranceConcepts.
  destruct (String.eqb domain "health insurance");
    repeat match goal with
           | |- context [pushIf (containsAny ?t ?k) _ _] =>
               destruct (containsAny t k)
           end;
    apply distinctb_sound; reflexivity.
Qed.

Lemma mapSet_fresh (k v : string) (m : list (string * string)) :
  ~ In k (List.map fst m) -> mapSet k v m = m ++ [(k, v)].
Proof.
  induction m as [|[k' v'] m IH]; simpl; intros Hk; [reflexivity|].
  destruct (String.eqb_spec k' k) as [->|Hne].
  - exfalso. apply Hk. now left.
  - rewrite IH; [reflexivity|]. intros Hin. apply Hk. now right.
Qed.

(** With distinct concept types [conceptNodeIds] lists the concept nodes
    in order. *)
Lemma recordIds_values (cs : list Concept) (news : list PathwayNode) :
  length news = length cs ->
  forall acc,
    List.NoDup (List.map fst acc ++ List.map c_type cs) ->
    List.map snd (recordIds acc cs news) = List.map snd acc ++ List.map id news.
Proof.
  revert news. induction cs as [|c cs IH]; intros [|nd news] Hlen acc Hnd;
    try discriminate; unfold recordIds; simpl.
  - now rewrite app_nil_r.
  - fold (recordIds (mapSet (c_type c) (id nd) acc) cs news).
    assert (~ In (c_type c) (List.map fst acc)) as Hfresh.
    { intros Hin. apply NoDup_remove_2 in Hnd. apply Hnd.
      apply in_or_app. now left. }
    rewrite mapSet_fresh by exact Hfresh.
    rewrite IH.
    + rewrite map_app. simpl. now rewrite <- app_assoc.
    + simpl in Hlen. congruence.
    + rewrite map_app. simpl. rewrite <- app_assoc. exact Hnd.
Qed.

Lemma wiredInto_In {A} (src : A -> string) (tgt : string) (xs : list A)
  (es : list PathwayEdge) (x : A) :
  wiredInto src tgt xs es -> In x xs ->
  exists e, In e es /\ connects e (src x) tgt.
Proof. intros HF Hin. exact (Forall2_In_left _ _ _ _ HF Hin). Qed.

Lemma assemble_wellFormed (description : string) (args : Args) (g : Graph) :
  assemble description args = Some g -> wellFormed g.
Proof.
  unfold assemble.
  destruct (buildFromDescription description args newBuilder)
    as [[g' b']|] eqn:E; [|discriminate].
  intros Hg. injection Hg as ->.
  exact (WF_wellFormed _ _ _
           (buildFromDescription_keeps_invariant description args
              newBuilder g b' eq_refl E)).
Qed.

Lemma assemble_WF (description : string) (args : Args) (g : Graph) :
  assemble description args = Some g ->
  exists count, WF (g_nodes g) (g_edges g) count.
Proof.
  unfold assemble.
  destruct (buildFromDescription description args newBuilder)
    as [[g' b']|] eqn:E; [|discriminate].
  intros Hg. injection Hg as ->. exists (nodeCount b').
  exact (buildFromDescription_keeps_invariant description args
           newBuilder g b' eq_refl E).
Qed.

Lemma distinct_ids_across (l1 l2 : list PathwayNode) (x y : PathwayNode) :
  List.NoDup (nodeIds (l1 ++ l2)) -> In x l1 -> In y l2 -> id x <> id y.
Proof.
  unfold nodeIds. rewrite map_app.
  induction l1 as [|a l1 IH]; simpl; intros Hnd Hx Hy; [destruct Hx|].
  inversion Hnd as [|? ? Hnotin Hnd']; subst.
  destruct Hx as [->|Hx].
  - intros Heq. apply Hnotin. rewrite Heq. apply in_or_app. right.
    now apply in_map.
  - now apply IH.
Qed.

Lemma reachable_trans (es : list PathwayEdge) (a b c : string) :
  reachable es a b -> reachable es b c -> reachable es a c.
Proof.
  intros Hab Hbc. induction Hbc as [|e x y _ IH Hin Hc]; [exact Hab|].
  exact (reach_step es a e x y IH Hin Hc).
Qed.

Lemma reachable_one (es : list PathwayEdge) (a b : string) :
  (exists e, In e es /\ connects e a b) -> reachable es a b.
Proof. apply reachable_edge. apply reach_here. Qed.

(** Outside the degenerate case reachability holds: when at least one
    concept, webhook, knowledge base or transfer target is present, every
    node of the assembled graph is reached from the hub. *)
Lemma fan_out_makes_every_node_reachable
  (description : string) (args : Args) (g : Graph) :
  assemble description args = Some g ->
  0 < fanOutSize description args ->
  exists hub,
    hd_error (g_nodes g) = Some hub /\ isStart (data hub) = true /\
    forall n, In n (g_nodes g) -> reachable (g_edges g) (id hub) (id n).
Proof.
  intros Hg Hsize.
  pose proof (assemble_wellFormed _ _ _ Hg) as [_ Hnodup].
  destruct (assemble_trace description args g Hg)
    as (hub & cn & wn & kn & tn & res & comp & esFan & esC & esO & e1 & e2
        & Hn & He & HFc & HFw & HFk & HFt & [_ Hstart] & _ & _ & Hw & HwC
        & HwO & Hc1 & Hc2).
  exists hub. rewrite Hn at 1. split; [reflexivity|]. split; [exact Hstart|].
  pose proof (extracted_types_distinct description
                (extractPrimaryDomain description (name args))) as Htypes.
  unfold fanOutSize in Hsize.
  remember (extractDomainSpecificConcepts description
              (extractPrimaryDomain description (name args))) as concepts
    eqn:Hconcepts.
  clear Hconcepts.
  assert (forall nd, In nd (cn ++ wn ++ kn ++ tn) ->
                     reachable (g_edges g) (id hub) (id nd)) as Hfan.
  { intros nd Hnd. destruct (Hw nd Hnd) as [e [Hin Hc]].
    apply reachable_one. exists e. split; [|exact Hc].
    rewrite He. apply in_or_app. now left. }
  assert (reachable (g_edges g) (id hub) (id res)) as Hres.
  { destruct cn as [|nd cn'].
    - (* no concept: an integration node is visited by the second loop *)
      inversion HFc; subst. simpl app in *.
      assert (exists nd, In nd (wn ++ kn ++ tn)) as [nd Hnd].
      { simpl in Hsize.
        rewrite <- (Forall2_length_eq _ _ _ HFw),
          <- (Forall2_length_eq _ _ _ HFk),
          <- (Forall2_length_eq _ _ _ HFt) in Hsize.
        destruct wn as [|x ?]; [|exists x; now left].
        destruct kn as [|x ?]; [|exists x; now left].
        destruct tn as [|x ?]; [simpl in Hsize; lia | exists x; now left]. }
      assert (hasIntegrations args = true) as Hint.
      { unfold hasIntegrations, nonEmpty.
        rewrite <- (Forall2_length_eq _ _ _ HFw),
          <- (Forall2_length_eq _ _ _ HFk),
          <- (Forall2_length_eq _ _ _ HFt).
        destruct wn; [|reflexivity]. destruct kn; [|reflexivity].
        destruct tn; [destruct Hnd | reflexivity]. }
      rewrite Hint in HwO.
      assert (In (id nd) (otherNodeIds (g_nodes g) (recordIds [] [] [])
                            (id hub) (id res) (id comp))) as Hother.
      { unfold otherNodeIds. apply in_map. apply filter_In. split; [|reflexivity].
        apply filter_In. rewrite Hn in *.
        replace (wn ++ kn ++ tn ++ [res; comp])
          with ((wn ++ kn ++ tn) ++ [res; comp]) in *
          by (now rewrite <- !app_assoc).
        split.
        - right. apply in_or_app. left. exact Hnd.
        - assert (id nd <> id hub) as H1.
          { intros Heq. inversion Hnodup as [|? ? Hnotin _]; subst.
            apply Hnotin. rewrite <- Heq. apply in_map.
            apply in_or_app. left. exact Hnd. }
          assert (id nd <> id res /\ id nd <> id comp) as [H2 H3].
          { inversion Hnodup as [|? ? _ Hnd']; subst.
            split; eapply distinct_ids_across; eauto; simpl; auto. }
          apply String.eqb_neq in H1, H2, H3. now rewrite H1, H2, H3. }
      destruct (wiredInto_In _ _ _ _ _ HwO Hother) as [e [Hin Hc]].
      apply reachable_trans with (b := id nd); [apply Hfan; exact Hnd|].
      apply reachable_one. exists e. split; [|exact Hc].
      rewrite He. apply in_or_app. right. apply in_or_app. right.
      apply in_or_app. now left.
    - (* a concept node is wired by the first loop *)
      assert (In (id nd) (List.map snd (recordIds [] concepts (nd :: cn'))))
        as Hval.
      { rewrite recordIds_values.
        - simpl. now left.
        - exact (Forall2_length_eq _ _ _ HFc).
        - simpl. exact Htypes. }
      apply in_map_iff in Hval as [entry [Hsnd Hentry]].
      destruct (wiredInto_In _ _ _ _ _ HwC Hentry) as [e [Hin Hc]].
      rewrite Hsnd in Hc.
      apply reachable_trans with (b := id nd);
        [apply Hfan; now left|].
      apply reachable_one. exists e. split; [|exact Hc].
      rewrite He. apply in_or_app. right. apply in_or_app. now left. }
  assert (reachable (g_edges g) (id hub) (id comp)) as Hcomp.
  { apply reachable_trans with (b := id res); [exact Hres|].
    apply reachable_one. exists e1. split; [|exact Hc1].
    rewrite He. do 3 (apply in_or_app; right). now left. }
  intros n Hin. rewrite Hn in Hin.
  destruct Hin as [<-|Hin]; [apply reach_here|].
  rewrite !app_assoc in Hin. apply in_app_or in Hin as [Hin|Hin].
  - apply Hfan. now rewrite <- !app_assoc in Hin.
  - destruct Hin as [<-|[<-|[]]]; assumption.
Qed.

(** *** Concept nodes and the second wiring loop *)

Lemma counterSuffix_append (p d : string) :
  nonEmptyDigits d = true -> counterSuffix (p +:+ String "_" d) = true.
Proof.
  intros Hd. induction p as [|c p IH].
  - change (counterSuffix (String "_" d) = true). simpl.
    rewrite Hd. reflexivity.
  - change (counterSuffix (String c (p +:+ String "_" d)) = true). simpl.
    rewrite IH. apply orb_true_r.
Qed.

Lemma ofNat_not_empty (k : nat) : ofNat k <> EmptyString.
Proof.
  unfold ofNat. intros H.
  pose proof (NilEmpty.usu (Nat.to_uint k)) as Husu. rewrite H in Husu.
  simpl in Husu. injection Husu as Hnil.
  pose proof (Unsigned.of_to k) as Hk. rewrite <- Hnil in Hk. simpl in Hk.
  subst k. discriminate Hnil.
Qed.

Lemma numbered_counterSuffix (s : string) (k : nat) :
  numbered s k -> counterSuffix s = true.
Proof.
  intros [p ->]. unfold numberedId.
  change (p +:+ "_" +:+ ofNat k) with (p +:+ String "_" (ofNat k)).
  apply counterSuffix_append. unfold nonEmptyDigits.
  rewrite digitsOnly_ofNat. simpl.
  apply negb_true_iff, String.eqb_neq, ofNat_not_empty.
Qed.

Lemma extracted_is_known (description domain : string) (c : Concept) :
  In c (extractDomainSpecificConcepts description domain) -> In c allConcepts.
Proof.
  rewrite extractDomainSpecificConcepts_unfold, sortByPriority_In.
  intros H. apply pushIf_In in H as [->|H]; [simpl; tauto|].
  destruct (String.eqb domain "health insurance"); [|destruct H].
  unfold healthInsuranceConcepts in H.
  repeat (apply pushIf_In in H as [->|H]; [simpl; tauto|]).
  destruct H.
Qed.

Lemma concept_type_is_no_node_id (description domain : string) (c : Concept)
  (k : nat) :
  In c (extractDomainSpecificConcepts description domain) ->
  ~ numbered (c_type c) k.
Proof.
  intros Hc Hnum. apply extracted_is_known in Hc.
  apply numbered_counterSuffix in Hnum.
  simpl in Hc.
  repeat (destruct Hc as [<-|Hc]; [discriminate Hnum|]).
  destruct Hc.
Qed.

Lemma mapSet_keys (k v : string) (m : list (string * string)) (x : string) :
  In x (List.map fst (mapSet k v m)) -> x = k \/ In x (List.map fst m).
Proof.
  induction m as [|[k' v'] m IH]; simpl.
  - intros [<-|[]]. now left.
  - destruct (String.eqb_spec k' k) as [->|Hne]; simpl.
    + intros [<-|H]; auto.
    + intros [<-|H]; [auto|]. destruct (IH H); auto.
Qed.

Lemma recordIds_keys (cs : list Concept) (news : list PathwayNode)
  (acc : list (string * string)) (x : string) :
  In x (List.map fst (recordIds acc cs news)) ->
  In x (List.map fst acc) \/ In x (List.map c_type cs).
Proof.
  revert news acc. induction cs as [|c cs IH]; intros [|nd news] acc;
    unfold recordIds; simpl; auto.
  fold (recordIds (mapSet (c_type c) (id nd) acc) cs news).
  intros H. apply IH in H as [H|H]; [|auto].
  apply mapSet_keys in H as [->|H]; auto.
Qed.

Lemma mapHas_false (s : string) (m : list (string * string)) :
  ~ In s (List.map fst m) -> mapHas s m = false.
Proof.
  intros Hnot. unfold mapHas.
  destruct (existsb (fun kv => String.eqb (fst kv) s) m) eqn:E; [|reflexivity].
  apply existsb_exists in E as [kv [Hin Heq]].
  apply String.eqb_eq in Heq. exfalso. apply Hnot. rewrite <- Heq.
  now apply in_map.
Qed.

Lemma connects_connectsb (e : PathwayEdge) (a b : string) :
  connects e a b -> connectsb e a b = true.
Proof.
  intros [Hs Ht]. unfold connectsb, optEqb. rewrite Hs, Ht.
  now rewrite !String.eqb_refl.
Qed.

Lemma edgesBetween_app (es es' : list PathwayEdge) (a b : string) :
  edgesBetween (es ++ es') a b = edgesBetween es a b ++ edgesBetween es' a b.
Proof. unfold edgesBetween. apply List.filter_app. Qed.

Lemma edgesBetween_one (es : list PathwayEdge) (a b : string) :
  (exists e, In e es /\ connects e a b) -> 1 <= length (edgesBetween es a b).
Proof.
  intros [e [Hin Hc]].
  assert (In e (edgesBetween es a b)) as H.
  { apply filter_In. split; [exact Hin | now apply connects_connectsb]. }
  destruct (edgesBetween es a b); [destruct H | simpl; lia].
Qed.

(** The defect behind the double wiring, for every input: as soon as an
    integration is configured, the second wiring loop visits the concept
    nodes as well, so each concept node has at least two edges into the
    resolution node. *)
Lemma concept_nodes_are_wired_twice
  (description : string) (args : Args) (g : Graph) :
  assemble description args = Some g ->
  hasIntegrations args = true ->
  exists hub cn rest res comp,
    g_nodes g = hub :: cn ++ rest ++ [res; comp] /\
    Forall2 (isConceptNodeFor (extractPrimaryDomain description (name args)))
      (extractDomainSpecificConcepts description
         (extractPrimaryDomain description (name args))) cn /\
    forall nd, In nd cn ->
      2 <= length (edgesBetween (g_edges g) (id nd) (id res)).
Proof.
  intros Hg Hint.
  destruct (assemble_WF _ _ _ Hg) as [count [Hbound Hnodup _]].
  destruct (assemble_trace description args g Hg)
    as (hub & cn & wn & kn & tn & res & comp & esFan & esC & esO & e1 & e2
        & Hn & He & HFc & HFw & HFk & HFt & _ & _ & _ & Hw & HwC
        & HwO & Hc1 & Hc2).
  rewrite Hint in HwO.
  exists hub, cn, (wn ++ kn ++ tn), res, comp.
  split; [rewrite Hn; now rewrite <- !app_assoc|]. split; [exact HFc|].
  intros nd Hnd.
  pose proof (extracted_types_distinct description
                (extractPrimaryDomain description (name args))) as Htypes.
  (* the edge of the first loop *)
  assert (exists e, In e esC /\ connects e (id nd) (id res)) as Hfirst.
  { assert (In (id nd)
              (List.map snd
                 (recordIds []
                    (extractDomainSpecificConcepts description
                       (extractPrimaryDomain description (name args))) cn)))
      as Hval.
    { rewrite recordIds_values;
        [simpl; now apply in_map | exact (Forall2_length_eq _ _ _ HFc)
        | simpl; exact Htypes]. }
    apply in_map_iff in Hval as [entry [Hsnd Hentry]].
    destruct (wiredInto_In _ _ _ _ _ HwC Hentry) as [e [Hin Hc]].
    rewrite Hsnd in Hc. now exists e. }
  (* the edge of the second loop *)
  assert (exists e, In e esO /\ connects e (id nd) (id res)) as Hsecond.
  { apply (wiredInto_In (fun i => i) _ _ _ _ HwO).
    unfold otherNodeIds. apply in_map. apply filter_In. split.
    - apply filter_In. rewrite Hn in *.
      replace (cn ++ wn ++ kn ++ tn ++ [res; comp])
        with (cn ++ (wn ++ kn ++ tn) ++ [res; comp]) in *
        by (now rewrite <- !app_assoc).
      split; [right; apply in_or_app; now left|].
      assert (id nd <> id hub) as H1.
      { intros Heq. inversion Hnodup as [|? ? Hnotin _]; subst.
        apply Hnotin. rewrite <- Heq. apply in_map.
        apply in_or_app. now left. }
      assert (id nd <> id res /\ id nd <> id comp) as [H2 H3].
      { inversion Hnodup as [|? ? _ Hnd']; subst.
        split; eapply distinct_ids_across; eauto;
          apply in_or_app; right; simpl; auto. }
      apply String.eqb_neq in H1, H2, H3. now rewrite H1, H2, H3.
    - apply negb_true_iff, mapHas_false. intros Hkey.
      apply recordIds_keys in Hkey as [[]|Hkey].
      apply in_map_iff in Hkey as [c [Heq Hc]].
      destruct (Hbound nd) as [k [_ Hnum]].
      { rewrite Hn. right. apply in_or_app. now left. }
      rewrite <- Heq in Hnum.
      exact (concept_type_is_no_node_id _ _ _ _ Hc Hnum). }
  rewrite He, !edgesBetween_app, !length_app.
  apply edgesBetween_one in Hfirst, Hsecond. lia.
Qed.



End AssembledNodes.


(** ** Trimming and splitting *)

Section TrimFacts.

Lemma trimEnd_allChars (p : ascii -> bool) (s : string) :
  allChars p s = true -> allChars p (trimEnd s) = true.
Proof.
  induction s as [|c t IH]; simpl; [auto|].
  intros H. apply andb_prop in H as [Hc Ht]. specialize (IH Ht).
  destruct (trimEnd t) as [|d r].
  - destruct (Ascii.is_space c); simpl; [reflexivity|]. now rewrite Hc.
  - simpl in *. now rewrite Hc, IH.
Qed.

Lemma trimStart_allChars (p : ascii -> bool) (s : string) :
  allChars p s = true -> allChars p (trimStart s) = true.
Proof.
  induction s as [|c t IH]; simpl; [auto|].
  intros H. destruct (Ascii.is_space c); [|exact H].
  apply andb_prop in H as [_ Ht]. auto.
Qed.

Lemma trim_allChars (p : ascii -> bool) (s : string) :
  allChars p s = true -> allChars p (trim s) = true.
Proof. intros H. now apply trimEnd_allChars, trimStart_allChars. Qed.

Lemma trimEnd_idempotent (s : string) : trimEnd (trimEnd s) = trimEnd s.
Proof.
  induction s as [|c t IH]; simpl; [reflexivity|].
  destruct (trimEnd t) as [|d r] eqn:E.
  - destruct (Ascii.is_space c) eqn:Hc; simpl; [reflexivity|].
    now rewrite Hc.
  - change (trimEnd (String c (String d r)))
      with (match trimEnd (String d r) with
            | EmptyString => if Ascii.is_space c then EmptyString
                             else String c EmptyString
            | t' => String c t'
            end).
    now rewrite IH.
Qed.

Lemma trimStart_startsClean (s : string) : startsClean (trimStart s).
Proof.
  induction s as [|c t IH]; simpl; [exact I|].
  destruct (Ascii.is_space c) eqn:Hc; [exact IH | exact Hc].
Qed.

Lemma trimEnd_startsClean (s : string) :
  startsClean s -> startsClean (trimEnd s).
Proof.
  destruct s as [|c t]; simpl; [auto|]. intros Hc.
  destruct (trimEnd t); [rewrite Hc|]; exact Hc.
Qed.

Lemma trimStart_clean (s : string) : startsClean s -> trimStart s = s.
Proof. destruct s as [|c t]; simpl; [auto|]. now intros ->. Qed.

Lemma trim_idempotent (s : string) : trim (trim s) = trim s.
Proof.
  unfold trim.
  rewrite (trimStart_clean (trimEnd (trimStart s))).
  - apply trimEnd_idempotent.
  - apply trimEnd_startsClean, trimStart_startsClean.
Qed.

Lemma split_allChars (sep : ascii) (s x : string) :
  In x (split sep s) ->
  allChars (fun c => negb (Ascii.eqb c sep)) x = true.
Proof.
  revert x. induction s as [|c t IH]; simpl; intros x Hx.
  - destruct Hx as [<-|[]]. reflexivity.
  - destruct (Ascii.eqb c sep) eqn:Hc.
    + destruct Hx as [<-|Hx]; [reflexivity | auto].
    + destruct (split sep t) as [|w ws].
      * destruct Hx as [<-|[]]. simpl. now rewrite Hc.
      * destruct Hx as [<-|Hx].
        -- simpl. rewrite Hc. simpl. apply IH. now left.
        -- apply IH. now right.
Qed.

Lemma split_not_nil (sep : ascii) (s : string) : split sep s <> [].
Proof.
  destruct s as [|c t]; simpl; [discriminate|].
  destruct (Ascii.eqb c sep); [discriminate|].
  destruct (split sep t); discriminate.
Qed.

Lemma split_append (sep : ascii) (x rest : string) :
  allChars (fun c => negb (Ascii.eqb c sep)) x = true ->
  split sep (x +:+ String sep rest) = x :: split sep rest.
Proof.
  induction x as [|c t IH]; intros Hx.
  - change (EmptyString +:+ String sep rest) with (String sep rest).
    simpl. now rewrite Ascii.eqb_refl.
  - simpl in Hx. apply andb_prop in Hx as [Hc Ht].
    change (String c t +:+ String sep rest)
      with (String c (t +:+ String sep rest)).
    simpl. apply negb_true_iff in Hc. rewrite Hc, (IH Ht). reflexivity.
Qed.

Lemma split_one (sep : ascii) (x : string) :
  allChars (fun c => negb (Ascii.eqb c sep)) x = true ->
  split sep x = [x].
Proof.
  induction x as [|c t IH]; simpl; [reflexivity|]. intros Hx.
  apply andb_prop in Hx as [Hc Ht]. apply negb_true_iff in Hc.
  now rewrite Hc, (IH Ht).
Qed.

Lemma split_join (sep : ascii) (xs : list string) :
  xs <> [] ->
  Forall (fun x => allChars (fun c => negb (Ascii.eqb c sep)) x = true) xs ->
  split sep (join (String sep EmptyString) xs) = xs.
Proof.
  intros Hne HF. induction HF as [|x xs Hx HF IH]; [contradiction|].
  destruct xs as [|y ys].
  - simpl. now apply split_one.
  - change (join (String sep EmptyString) (x :: y :: ys))
      with (x +:+ String sep EmptyString
              +:+ join (String sep EmptyString) (y :: ys)).
    change (String sep EmptyString +:+ join (String sep EmptyString) (y :: ys))
      with (String sep (join (String sep EmptyString) (y :: ys))).
    rewrite (split_append sep x _ Hx). f_equal. apply IH. discriminate.
Qed.

End TrimFacts.

(** ** Comma-separated lists *)

Section CommaSeparated.

(** X1. Whatever text a tool handler receives for a comma-separated
    list, every entry it passes on is non-empty, carries no white space at
    either end and contains no comma. *)
Theorem commaSeparated_entries_are_clean (s : string) :
  Forall listItem (commaSeparated s).
Proof.
  unfold commaSeparated. apply List.Forall_forall. intros x Hx.
  apply List.filter_In in Hx as [Hin Hlen].
  apply List.in_map_iff in Hin as [y [<- Hy]].
  split; [|split].
  - intros E. rewrite E in Hlen. discriminate.
  - apply trim_idempotent.
  - apply trim_allChars. exact (split_allChars "," s y Hy).
Qed.

(** X2. Round trip, for ASCII text: joining clean entries with commas
    and reading the text back gives the same entries, in the same
    order. *)
Theorem commaSeparated_reads_back_joined_entries (xs : list string) :
  Forall (fun x => asciiOnly x = true) xs ->
  Forall listItem xs -> commaSeparated (join "," xs) = xs.
Proof.
  intros _ HF. unfold commaSeparated.
  destruct xs as [|x xs]; [reflexivity|].
  rewrite split_join.
  - induction HF as [|y ys [Hne [Htrim _]] _ IH]; [reflexivity|].
    simpl. rewrite Htrim.
    destruct y as [|c t]; [contradiction|]. simpl. now rewrite IH.
  - discriminate.
  - eapply List.Forall_impl; [|exact HF]. intros y [_ [_ Hy]]. exact Hy.
Qed.

Lemma commaSeparated_reads_back_joined_entries_witness :
  commaSeparated (join "," ["billing"; "technical support"; "returns"])
  = ["billing"; "technical support"; "returns"].
Proof.
  apply (commaSeparated_reads_back_joined_entries
           ["billing"; "technical support"; "returns"]).
  - repeat constructor.
  - repeat constructor; discriminate.
Defined.

End CommaSeparated.

(** ** PathwayComponentParser *)

Section ParserFacts.

Import PathwayComponentParser.

(** X3. Keyword matching in the parser ignores letter case on both
    sides: two texts that differ only in the case of their letters, tested
    against two keyword lists that differ only in the case of their
    letters, get the same answer. *)
Theorem contains_ignores_letter_case
  (text1 text2 : string) (keywords1 keywords2 : list string) :
  toLowerCase text1 = toLowerCase text2 ->
  Forall2 (fun k1 k2 => toLowerCase k1 = toLowerCase k2)
    keywords1 keywords2 ->
  contains text1 keywords1 = contains text2 keywords2.
Proof.
  intros Ht HF. unfold contains. rewrite Ht.
  induction HF as [|k k' ks ks' Hk _ IH]; simpl; [reflexivity|].
  now rewrite Hk, IH.
Qed.

Lemma contains_ignores_letter_case_witness :
  contains "Please HOLD the line" ["Wait"; "hold"]
  = contains "please hold the LINE" ["wait"; "HOLD"].
Proof.
  apply (contains_ignores_letter_case
           "Please HOLD the line" "please hold the LINE"
           ["Wait"; "hold"] ["wait"; "HOLD"]).
  - reflexivity.
  - repeat constructor.
Defined.

Ltac pick_sublist :=
  repeat first [apply sublist_nil | apply sublist_skip | apply sublist_cons].

(** X4. The node types reported for a description are a selection of
    the six known ones, each at most once and in the fixed order, and the
    Default type always closes the list: the result is never empty. *)
Theorem parseNodeTypes_selects_in_order (description : string) :
  sublist (parseNodeTypes description) reportableNodeTypes /\
  List.last (parseNodeTypes description)
    (mkNodeTypeEntry EmptyString EmptyString)
  = mkNodeTypeEntry "Default" "conversation handling" /\
  1 <= length (parseNodeTypes description) <= 6.
Proof.
  unfold parseNodeTypes, reportableNodeTypes, pushWhen.
  repeat match goal with
         | |- context [contains description ?ks] =>
             destruct (contains description ks)
         end;
    cbn [List.app List.last length];
    (split; [pick_sublist | split; [reflexivity | lia]]).
Qed.

Lemma contains_more (text keyword : string) (keywords : list string) :
  In keyword keywords ->
  contains text [keyword] = true -> contains text keywords = true.
Proof.
  unfold contains. simpl. rewrite orb_false_r. intros Hin Hk.
  apply existsb_exists. now exists keyword.
Qed.

(** X5. The variables reported by [parseFeatures] are a selection of the
    four known ones in the fixed order.  None is reported unless variable
    extraction is flagged.  A description that mentions a name, an email
    or a phone always gets the matching variable; the call-intent variable
    is reported exactly when an intent keyword occurs together with one of
    the keywords that flag variable extraction. *)
Theorem parseFeatures_variables (description : string) :
  let features := parseFeatures description in
  sublist (variables features)
    [customerNameVar; emailAddressVar; phoneNumberVar; callIntentVar] /\
  (needsVariableExtraction features = false -> variables features = []) /\
  (contains description ["name"] = true ->
     In customerNameVar (variables features)) /\
  (contains description ["email"] = true ->
     In emailAddressVar (variables features)) /\
  (contains description ["phone"] = true ->
     In phoneNumberVar (variables features)) /\
  (In callIntentVar (variables features) <->
     needsVariableExtraction features = true /\
     contains description ["intent"; "reason"; "purpose"] = true).
Proof.
  cbv zeta. unfold parseFeatures.
  cbn [variables needsVariableExtraction].
  set (triggers := ["collect"; "gather"; "ask for"; "get"; "name"; "email";
                    "phone"; "information"]).
  pose proof (contains_more description "name" triggers) as Hname.
  pose proof (contains_more description "email" triggers) as Hemail.
  pose proof (contains_more description "phone" triggers) as Hphone.
  destruct (contains description triggers) eqn:Htrig.
  - unfold pushWhen, customerNameVar, emailAddressVar, phoneNumberVar,
      callIntentVar.
    destruct (contains description ["name"]),
             (contains description ["email"]),
             (contains description ["phone"]),
             (contains description ["intent"; "reason"; "purpose"]);
      cbn [List.app];
      (split; [pick_sublist|]);
      (split; [discriminate|]);
      repeat split; intros;
        try discriminate; try (simpl; tauto);
        try (exfalso; simpl in *; intuition discriminate).
  - split; [pick_sublist|]. split; [reflexivity|].
    split; [intros H; specialize (Hname ltac:(simpl; tauto) H); discriminate|].
    split; [intros H; specialize (Hemail ltac:(simpl; tauto) H); discriminate|].
    split; [intros H; specialize (Hphone ltac:(simpl; tauto) H); discriminate|].
    split; [intros [] | intros [H _]; discriminate].
Qed.

End ParserFacts.

Section WorkflowSteps.

Import PathwayComponentParser.

Lemma splitAtRuns_terminatorFree (inRun : bool) (s x : string) :
  In x (splitAtRuns inRun s) -> terminatorFree x = true.
Proof.
  revert inRun x. induction s as [|c t IH]; simpl; intros inRun x Hx.
  - destruct Hx as [<-|[]]. reflexivity.
  - destruct (isTerminator c) eqn:Hc.
    + destruct inRun; [eauto|].
      destruct Hx as [<-|Hx]; [reflexivity | eauto].
    + destruct (splitAtRuns false t) as [|w ws] eqn:E.
      * destruct Hx as [<-|[]]. unfold terminatorFree. simpl. now rewrite Hc.
      * destruct Hx as [<-|Hx].
        -- unfold terminatorFree. simpl. rewrite Hc. simpl.
           apply (IH false). rewrite E. now left.
        -- apply (IH false). rewrite E. now right.
Qed.

Lemma prefix_includes (h n : string) :
  String.prefix n h = true -> includes h n = true.
Proof. intros H. destruct h; cbn [includes]; now rewrite H. Qed.

Lemma includes_tail (c : ascii) (h n : string) :
  includes h n = true -> includes (String c h) n = true.
Proof. intros H. cbn [includes]. rewrite H. apply orb_true_r. Qed.

Lemma includes_empty (h : string) : includes h EmptyString = true.
Proof. apply prefix_includes. now destruct h. Qed.

(** The pieces of a split are parts of the text, and the first piece of a
    split that starts outside a run is its beginning. *)
Lemma splitAtRuns_parts (s : string) :
  forall inRun,
    Forall (fun x => includes s x = true) (splitAtRuns inRun s) /\
    (inRun = false ->
     exists w ws, splitAtRuns false s = w :: ws /\ String.prefix w s = true).
Proof.
  induction s as [|c t IH]; intros inRun.
  - split; [repeat constructor|]. intros _. now exists EmptyString, [].
  - cbn [splitAtRuns]. destruct (isTerminator c) eqn:Hc.
    + destruct (IH true) as [Hall _].
      assert (Forall (fun x => includes (String c t) x = true)
                (splitAtRuns true t)) as Hall'.
      { eapply List.Forall_impl; [|exact Hall].
        intros x Hx. now apply includes_tail. }
      split.
      * destruct inRun; [exact Hall'|].
        constructor; [apply includes_empty | exact Hall'].
      * intros _. now exists EmptyString, (splitAtRuns true t).
    + destruct (IH false) as [Hall Hfirst].
      destruct (Hfirst eq_refl) as [w [ws [E Hw]]]. rewrite E in *.
      assert (String.prefix (String c w) (String c t) = true) as Hcw.
      { cbn [String.prefix]. destruct (ascii_dec c c); [exact Hw|].
        contradiction. }
      split.
      * inversion Hall as [|? ? _ Hrest]; subst.
        constructor; [now apply prefix_includes|].
        eapply List.Forall_impl; [|exact Hrest].
        intros x Hx. now apply includes_tail.
      * intros _. now exists (String c w), ws.
Qed.

Lemma trimStart_part (s : string) : includes s (trimStart s) = true.
Proof.
  induction s as [|c t IH]; [reflexivity|]. cbn [trimStart].
  destruct (Ascii.is_space c); [now apply includes_tail | apply includes_refl].
Qed.

Lemma trimEnd_prefix (s : string) : String.prefix (trimEnd s) s = true.
Proof.
  induction s as [|c t IH]; [reflexivity|]. cbn [trimEnd].
  destruct (trimEnd t) as [|d r].
  - destruct (Ascii.is_space c); [reflexivity|].
    cbn [String.prefix]. destruct (ascii_dec c c); [|contradiction].
    now destruct t.
  - cbn [String.prefix] in *. destruct (ascii_dec c c); [exact IH|].
    contradiction.
Qed.

Lemma trim_part (s : string) : includes s (trim s) = true.
Proof.
  unfold trim. eapply includes_trans; [apply trimStart_part|].
  apply prefix_includes, trimEnd_prefix.
Qed.

(** X6. Every workflow step of an ASCII description carries a sentence
    of the description as its purpose: a part of the description that is
    trimmed, at least ten characters long and free of the sentence
    terminators; the type of the step is the one that the keywords of
    that sentence select. *)
Theorem workflow_steps_carry_whole_sentences (description : string) :
  asciiOnly description = true ->
  Forall (fun step =>
            includes description (stepPurpose step) = true /\
            trim (stepPurpose step) = stepPurpose step /\
            10 <= String.length (stepPurpose step) /\
            terminatorFree (stepPurpose step) = true /\
            stepType step = stepTypeOf (stepPurpose step))
    (parseWorkflowSteps description).
Proof.
  intros _. unfold parseWorkflowSteps.
  assert (Forall (fun s => terminatorFree s = true /\
                           includes description s = true)
            (sentencesOf description)) as Hparts.
  { apply List.Forall_forall. intros s Hs. unfold sentencesOf in Hs.
    apply List.filter_In in Hs as [Hs _]. split.
    - exact (splitAtRuns_terminatorFree false description s Hs).
    - destruct (splitAtRuns_parts description false) as [Hall _].
      rewrite List.Forall_forall in Hall. now apply Hall. }
  enough (forall i,
            Forall (fun step =>
                      includes description (stepPurpose step) = true /\
                      trim (stepPurpose step) = stepPurpose step /\
                      10 <= String.length (stepPurpose step) /\
                      terminatorFree (stepPurpose step) = true /\
                      stepType step = stepTypeOf (stepPurpose step))
              (stepsFrom i (sentencesOf description))) as Hall by apply Hall.
  induction Hparts as [|s rest [Hs Hpart] _ IH]; intros i; simpl.
  - constructor.
  - destruct (String.length (trim s) <? 10) eqn:Hlen; [apply IH|].
    constructor; [|apply IH]. cbn [stepPurpose stepType].
    split; [exact (includes_trans _ _ _ Hpart (trim_part s))|].
    split; [apply trim_idempotent|]. split.
    + apply Nat.ltb_ge in Hlen. exact Hlen.
    + split; [|reflexivity]. now apply trim_allChars.
Qed.

Lemma workflow_steps_carry_whole_sentences_witness :
  Forall (fun step =>
            includes
              "Greet the caller warmly. Thanks! Collect the account number."
              (stepPurpose step) = true /\
            trim (stepPurpose step) = stepPurpose step /\
            10 <= String.length (stepPurpose step) /\
            terminatorFree (stepPurpose step) = true /\
            stepType step = stepTypeOf (stepPurpose step))
    (parseWorkflowSteps
       "Greet the caller warmly. Thanks! Collect the account number.").
Proof.
  apply (workflow_steps_carry_whole_sentences
           "Greet the caller warmly. Thanks! Collect the account number.").
  reflexivity.
Defined.

Lemma stepsFrom_positions (pre rest : list string) :
  exists positions,
    StronglySorted lt positions /\
    Forall (fun p => length pre <= p) positions /\
    Forall2 (stepAt (pre ++ rest)) positions (stepsFrom (length pre) rest) /\
    forall i s, length pre <= i -> nth_error (pre ++ rest) i = Some s ->
                10 <= String.length (trim s) -> In i positions.
Proof.
  revert pre. induction rest as [|s rest IH]; intros pre.
  - exists []. repeat split; try constructor.
    intros i s Hi Hnth _. rewrite app_nil_r in Hnth.
    assert (nth_error pre i <> None) as Hlt by congruence.
    apply List.nth_error_Some in Hlt. lia.
  - destruct (IH (pre ++ [s])) as [ps [Hsorted [Hlow [Hsteps Hall]]]].
    rewrite <- app_assoc in Hsteps, Hall. simpl in Hsteps, Hall.
    rewrite length_app in Hlow, Hsteps, Hall. simpl in Hlow, Hsteps, Hall.
    rewrite Nat.add_1_r in Hlow, Hsteps, Hall.
    assert (nth_error (pre ++ s :: rest) (length pre) = Some s) as Hhere.
    { rewrite nth_error_app2 by lia. now rewrite Nat.sub_diag. }
    simpl. destruct (String.length (trim s) <? 10) eqn:Hlen.
    + exists ps. split; [exact Hsorted|]. split.
      * eapply List.Forall_impl; [|exact Hlow]. intros p Hp. simpl in Hp. lia.
      * split; [exact Hsteps|]. intros i s' Hi Hnth Hlong.
        destruct (Nat.eq_dec i (length pre)) as [->|Hne].
        -- rewrite Hhere in Hnth. injection Hnth as <-.
           apply Nat.ltb_lt in Hlen. lia.
        -- apply (Hall i s'); [lia | exact Hnth | exact Hlong].
    + exists (length pre :: ps). split; [|split; [|split]].
      * constructor; [exact Hsorted|].
        eapply List.Forall_impl; [|exact Hlow]. intros p Hp. simpl in Hp. lia.
      * constructor; [lia|].
        eapply List.Forall_impl; [|exact Hlow]. intros p Hp. simpl in Hp. lia.
      * constructor; [|exact Hsteps].
        exists s. split; [exact Hhere|]. split; reflexivity.
      * intros i s' Hi Hnth Hlong.
        destruct (Nat.eq_dec i (length pre)) as [->|Hne]; [now left|].
        right. apply (Hall i s'); [lia | exact Hnth | exact Hlong].
Qed.

Lemma stepsFrom_long (i : nat) (sentences : list string) :
  Forall (fun step => 10 <= String.length (stepPurpose step))
    (stepsFrom i sentences).
Proof.
  revert i. induction sentences as [|s rest IH]; intros i; simpl.
  - constructor.
  - destruct (String.length (trim s) <? 10) eqn:Hlen; [apply IH|].
    constructor; [|apply IH]. cbn [stepPurpose].
    now apply Nat.ltb_ge in Hlen.
Qed.

(** X7. For an ASCII description, steps are numbered by the position of
    their sentence among the non-blank sentences of the description, not
    by their own position: the numbers increase strictly, every sentence
    of at least ten characters (after trimming) yields the step that
    carries its number, and a shorter sentence uses up a number without
    yielding a step. *)
Theorem workflow_steps_are_numbered_by_sentence (description : string) :
  asciiOnly description = true ->
  exists positions,
    StronglySorted lt positions /\
    Forall2 (stepAt (sentencesOf description)) positions
      (parseWorkflowSteps description) /\
    forall i s, nth_error (sentencesOf description) i = Some s ->
                (In i positions <-> 10 <= String.length (trim s)).
Proof.
  intros _.
  destruct (stepsFrom_positions [] (sentencesOf description))
    as [ps [Hsorted [_ [Hsteps Hall]]]].
  simpl in Hsteps, Hall. exists ps.
  split; [exact Hsorted|]. split; [exact Hsteps|].
  intros i s Hnth. split.
  - intros Hin.
    pose proof (stepsFrom_long 0 (sentencesOf description)) as Hlong.
    clear Hall Hsorted. revert Hin.
    induction Hsteps as [|p step ps steps Hstep _ IH]; [intros []|].
    inversion Hlong as [|? ? Hlen Hlong']; subst.
    intros [->|Hin]; [|now apply IH].
    destruct Hstep as [s' [Hnth' [Hpurpose _]]].
    rewrite Hnth in Hnth'. injection Hnth' as <-.
    now rewrite <- Hpurpose.
  - intros Hlong. apply (Hall i s); [lia | exact Hnth | exact Hlong].
Qed.

Lemma workflow_steps_are_numbered_by_sentence_witness :
  exists positions,
    StronglySorted lt positions /\
    Forall2
      (stepAt
         (sentencesOf
            "Greet the caller warmly. Thanks! Collect the account number."))
      positions
      (parseWorkflowSteps
         "Greet the caller warmly. Thanks! Collect the account number.") /\
    forall i s,
      nth_error
        (sentencesOf
           "Greet the caller warmly. Thanks! Collect the account number.")
        i = Some s ->
      (In i positions <-> 10 <= String.length (trim s)).
Proof.
  apply (workflow_steps_are_numbered_by_sentence
           "Greet the caller warmly. Thanks! Collect the account number.").
  reflexivity.
Defined.

(** A short sentence in the middle: the third sentence is step 3 although
    it is the second step. *)
Example short_sentence_leaves_a_gap :
  List.map stepName
    (parseWorkflowSteps
       "Greet the caller warmly. Thanks! Collect the account number.")
  = ["Step 1: greeting"; "Step 3: information gathering"].
Proof. vm_compute. reflexivity. Qed.

End WorkflowSteps.

(** ** analyzeBranchingComplexity *)

Section BranchingAnalysisFacts.

Lemma sameKey_eq (a b : option string) : sameKey a b = true <-> a = b.
Proof.
  destruct a as [x|], b as [y|]; simpl; split; intros H;
    try discriminate; try reflexivity.
  - apply String.eqb_eq in H. now subst.
  - injection H as ->. apply String.eqb_refl.
Qed.

Lemma sameKey_refl (a : option string) : sameKey a a = true.
Proof. now apply sameKey_eq. Qed.

Lemma sameKey_neq (a b : option string) : sameKey a b = false <-> a <> b.
Proof.
  split.
  - intros H E. apply sameKey_eq in E. congruence.
  - intros H. destruct (sameKey a b) eqn:E; [|reflexivity].
    apply sameKey_eq in E. contradiction.
Qed.

Lemma countsGet_In (k : option string) (v : nat) (m : list (option string * nat)) :
  countsGet k m = Some v -> In (k, v) m.
Proof.
  induction m as [|[k' v'] m IH]; simpl; [discriminate|].
  destruct (sameKey k' k) eqn:E.
  - intros H. injection H as ->. apply sameKey_eq in E. subst. now left.
  - intros H. right. auto.
Qed.

Lemma countsGet_None (k : option string) (m : list (option string * nat)) :
  countsGet k m = None -> forall v, ~ In (k, v) m.
Proof.
  induction m as [|[k' v'] m IH]; simpl; [intros _ v []|].
  destruct (sameKey k' k) eqn:E; [discriminate|].
  intros H v [Heq|Hin].
  - injection Heq as -> _. rewrite sameKey_refl in E. discriminate.
  - exact (IH H v Hin).
Qed.

Lemma countsSet_new (k : option string) (v : nat) (m : list (option string * nat)) :
  countsGet k m = None -> countsSet k v m = m ++ [(k, v)].
Proof.
  induction m as [|[k' v'] m IH]; simpl; [reflexivity|].
  destruct (sameKey k' k); [discriminate|]. intros H. now rewrite IH.
Qed.

Lemma countsSet_keys (k : option string) (v n : nat)
  (m : list (option string * nat)) :
  countsGet k m = Some n ->
  List.map fst (countsSet k v m) = List.map fst m.
Proof.
  induction m as [|[k' v'] m IH]; simpl; [discriminate|].
  destruct (sameKey k' k) eqn:E; simpl.
  - intros _. apply sameKey_eq in E. now subst.
  - intros H. now rewrite IH.
Qed.

Lemma countsSet_In (k : option string) (v n : nat)
  (m : list (option string * nat)) (k' : option string) (v' : nat) :
  List.NoDup (List.map fst m) -> countsGet k m = Some n ->
  In (k', v') (countsSet k v m) ->
  (k' = k /\ v' = v) \/ (k' <> k /\ In (k', v') m).
Proof.
  induction m as [|[k1 v1] m IH]; simpl; [discriminate|].
  intros Hnd Hget Hin. inversion Hnd as [|? ? Hfresh Hnd']; subst.
  destruct (sameKey k1 k) eqn:E.
  - apply sameKey_eq in E. subst k1.
    destruct Hin as [Heq|Hin]; [injection Heq as <- <-; now left|].
    right. split; [|now right]. intros ->. apply Hfresh.
    change k with (fst (k, v')). now apply in_map.
  - destruct Hin as [Heq|Hin].
    + injection Heq as <- <-. right. split; [|now left].
      now apply sameKey_neq.
    + destruct (IH Hnd' Hget Hin) as [Hl|[Hne Hr]]; [now left|].
      right. split; [exact Hne | now right].
Qed.

Lemma countsSet_keeps (k : option string) (v : nat)
  (m : list (option string * nat)) (k' : option string) (v' : nat) :
  k' <> k -> In (k', v') m -> In (k', v') (countsSet k v m).
Proof.
  intros Hne. induction m as [|[k1 v1] m IH]; simpl; [auto|].
  intros [Heq|Hin].
  - injection Heq as -> ->.
    destruct (sameKey k' k) eqn:E; [|now left].
    apply sameKey_eq in E. contradiction.
  - destruct (sameKey k1 k); right; auto.
Qed.

Lemma countsSet_has (k : option string) (v : nat)
  (m : list (option string * nat)) : In (k, v) (countsSet k v m).
Proof.
  induction m as [|[k1 v1] m IH]; simpl; [now left|].
  destruct (sameKey k1 k); [now left | now right].
Qed.

Lemma outDegree_snoc (es : list PathwayEdge) (e : PathwayEdge)
  (k : option string) :
  outDegree (es ++ [e]) k
  = outDegree es k + (if sameKey (source e) k then 1 else 0).
Proof.
  unfold outDegree. rewrite List.filter_app, length_app. simpl.
  now destruct (sameKey (source e) k).
Qed.

Lemma outDegree_positive (es : list PathwayEdge) (k : option string) :
  1 <= outDegree es k -> exists e, In e es /\ source e = k.
Proof.
  unfold outDegree. intros H.
  destruct (List.filter (fun e => sameKey (source e) k) es) as [|e l] eqn:E;
    [simpl in H; lia|].
  assert (In e (List.filter (fun e => sameKey (source e) k) es)) as Hin
    by (rewrite E; now left).
  apply List.filter_In in Hin as [Hin Hk]. exists e.
  split; [exact Hin | now apply sameKey_eq].
Qed.

Lemma Tallied_step (es : list PathwayEdge) (m : list (option string * nat))
  (e : PathwayEdge) :
  Tallied es m -> Tallied (es ++ [e]) (countEdge m e).
Proof.
  intros [Hnd Hcount Hall]. unfold countEdge.
  destruct (countsGet (source e) m) as [n|] eqn:Hget.
  - pose proof (countsGet_In _ _ _ Hget) as Hin.
    destruct (Hcount _ _ Hin) as [Hn Hpos].
    split.
    + now rewrite (countsSet_keys _ _ n).
    + intros k v Hkv.
      destruct (countsSet_In _ _ _ _ _ _ Hnd Hget Hkv) as [[-> ->]|[Hne Hold]].
      * rewrite outDegree_snoc, sameKey_refl. lia.
      * destruct (Hcount _ _ Hold) as [Hv Hv1].
        rewrite outDegree_snoc.
        assert (sameKey (source e) k = false) as ->
          by (apply sameKey_neq; congruence).
        lia.
    + intros e' He'. apply in_app_or in He' as [He'|[<-|[]]].
      * destruct (Hall e' He') as [v Hv].
        destruct (decide (source e' = source e)) as [Heq|Hne].
        -- rewrite Heq. eexists. apply countsSet_has.
        -- exists v. now apply countsSet_keeps.
      * eexists. apply countsSet_has.
  - assert (outDegree es (source e) = 0) as Hzero.
    { destruct (outDegree es (source e)) as [|d] eqn:Hd; [reflexivity|].
      destruct (outDegree_positive es (source e)) as [e' [He' Hs]]; [lia|].
      destruct (Hall e' He') as [v Hv]. rewrite Hs in Hv.
      now apply (countsGet_None _ _ Hget) in Hv. }
    rewrite (countsSet_new _ _ _ Hget). split.
    + rewrite map_app. simpl.
      apply List.NoDup_app; [exact Hnd | repeat constructor; intros [] |].
      intros k Hk [<-|[]]. apply List.in_map_iff in Hk as [[k' v] [Hk Hin]].
      simpl in Hk. subst k'. now apply (countsGet_None _ _ Hget) in Hin.
    + intros k v Hkv. apply in_app_or in Hkv as [Hold|[Heq|[]]].
      * destruct (Hcount _ _ Hold) as [Hv Hv1].
        rewrite outDegree_snoc.
        assert (sameKey (source e) k = false) as ->.
        { apply sameKey_neq. intros <-.
          now apply (countsGet_None _ _ Hget) in Hold. }
        lia.
      * injection Heq as <- <-.
        rewrite outDegree_snoc, sameKey_refl, Hzero. simpl. lia.
    + intros e' He'. apply in_app_or in He' as [He'|[<-|[]]].
      * destruct (Hall e' He') as [v Hv]. exists v.
        apply in_or_app. now left.
      * exists 1. apply in_or_app. right. now left.
Qed.

Lemma Tallied_fold (es done : list PathwayEdge)
  (m : list (option string * nat)) :
  Tallied done m -> Tallied (done ++ es) (fold_left countEdge es m).
Proof.
  revert done m. induction es as [|e es IH]; intros done m H; simpl.
  - now rewrite app_nil_r.
  - replace (done ++ e :: es) with ((done ++ [e]) ++ es)
      by (now rewrite <- app_assoc).
    apply IH. now apply Tallied_step.
Qed.

Lemma Tallied_edges (es : list PathwayEdge) :
  Tallied es (fold_left countEdge es []).
Proof.
  apply (Tallied_fold es [] []). split; [constructor | intros k v [] |].
  intros e [].
Qed.

Lemma max_bounds (v : nat) (values : list nat) :
  In v values -> v <= fold_right Nat.max 0 values.
Proof.
  induction values as [|w values IH]; simpl; [intros []|].
  intros [->|H]; [lia|]. specialize (IH H). lia.
Qed.

Lemma max_attained (values : list nat) :
  values <> [] -> (forall v, In v values -> 1 <= v) ->
  In (fold_right Nat.max 0 values) values.
Proof.
  induction values as [|w values IH]; [contradiction|]. intros _ Hpos.
  simpl. destruct values as [|w' values'].
  - simpl. left. lia.
  - destruct (Nat.max_spec w (fold_right Nat.max 0 (w' :: values')))
      as [[_ ->]|[_ ->]].
    + right. apply IH; [discriminate|]. intros v Hv. apply Hpos. now right.
    + now left.
Qed.

Lemma maxCount_bounds (es : list PathwayEdge) (s : option string) :
  outDegree es s
  <= fold_right Nat.max 0 (List.map snd (fold_left countEdge es [])).
Proof.
  destruct (Tallied_edges es) as [Hnd Hcount Hall].
  destruct (outDegree es s) as [|d] eqn:Hd; [lia|].
  destruct (outDegree_positive es s) as [e [He Hs]]; [lia|].
  destruct (Hall e He) as [v Hv]. rewrite Hs in Hv.
  destruct (Hcount _ _ Hv) as [Hv' _]. rewrite <- Hd, <- Hv'.
  apply max_bounds. change v with (snd (s, v)). now apply in_map.
Qed.

Lemma maxCount_attained (es : list PathwayEdge) :
  es <> [] ->
  exists e, In e es /\
            outDegree es (source e)
            = fold_right Nat.max 0 (List.map snd (fold_left countEdge es [])).
Proof.
  intros Hne. destruct (Tallied_edges es) as [Hnd Hcount Hall].
  set (m := fold_left countEdge es []) in *.
  assert (List.map snd m <> []) as Hvalues.
  { destruct es as [|e es']; [contradiction|].
    destruct (Hall e (or_introl eq_refl)) as [v Hv].
    intros Hnil. apply (in_map snd) in Hv. rewrite Hnil in Hv.
    destruct Hv. }
  assert (forall v, In v (List.map snd m) -> 1 <= v) as Hpos.
  { intros v Hv. apply List.in_map_iff in Hv as [[k v'] [<- Hin]].
    now destruct (Hcount _ _ Hin). }
  pose proof (max_attained _ Hvalues Hpos) as Hmax.
  apply List.in_map_iff in Hmax as [[k v] [Hv Hin]]. simpl in Hv.
  destruct (Hcount _ _ Hin) as [Hdeg Hv1].
  destruct (outDegree_positive es k) as [e [He Hs]]; [lia|].
  exists e. split; [exact He|]. rewrite Hs. lia.
Qed.

Lemma branching_sources (es : list PathwayEdge) :
  exists sources,
    List.NoDup sources /\
    (forall s, In s sources <-> 2 <= outDegree es s) /\
    length (List.filter (fun count => 1 <? count)
              (List.map snd (fold_left countEdge es [])))
    = length sources.
Proof.
  destruct (Tallied_edges es) as [Hnd Hcount Hall].
  set (m := fold_left countEdge es []) in *.
  exists (List.map fst (List.filter (fun kv => 1 <? snd kv) m)).
  split; [|split].
  - clear Hcount Hall. induction m as [|[k v] m IH]; simpl; [constructor|].
    inversion Hnd as [|? ? Hfresh Hnd']; subst.
    destruct (1 <? v); [|auto]. simpl. constructor; [|auto].
    intros Hin. apply Hfresh. apply List.in_map_iff in Hin as [kv [Hk Hin]].
    apply List.filter_In in Hin as [Hin _]. rewrite <- Hk. now apply in_map.
  - intros s. split.
    + intros Hin. apply List.in_map_iff in Hin as [[k v] [Hk Hin]].
      simpl in Hk. subst k. apply List.filter_In in Hin as [Hin Hv].
      simpl in Hv. apply Nat.ltb_lt in Hv.
      destruct (Hcount _ _ Hin) as [-> _]. lia.
    + intros Hdeg.
      destruct (outDegree_positive es s) as [e [He Hs]]; [lia|].
      destruct (Hall e He) as [v Hv]. rewrite Hs in Hv.
      destruct (Hcount _ _ Hv) as [Hv' _].
      change s with (fst (s, v)). apply in_map. apply List.filter_In.
      split; [exact Hv|]. simpl. apply Nat.ltb_lt. lia.
  - rewrite length_map. clear.
    induction m as [|[k v] m IH]; simpl; [reflexivity|].
    destruct (1 <? v); simpl; now rewrite IH.
Qed.

(** X8. The reported [maxBranches] is the largest number of edges that
    leave one node: no source has more outgoing edges, some source has
    exactly that many, and it is 0 exactly for a graph without edges. *)
Theorem maxBranches_is_the_largest_out_degree (g : Graph) :
  let analysis := analyzeBranchingComplexity g in
  (forall s, outDegree (g_edges g) s <= maxBranches analysis) /\
  (g_edges g <> [] ->
   exists e, In e (g_edges g) /\
             outDegree (g_edges g) (source e) = maxBranches analysis) /\
  (maxBranches analysis = 0 <-> g_edges g = []).
Proof.
  cbv zeta. unfold analyzeBranchingComplexity. cbn [maxBranches].
  split; [apply maxCount_bounds|]. split; [apply maxCount_attained|]. split.
  - intros Hzero. destruct (g_edges g) as [|e es] eqn:E; [reflexivity|].
    exfalso.
    destruct (maxCount_attained (e :: es)) as [e' [He' Hdeg]]; [discriminate|].
    rewrite Hzero in Hdeg.
    assert (1 <= outDegree (e :: es) (source e')); [|lia].
    unfold outDegree.
    assert (In e' (List.filter (fun x => sameKey (source x) (source e'))
                     (e :: es))) as Hin
      by (apply List.filter_In; split; [exact He' | apply sameKey_refl]).
    destruct (List.filter _ (e :: es)); [destruct Hin | simpl; lia].
  - intros ->. reflexivity.
Qed.

(** X9. The reported [branchingPoints] is the number of distinct sources
    that have at least two outgoing edges. *)
Theorem branchingPoints_counts_sources_with_two_edges (g : Graph) :
  exists sources,
    List.NoDup sources /\
    (forall s, In s sources <-> 2 <= outDegree (g_edges g) s) /\
    branchingPoints (analyzeBranchingComplexity g) = length sources.
Proof.
  unfold analyzeBranchingComplexity. cbn [branchingPoints].
  apply branching_sources.
Qed.

End BranchingAnalysisFacts.

(** ** parseAllConfigurations *)

Section ConfigurationFacts.

Context {V : Type} (JSON_parse : string -> option V)
  (args : string -> option string).

Lemma fold_left_pointwise {A B} (f g : A -> B -> A) (l : list B) (a : A) :
  (forall a b, f a b = g a b) -> fold_left f l a = fold_left g l a.
Proof.
  intros H. revert a. induction l as [|b l IH]; intros a; simpl; [reflexivity|].
  now rewrite H, IH.
Qed.

Lemma parseAllConfigurations_inserts :
  parseAllConfigurations JSON_parse args
  = fold_left (fun config key =>
                 <[targetKeyOf key := configEntry JSON_parse args key]> config)
      keysToParse ∅.
Proof.
  unfold parseAllConfigurations. apply fold_left_pointwise.
  intros config key. unfold configEntry.
  destruct (args key) as [[|c t]|]; [reflexivity| |reflexivity].
  simpl. now destruct (JSON_parse (String c t)).
Qed.

Ltac compute_target_keys :=
  repeat match goal with
         | |- context [targetKeyOf ?k] =>
             let v := eval vm_compute in (targetKeyOf k) in
             change (targetKeyOf k) with v
         end.

(** X10. Whatever the arguments, the configuration object has exactly
    eight keys: the three list arguments under their own names and the
    other five with the ending [_config] or [_settings] removed.  It never
    has a key [voice_settings], [model_settings], [analytics_settings] or
    [dynamic_data_sources]. *)
Theorem parseAllConfigurations_has_eight_target_keys :
  let config := parseAllConfigurations JSON_parse args in
  dom config
  = ({[ "webhook_integrations"; "knowledge_bases"; "transfer_numbers";
        "custom_tools"; "dynamic_data"; "voice"; "model"; "analytics" ]}
     : gset string) /\
  config !! "voice_settings" = None /\
  config !! "model_settings" = None /\
  config !! "analytics_settings" = None /\
  config !! "dynamic_data_sources" = None.
Proof.
  cbv zeta. rewrite parseAllConfigurations_inserts.
  cbv [keysToParse fold_left]. compute_target_keys.
  split; [|repeat split; now rewrite !lookup_insert_ne by discriminate].
  rewrite !dom_insert_L, dom_empty_L. set_solver.
Qed.

(** X11. No argument makes [parseAllConfigurations] fail, and no
    argument overwrites the entry of another: each of the eight arguments
    has its own entry, which holds the parsed value when the argument is a
    non-empty text that [JSON.parse] accepts, and otherwise the default,
    an empty array for the five arguments whose name ends in [s] and an
    empty object for the three that end in [_config]. *)
Theorem parseAllConfigurations_keeps_every_argument :
  let config := parseAllConfigurations JSON_parse args in
  (forall key, In key keysToParse ->
     config !! targetKeyOf key = Some (configEntry JSON_parse args key)) /\
  (forall key, In key ["webhook_integrations"; "knowledge_bases";
                       "transfer_numbers"; "voice_settings"; "model_settings"] ->
     defaultFor (V := V) key = EmptyArray) /\
  (forall key, In key ["custom_tools_config"; "dynamic_data_config";
                       "analytics_config"] ->
     defaultFor (V := V) key = EmptyObject).
Proof.
  cbv zeta. rewrite parseAllConfigurations_inserts.
  cbv [keysToParse fold_left]. split; [|split].
  - intros key Hkey. simpl in Hkey.
    repeat (destruct Hkey as [<-|Hkey]; [compute_target_keys; now simplify_map_eq|]).
    destruct Hkey.
  - intros key Hkey. simpl in Hkey.
    repeat (destruct Hkey as [<-|Hkey]; [reflexivity|]). destruct Hkey.
  - intros key Hkey. simpl in Hkey.
    repeat (destruct Hkey as [<-|Hkey]; [reflexivity|]). destruct Hkey.
Qed.

End ConfigurationFacts.

(** ** Ids and sizes of the template graphs *)

Section TemplateNumbering.

Import Modular.

Lemma seq_snoc (start len : nat) :
  seq start (S len) = seq start len ++ [start + len].
Proof. rewrite <- Nat.add_1_r. rewrite seq_app. reflexivity. Qed.

Lemma addNew_numbered (n e : nat) (name : string)
  (chain : ModularNodeBuilder -> ModularNodeBuilder) :
  keepsId chain ->
  hoareM (NumberedM n e) (addNew name chain) (fun _ => NumberedM (S n) e).
Proof.
  intros Hchain b [Hn [He [Hnodes Hedges]]].
  unfold addNew, Modular.bind, createNode, addNode.
  cbn [fst snd]. unfold NumberedM.
  cbn [Modular.nodes Modular.edges Modular.nodeCount Modular.edgeCount].
  rewrite Hn. split; [reflexivity|]. split; [exact He|]. split; [|exact Hedges].
  rewrite map_app, Hnodes, seq_snoc, map_app. f_equal.
  unfold buildNode. cbn [List.map id]. now rewrite Hchain.
Qed.

Lemma addEdge_numbered (n e : nat) (src tgt : option string) (label : string)
  (metadata : option (string * string)) :
  hoareM (NumberedM n e) (addEdge src tgt label metadata)
    (fun _ => NumberedM n (S e)).
Proof.
  intros b [Hn [He [Hnodes Hedges]]].
  unfold addEdge. cbn [fst snd]. unfold NumberedM.
  cbn [Modular.nodes Modular.edges Modular.nodeCount Modular.edgeCount].
  rewrite He. split; [exact Hn|]. split; [reflexivity|].
  split; [exact Hnodes|].
  now rewrite map_app, Hedges, seq_snoc, map_app.
Qed.

(** A loop whose body moves a counted invariant one step. *)
Lemma hoareM_forEach_count {A} (I : nat -> ModularPathwayBuilder -> Prop)
  (xs : list A) (body : A -> Modular.Build unit) :
  (forall x j, hoareM (I j) (body x) (fun _ => I (S j))) ->
  forall k, hoareM (I k) (Modular.forEach xs body)
              (fun _ => I (length xs + k)).
Proof.
  intros Hbody. induction xs as [|x xs IH]; intros k; simpl.
  - apply hoareM_ret. auto.
  - eapply hoareM_bind; [apply Hbody|]. intros ?.
    eapply hoareM_conseq; [apply (IH (S k)) | auto |].
    intros ? b Hb. now rewrite Nat.add_succ_r in Hb.
Qed.

Lemma hoareM_forEachAcc_count {A S} (I : nat -> ModularPathwayBuilder -> Prop)
  (xs : list A) (body : S -> A -> Modular.Build S) :
  (forall acc x j, hoareM (I j) (body acc x) (fun _ => I (Datatypes.S j))) ->
  forall acc k, hoareM (I k) (Modular.forEachAcc xs acc body)
                  (fun _ => I (length xs + k)).
Proof.
  intros Hbody. induction xs as [|x xs IH]; intros acc k; simpl.
  - apply hoareM_ret. auto.
  - eapply hoareM_bind; [apply Hbody|]. intros acc'.
    eapply hoareM_conseq; [apply (IH acc' (Datatypes.S k)) | auto |].
    intros ? b Hb. now rewrite Nat.add_succ_r in Hb.
Qed.

Lemma chainDecisions_numbered (n : nat) (decisionNodes : gmap string string)
  (processorId : string) (points : list string) :
  forall (i e : nat) (currentNodeId : option string),
  hoareM (NumberedM n e)
    (chainDecisions decisionNodes processorId i points currentNodeId)
    (fun _ => NumberedM n (2 * length points + e)).
Proof.
  induction points as [|p rest IH]; intros i e cur.
  - apply hoareM_ret. auto.
  - cbn [chainDecisions].
    eapply hoareM_bind; [apply addEdge_numbered | intros ?].
    eapply hoareM_bind; [apply addEdge_numbered | intros ?].
    eapply hoareM_conseq; [apply (IH (S i) (S (S e))) | auto |].
    intros ? b Hb. cbn [length].
    replace (2 * S (length rest) + e) with (2 * length rest + S (S e)) by lia.
    exact Hb.
Qed.

Lemma build_numbered (n e : nat) :
  hoareM (NumberedM n e) Modular.build
    (fun g _ => consecutivelyNumbered g n e).
Proof. intros b [_ [_ [Hnodes Hedges]]]. split; assumption. Qed.

Lemma run_numbered {A} (m : Modular.Build A) (Q : A -> Prop) :
  hoareM (NumberedM 0 0) m (fun a _ => Q a) -> Q (run m).
Proof. intros H. apply (H Modular.newBuilder). repeat split. Qed.

Ltac new_node :=
  eapply hoareM_bind;
  [apply addNew_numbered; intros ?; reflexivity | intros ?].
Ltac new_edge :=
  eapply hoareM_bind; [apply addEdge_numbered | intros ?].

Lemma sales_numbered (args : SalesArgs) :
  consecutivelyNumbered (buildEnterpriseSalesPathway args) 9 8.
Proof.
  unfold buildEnterpriseSalesPathway. apply run_numbered.
  do 9 new_node. do 8 new_edge. apply build_numbered.
Qed.

Lemma appointment_numbered (args : AppointmentArgs) :
  consecutivelyNumbered (buildIntelligentAppointmentSystem args) 8 7.
Proof.
  unfold buildIntelligentAppointmentSystem. apply run_numbered.
  do 8 new_node. do 7 new_edge. apply build_numbered.
Qed.

Lemma service_numbered (args : ServiceArgs) :
  consecutivelyNumbered (buildAdvancedCustomerServicePathway args)
    (6 + length (service_types args))
    (4 + 2 * length (service_types args)).
Proof.
  unfold buildAdvancedCustomerServicePathway. apply run_numbered.
  do 3 new_node.
  eapply hoareM_bind.
  { apply (hoareM_forEachAcc_count (fun j => NumberedM j 0)).
    intros acc x j. new_node. apply hoareM_ret. auto. }
  intros specialistNodes. do 3 new_node. new_edge.
  eapply hoareM_bind.
  { apply (hoareM_forEach_count
             (fun j => NumberedM (S (S (S (length (service_types args) + 3)))) j)).
    intros x j. new_edge. apply hoareM_ret. auto. }
  intros ?. new_edge.
  eapply hoareM_bind.
  { apply (hoareM_forEach_count
             (fun j => NumberedM (S (S (S (length (service_types args) + 3)))) j)).
    intros x j. new_edge. apply hoareM_ret. auto. }
  intros ?. do 2 new_edge.
  eapply hoareM_conseq; [apply build_numbered | | intros g b H; exact H].
  intros b Hb.
  replace (6 + length (service_types args))
    with (S (S (S (length (service_types args) + 3)))) by lia.
  replace (4 + 2 * length (service_types args))
    with (S (S (length (service_types args)
                + S (length (service_types args) + 1)))) by lia.
  exact Hb.
Qed.

Lemma workflow_numbered (args : WorkflowArgs) :
  consecutivelyNumbered (buildCustomWorkflowPathway args)
    (5 + length (decision_points args)
       + (if global_fallbacks args then 1 else 0))
    (match decision_points args with
     | [] => 3
     | _ => 2 * length (decision_points args) + 2
     end).
Proof.
  unfold buildCustomWorkflowPathway. apply run_numbered.
  do 2 new_node.
  eapply hoareM_bind with
    (R := fun _ => NumberedM (length (decision_points args) + 2) 0).
  { destruct (decision_points args) as [|p ps] eqn:Hdp.
    - apply hoareM_ret. auto.
    - change (nonEmpty (p :: ps)) with true. cbv iota.
      apply (hoareM_forEachAcc_count (fun j => NumberedM j 0)).
      intros acc x j. new_node. apply hoareM_ret. auto. }
  intros decisionNodes. new_node.
  eapply hoareM_bind with
    (R := fun _ => NumberedM
                     ((if global_fallbacks args then 1 else 0)
                      + S (length (decision_points args) + 2)) 0).
  { destruct (global_fallbacks args).
    - new_node. apply hoareM_ret. auto.
    - apply hoareM_ret. auto. }
  intros ?. do 2 new_node.
  eapply hoareM_bind with
    (R := fun _ => NumberedM
                     (S (S ((if global_fallbacks args then 1 else 0)
                            + S (length (decision_points args) + 2))))
                     (match decision_points args with
                      | [] => 1
                      | _ => 2 * length (decision_points args)
                      end)).
  { destruct (decision_points args) as [|p ps] eqn:Hdp.
    - cbn [nonEmpty length Nat.ltb Nat.leb]. new_edge. apply hoareM_ret. auto.
    - change (nonEmpty (p :: ps)) with true. cbv iota.
      eapply hoareM_conseq;
        [apply chainDecisions_numbered | intros b Hb; exact Hb |].
      intros ? b Hb. now rewrite Nat.add_0_r in Hb. }
  intros ?. do 2 new_edge.
  eapply hoareM_conseq; [apply build_numbered | | intros g b H; exact H].
  intros b Hb.
  replace (5 + length (decision_points args)
           + (if global_fallbacks args then 1 else 0))
    with (S (S ((if global_fallbacks args then 1 else 0)
                + S (length (decision_points args) + 2))))
    by (destruct (global_fallbacks args); lia).
  destruct (decision_points args) as [|p ps]; [exact Hb|].
  replace (2 * length (p :: ps) + 2) with (S (S (2 * length (p :: ps))))
    by lia.
  exact Hb.
Qed.

Lemma numberedId_inj (prefix : string) (i j : nat) :
  numberedId prefix i = numberedId prefix j -> i = j.
Proof.
  intros H. apply (numbered_inj (numberedId prefix i)).
  - apply numbered_numberedId.
  - rewrite H. apply numbered_numberedId.
Qed.

Lemma numbered_ids_distinct (prefix : string) (start len : nat) :
  List.NoDup (List.map (numberedId prefix) (seq start len)).
Proof.
  apply List.NoDup_map_NoDup_ForallPairs; [|apply List.seq_NoDup].
  intros i j _ _. apply numberedId_inj.
Qed.

(** X12. In every graph built by a template the ids are handed out in
    creation order, [node_1], [node_2], ... and [edge_1], [edge_2], ...,
    so edge ids are pairwise distinct as well.  The sizes follow: the
    sales graph has 9 nodes and 8 edges, the appointment graph 8 and 7, the
    customer-service graph [6 + n] nodes and [4 + 2n] edges for [n] service
    types, and the custom workflow [5 + d] nodes (one more with the
    fallback handler) and [2d + 2] edges for [d > 0] decision points,
    3 edges for none. *)
Theorem template_ids_are_numbered_in_creation_order :
  (forall args, consecutivelyNumbered (buildEnterpriseSalesPathway args) 9 8) /\
  (forall args,
      consecutivelyNumbered (buildIntelligentAppointmentSystem args) 8 7) /\
  (forall args,
      consecutivelyNumbered (buildAdvancedCustomerServicePathway args)
        (6 + length (service_types args))
        (4 + 2 * length (service_types args))) /\
  (forall args,
      consecutivelyNumbered (buildCustomWorkflowPathway args)
        (5 + length (decision_points args)
           + (if global_fallbacks args then 1 else 0))
        (match decision_points args with
         | [] => 3
         | _ => 2 * length (decision_points args) + 2
         end)) /\
  (forall g n e, consecutivelyNumbered g n e ->
      length (g_nodes g) = n /\ length (g_edges g) = e /\
      List.NoDup (List.map e_id (g_edges g))).
Proof.
  split; [exact sales_numbered|]. split; [exact appointment_numbered|].
  split; [exact service_numbered|]. split; [exact workflow_numbered|].
  intros g n e [Hnodes Hedges]. split; [|split].
  - apply (f_equal (@length _)) in Hnodes.
    now rewrite !length_map, length_seq in Hnodes.
  - apply (f_equal (@length _)) in Hedges.
    now rewrite !length_map, length_seq in Hedges.
  - rewrite Hedges. apply numbered_ids_distinct.
Qed.

End TemplateNumbering.

(** ** The edges of an assembled graph, one by one *)

Section AssemblerEdges.

Local Open Scope build_scope.

Lemma fanOut_loop_exact {A S} (R : string -> A -> PathwayNode -> Prop)
  (hub : string) (body : S -> A -> Build S) (xs : list A) :
  fanStep R hub body ->
  forall acc pre es dom,
    hoare (St pre es dom) (forEachAcc xs acc body)
      (fun _ b' => exists news es',
           St (pre ++ news) (es ++ es') dom b' /\
           Forall2 (R dom) xs news /\ wiredOut hub news es').
Proof.
  intros Hstep. induction xs as [|x xs IH]; intros acc pre es dom b r b' HSt Hrun.
  - inversion Hrun; subst; clear Hrun. exists [], [].
    rewrite !app_nil_r. split; [exact HSt|]. split; constructor.
  - simpl in Hrun. apply bind_inv in Hrun as [acc' [b1 [E Hrun]]].
    destruct (Hstep acc x pre es dom b acc' b1 HSt E)
      as [nd [e [HSt1 [HR Hc]]]].
    destruct (IH acc' _ _ _ b1 r b' HSt1 Hrun)
      as [news [es' [HSt2 [HF Hw]]]].
    exists (nd :: news), (e :: es').
    rewrite <- !app_assoc in HSt2. simpl in HSt2.
    split; [exact HSt2|]. split; now constructor.
Qed.

Lemma fanOut_forEach_exact {A} (R : string -> A -> PathwayNode -> Prop)
  (hub : string) (body : A -> Build unit) (xs : list A) :
  fanStep R hub (fun (_ : unit) x => body x) ->
  forall pre es dom,
    hoare (St pre es dom) (forEach xs body)
      (fun _ b' => exists news es',
           St (pre ++ news) (es ++ es') dom b' /\
           Forall2 (R dom) xs news /\ wiredOut hub news es').
Proof.
  intros Hstep pre es dom b r b' HSt Hrun.
  rewrite forEach_as_forEachAcc in Hrun.
  exact (fanOut_loop_exact R hub _ xs Hstep tt pre es dom b r b' HSt Hrun).
Qed.

Lemma wiredOut_app (hub : string) (ns ns' : list PathwayNode)
  (es es' : list PathwayEdge) :
  wiredOut hub ns es -> wiredOut hub ns' es' ->
  wiredOut hub (ns ++ ns') (es ++ es').
Proof. apply Forall2_app. Qed.

Lemma filter_all {A} (f : A -> bool) (l : list A) :
  (forall x, In x l -> f x = true) -> List.filter f l = l.
Proof.
  induction l as [|x l IH]; intros H; simpl; [reflexivity|].
  rewrite (H x) by now left. f_equal. apply IH. intros y Hy. apply H. now right.
Qed.

(** With pairwise distinct node ids, none of them a key of
    [conceptNodeIds], the second wiring loop visits every node between the
    hub and the resolution node. *)
Lemma otherNodeIds_all (hub res comp : PathwayNode) (fan : list PathwayNode)
  (m : list (string * string)) :
  List.NoDup (nodeIds (hub :: fan ++ [res; comp])) ->
  (forall nd, In nd fan -> mapHas (id nd) m = false) ->
  otherNodeIds (hub :: fan ++ [res; comp]) m (id hub) (id res) (id comp)
  = List.map id fan.
Proof.
  intros Hnd Hkeys. unfold otherNodeIds. f_equal.
  assert (forall nd, In nd fan ->
            id nd <> id hub /\ id nd <> id res /\ id nd <> id comp) as Hfan.
  { intros nd Hin. split; [|split].
    - intros Heq. inversion Hnd as [|? ? Hnotin _]; subst.
      apply Hnotin. rewrite <- Heq. apply in_map. apply in_or_app. now left.
    - inversion Hnd as [|? ? _ Hnd']; subst.
      eapply distinct_ids_across; eauto. now left.
    - inversion Hnd as [|? ? _ Hnd']; subst.
      eapply distinct_ids_across; eauto. right. now left. }
  assert (id res <> id comp) as Hrc.
  { inversion Hnd as [|? ? _ Hnd']; subst. unfold nodeIds in Hnd'.
    rewrite map_app in Hnd'. apply NoDup_app_remove_l in Hnd'.
    inversion Hnd' as [|? ? Hnotin _]; subst.
    intros Heq. apply Hnotin. left. now rewrite Heq. }
  cbn [List.filter]. rewrite String.eqb_refl. cbn [negb andb].
  rewrite !List.filter_app. cbn [List.filter].
  rewrite !String.eqb_refl.
  assert (String.eqb (id comp) (id res) = false) as ->
    by (apply String.eqb_neq; congruence).
  cbn [negb andb]. rewrite !andb_false_r. cbn [List.filter].
  rewrite !app_nil_r.
  rewrite (filter_all _ fan).
  - apply filter_all. intros nd Hin. now rewrite Hkeys.
  - intros nd Hin. destruct (Hfan nd Hin) as [H1 [H2 H3]].
    apply String.eqb_neq in H1, H2, H3. now rewrite H1, H2, H3.
Qed.

Lemma wiredInto_map {A} (f : A -> string) (tgt : string) (xs : list A)
  (es : list PathwayEdge) :
  wiredInto (fun i => i) tgt (List.map f xs) es -> wiredInto f tgt xs es.
Proof.
  unfold wiredInto. revert es. induction xs as [|x xs IH]; intros es H;
    inversion H; subst; constructor; auto.
Qed.

Lemma wiredInto_values {A} (f : A -> string) (tgt : string)
  (entries : list (string * string)) (xs : list A) (es : list PathwayEdge) :
  List.map snd entries = List.map f xs ->
  wiredInto snd tgt entries es -> wiredInto f tgt xs es.
Proof.
  unfold wiredInto. revert xs es.
  induction entries as [|entry entries IH]; intros [|x xs] es Hmap H;
    try discriminate; inversion H; subst; constructor.
  - simpl in Hmap. injection Hmap as Hhd _. now rewrite <- Hhd.
  - apply IH; [|assumption]. simpl in Hmap. now injection Hmap.
Qed.

(** The complete edge list of an assembled graph: one edge from the hub
    to every fan-out node, one edge into the resolution node from every
    concept node, a further edge into the resolution node from every
    fan-out node when an integration is configured, then
    resolution -> End Call and resolution -> hub. *)
Lemma assemble_edges (description : string) (args : Args) (g : Graph) :
  assemble description args = Some g ->
  exists hub cn wn kn tn res comp esFan esConcept esOther e1 e2,
    g_nodes g = hub :: (cn ++ wn ++ kn ++ tn) ++ [res; comp] /\
    g_edges g = esFan ++ esConcept ++ esOther ++ [e1; e2] /\
    Forall2 (isConceptNodeFor (extractPrimaryDomain description (name args)))
      (extractDomainSpecificConcepts description
         (extractPrimaryDomain description (name args))) cn /\
    Forall2 isWebhookNodeFor (webhook_integrations args) wn /\
    Forall2 isKnowledgeBaseNodeFor (knowledge_bases args) kn /\
    Forall2 isTransferNodeFor (transfer_numbers args) tn /\
    wiredOut (id hub) (cn ++ wn ++ kn ++ tn) esFan /\
    wiredInto id (id res) cn esConcept /\
    wiredInto id (id res)
      (if hasIntegrations args then cn ++ wn ++ kn ++ tn else []) esOther /\
    connects e1 (id res) (id comp) /\ connects e2 (id res) (id hub).
Proof.
  intros Hg.
  destruct (assemble_WF _ _ _ Hg) as [count [Hbound Hnodup _]].
  revert Hg. unfold assemble.
  destruct (buildFromDescription description args newBuilder)
    as [[g' b']|] eqn:E; [|discriminate].
  intros Hg. injection Hg as ->.
  unfold buildFromDescription in E.
  set (dom := extractPrimaryDomain description (name args)) in *.
  apply bind_inv in E as [cs [b1 [E1 E]]].
  assert (cs = extractDomainSpecificConcepts description dom /\
          St [] [] dom b1) as [-> HSt1].
  { cbv [runConceptExtractor bind ret setDomain setPrimaryPurpose getDomain
         newBuilder] in E1.
    inversion E1; subst; clear E1. repeat split. }
  apply bind_inv in E as [hubId [b2 [E2 E]]].
  destruct (hub_step _ _ _ _ _ _ _ HSt1 E2) as [hub [HSt2 [Hid [Hty Hst]]]].
  simpl in HSt2.
  apply bind_inv in E as [m [b3 [E3 E]]].
  destruct (fanOut_loop_exact _ _ _ _ (concept_loop_step hubId args)
              _ _ _ _ _ _ _ HSt2 E3) as [cn [es1 [HSt3 [HF1 Hw1]]]].
  destruct (concept_loop_map hubId args _ _ _ _ _ _ _ _ HSt2 E3)
    as [cn' [Hcn' [_ Hm]]].
  assert (cn' = cn) as ->.
  { destruct HSt3 as [Hn3 _]. rewrite Hn3 in Hcn'.
    now apply app_inv_head in Hcn'. }
  apply bind_inv in E as [u4 [b4 [E4 E]]]. rewrite guarded_forEach in E4.
  destruct (fanOut_forEach_exact _ _ _ _ (webhook_loop_step hubId)
              _ _ _ _ _ _ HSt3 E4) as [wn [es2 [HSt4 [HF2 Hw2]]]].
  apply bind_inv in E as [u5 [b5 [E5 E]]]. rewrite guarded_forEach in E5.
  destruct (fanOut_forEach_exact _ _ _ _ (knowledge_base_loop_step hubId)
              _ _ _ _ _ _ HSt4 E5) as [kn [es3 [HSt5 [HF3 Hw3]]]].
  apply bind_inv in E as [u6 [b6 [E6 E]]]. rewrite guarded_forEach in E6.
  destruct (fanOut_forEach_exact _ _ _ _ (transfer_loop_step hubId)
              _ _ _ _ _ _ HSt5 E6) as [tn [es4 [HSt6 [HF4 Hw4]]]].
  apply bind_inv in E as [resolutionId [b7 [E7 E]]].
  destruct (resolution_step _ _ _ _ _ _ HSt6 E7) as [res [HSt7 [Hrid Hrty]]].
  apply bind_inv in E as [completionId [b8 [E8 E]]].
  destruct (completion_step _ _ _ _ _ _ HSt7 E8) as [comp [HSt8 [Hcid Hcty]]].
  clear HSt1 HSt2 HSt3 HSt4 HSt5 HSt6 HSt7 E1 E2 E3 E4 E5 E6 E7 E8.
  simpl in HSt8. repeat rewrite <- app_assoc in HSt8. simpl in HSt8.
  set (NS := hub :: cn ++ wn ++ kn ++ tn ++ [res; comp]) in *.
  set (ES := es1 ++ es2 ++ es3 ++ es4) in *.
  apply bind_inv in E as [u9 [b9 [E9 E]]].
  destruct (edge_loop snd resolutionId
              (fun entry => fst entry +:+ " assistance complete")
              (fun entry => "Complete " +:+ fst entry
                            +:+ " assistance and assess satisfaction")
              m _ _ _ _ _ _ HSt8 E9) as [esC [HSt9 HFC]].
  apply bind_inv in E as [u10 [b10 [E10 E]]].
  fold (hasIntegrations args) in E10.
  assert (exists esO,
             St NS ((ES ++ esC) ++ esO) dom b10 /\
             wiredInto (fun i => i) resolutionId
               (if hasIntegrations args
                then otherNodeIds NS m hubId resolutionId completionId
                else []) esO) as [esO [HSt10 HFO]].
  { destruct (hasIntegrations args).
    - apply bind_inv in E10 as [allNodes [b9' [Eg E10]]].
      inversion Eg; subst allNodes b9'; clear Eg.
      destruct HSt9 as [Hn9 [He9 Hd9]]. rewrite Hn9 in E10.
      exact (edge_loop (fun i => i) resolutionId
               (fun _ => "service completed successfully")
               (fun _ => "Complete service and assess customer satisfaction")
               _ _ _ _ _ _ _ (conj Hn9 (conj He9 Hd9)) E10).
    - inversion E10; subst; clear E10. exists [].
      rewrite app_nil_r. split; [exact HSt9 | constructor]. }
  apply bind_inv in E as [d [b11 [E11 E]]].
  inversion E11; subst d b11; clear E11.
  apply bind_inv in E as [u12 [b12 [E12 E]]].
  destruct (edge_exact _ _ _ _ _ _ _ _ _ _ HSt10 E12) as [e1 [HSt12 Hc1]].
  apply bind_inv in E as [u13 [b13 [E13 E]]].
  destruct (edge_exact _ _ _ _ _ _ _ _ _ _ HSt12 E13) as [e2 [HSt13 Hc2]].
  cbv [bind getNodes getEdges ret] in E. inversion E; subst g b'; clear E.
  destruct HSt13 as [Hn [He _]].
  cbn [g_nodes g_edges] in *. rewrite Hn in Hbound, Hnodup.
  assert (NS = hub :: (cn ++ wn ++ kn ++ tn) ++ [res; comp]) as HNS
    by (subst NS; now rewrite <- !app_assoc).
  pose proof (extracted_types_distinct description dom) as Htypes.
  assert (List.map snd m = List.map id cn) as Hvalues.
  { subst m. rewrite recordIds_values;
      [reflexivity | exact (Forall2_length_eq _ _ _ HF1) | exact Htypes]. }
  assert (forall nd, In nd (cn ++ wn ++ kn ++ tn) -> mapHas (id nd) m = false)
    as Hkeys.
  { intros nd Hin. apply mapHas_false. intros Hkey. subst m.
    apply recordIds_keys in Hkey as [[]|Hkey].
    apply in_map_iff in Hkey as [c [Heq Hc]].
    destruct (Hbound nd) as [k [_ Hnum]].
    { rewrite HNS. right. apply in_or_app. now left. }
    rewrite <- Heq in Hnum.
    exact (concept_type_is_no_node_id _ _ _ _ Hc Hnum). }
  exists hub, cn, wn, kn, tn, res, comp, ES, esC, esO, e1, e2.
  rewrite Hn, He. subst hubId resolutionId completionId.
  split; [exact HNS|].
  split; [repeat rewrite <- app_assoc; reflexivity|].
  do 4 (split; [assumption|]).
  split.
  { subst ES. apply wiredOut_app; [exact Hw1|].
    apply wiredOut_app; [exact Hw2|].
    apply wiredOut_app; [exact Hw3|exact Hw4]. }
  split; [exact (wiredInto_values id _ _ _ _ Hvalues HFC)|].
  split; [|split; assumption].
  destruct (hasIntegrations args); [|inversion HFO; constructor].
  apply wiredInto_map. rewrite HNS in HFO, Hnodup.
  now rewrite otherNodeIds_all in HFO.
Qed.

End AssemblerEdges.

(** ** Out-degrees in an assembled graph *)

Section AssembledDegrees.

Lemma outDegree_app (es es' : list PathwayEdge) (s : option string) :
  outDegree (es ++ es') s = outDegree es s + outDegree es' s.
Proof. unfold outDegree. now rewrite List.filter_app, length_app. Qed.

Lemma outDegree_wiredOut (hub : string) (ns : list PathwayNode)
  (es : list PathwayEdge) (s : option string) :
  wiredOut hub ns es ->
  outDegree es s = if sameKey (Some hub) s then length ns else 0.
Proof.
  unfold wiredOut, outDegree. destruct (sameKey (Some hub) s) eqn:E;
    induction 1 as [|nd e ns es [Hs _] _ IH]; cbn [List.filter length];
    try reflexivity; rewrite Hs, E; cbn [length]; now rewrite IH.
Qed.

Lemma outDegree_wiredInto (tgt : string) (ns : list PathwayNode)
  (es : list PathwayEdge) (s : option string) :
  wiredInto id tgt ns es -> outDegree es s = occurrences s ns.
Proof.
  unfold wiredInto, outDegree, occurrences.
  induction 1 as [|nd e ns es [Hs _] _ IH]; cbn [List.filter length];
    [reflexivity|].
  rewrite Hs. destruct (sameKey (Some (id nd)) s); cbn [length];
    now rewrite IH.
Qed.

Lemma occurrences_app (s : option string) (ns ns' : list PathwayNode) :
  occurrences s (ns ++ ns') = occurrences s ns + occurrences s ns'.
Proof. unfold occurrences. now rewrite List.filter_app, length_app. Qed.

Lemma occurrences_absent (s : option string) (ns : list PathwayNode) :
  (forall nd, In nd ns -> s <> Some (id nd)) -> occurrences s ns = 0.
Proof.
  unfold occurrences. induction ns as [|nd ns IH]; intros H;
    cbn [List.filter length]; [reflexivity|].
  assert (sameKey (Some (id nd)) s = false) as ->.
  { apply sameKey_neq. intros Heq. apply (H nd); [now left | now symmetry]. }
  apply IH. intros x Hx. apply H. now right.
Qed.

Lemma occurrences_once (nd : PathwayNode) (ns : list PathwayNode) :
  List.NoDup (nodeIds ns) -> In nd ns -> occurrences (Some (id nd)) ns = 1.
Proof.
  unfold occurrences. induction ns as [|x ns IH]; intros Hnd Hin; [destruct Hin|].
  inversion Hnd as [|? ? Hfresh Hnd']; subst. cbn [List.filter].
  destruct (sameKey (Some (id x)) (Some (id nd))) eqn:E.
  - apply sameKey_eq in E. injection E as E. cbn [length]. f_equal.
    apply (occurrences_absent (Some (id nd)) ns).
    intros y Hy Heq. injection Heq as Heq. apply Hfresh.
    rewrite E, Heq. now apply in_map.
  - destruct Hin as [->|Hin]; [now rewrite sameKey_refl in E | auto].
Qed.

Lemma occurrences_positive (s : option string) (ns : list PathwayNode) :
  1 <= occurrences s ns -> exists nd, In nd ns /\ s = Some (id nd).
Proof.
  unfold occurrences. intros H.
  destruct (List.filter (fun nd => sameKey (Some (id nd)) s) ns) as [|nd l] eqn:E;
    [simpl in H; lia|].
  assert (In nd (List.filter (fun nd => sameKey (Some (id nd)) s) ns)) as Hin
    by (rewrite E; now left).
  apply List.filter_In in Hin as [Hin Hk]. exists nd.
  split; [exact Hin | symmetry; now apply sameKey_eq].
Qed.

Lemma occurrences_at_most_once (s : option string) (ns : list PathwayNode) :
  List.NoDup (nodeIds ns) -> occurrences s ns <= 1.
Proof.
  intros Hnd. destruct (occurrences s ns) as [|n] eqn:E; [lia|].
  destruct (occurrences_positive s ns) as [nd [Hin ->]]; [lia|].
  rewrite (occurrences_once nd ns Hnd Hin) in E. lia.
Qed.

Lemma no_integration_no_node (args : Args) (wn kn tn : list PathwayNode) :
  Forall2 isWebhookNodeFor (webhook_integrations args) wn ->
  Forall2 isKnowledgeBaseNodeFor (knowledge_bases args) kn ->
  Forall2 isTransferNodeFor (transfer_numbers args) tn ->
  hasIntegrations args = false -> wn ++ kn ++ tn = [].
Proof.
  intros Hw Hk Ht Hno. unfold hasIntegrations in Hno.
  apply orb_false_iff in Hno as [Hno Hno3].
  apply orb_false_iff in Hno as [Hno1 Hno2].
  destruct (webhook_integrations args); [|discriminate].
  destruct (knowledge_bases args); [|discriminate].
  destruct (transfer_numbers args); [|discriminate].
  inversion Hw; inversion Hk; inversion Ht. reflexivity.
Qed.

(** The out-degree of every key in an assembled graph. *)
Lemma assembled_outDegree (description : string) (args : Args) (g : Graph) :
  assemble description args = Some g ->
  exists hub cn rest res comp,
    g_nodes g = hub :: (cn ++ rest) ++ [res; comp] /\
    length cn = length (extractDomainSpecificConcepts description
                          (extractPrimaryDomain description (name args))) /\
    length (cn ++ rest) = fanOutSize description args /\
    (hasIntegrations args = false -> rest = []) /\
    forall s,
      outDegree (g_edges g) s
      = (if sameKey (Some (id hub)) s then fanOutSize description args else 0)
        + occurrences s cn
        + (if hasIntegrations args then occurrences s (cn ++ rest) else 0)
        + (if sameKey (Some (id res)) s then 2 else 0).
Proof.
  intros Hg.
  destruct (assemble_edges description args g Hg)
    as (hub & cn & wn & kn & tn & res & comp & esFan & esC & esO & e1 & e2
        & Hn & He & HFc & HFw & HFk & HFt & Hout & HinC & HinO & Hc1 & Hc2).
  exists hub, cn, (wn ++ kn ++ tn), res, comp.
  assert (length (cn ++ wn ++ kn ++ tn) = fanOutSize description args) as Hlen.
  { unfold fanOutSize. rewrite !length_app.
    rewrite (Forall2_length_eq _ _ _ HFc), (Forall2_length_eq _ _ _ HFw),
      (Forall2_length_eq _ _ _ HFk), (Forall2_length_eq _ _ _ HFt). lia. }
  split; [exact Hn|]. split; [exact (Forall2_length_eq _ _ _ HFc)|].
  split; [exact Hlen|].
  split; [now apply no_integration_no_node|].
  intros s. rewrite He, !outDegree_app.
  rewrite (outDegree_wiredOut _ _ _ s Hout), Hlen.
  rewrite (outDegree_wiredInto _ _ _ s HinC).
  assert (outDegree [e1; e2] s = if sameKey (Some (id res)) s then 2 else 0)
    as ->.
  { unfold outDegree. cbn [List.filter].
    destruct Hc1 as [-> _], Hc2 as [-> _].
    now destruct (sameKey (Some (id res)) s). }
  destruct (hasIntegrations args).
  - rewrite (outDegree_wiredInto _ _ _ s HinO). lia.
  - assert (outDegree esO s = 0) as Hno
      by (inversion HinO; reflexivity).
    lia.
Qed.

End AssembledDegrees.

(** ** The analysis of an assembled graph *)

Section AssembledAnalysis.

Lemma assembled_degree_cases (description : string) (args : Args) (g : Graph) :
  assemble description args = Some g ->
  exists hub cn res,
    hd_error (g_nodes g) = Some hub /\ In res (g_nodes g) /\
    length cn = length (extractDomainSpecificConcepts description
                          (extractPrimaryDomain description (name args))) /\
    id hub <> id res /\ List.NoDup (nodeIds cn) /\
    ~ In (id hub) (nodeIds cn) /\ ~ In (id res) (nodeIds cn) /\
    outDegree (g_edges g) (Some (id hub)) = fanOutSize description args /\
    outDegree (g_edges g) (Some (id res)) = 2 /\
    (forall nd, In nd cn ->
       outDegree (g_edges g) (Some (id nd))
       = if hasIntegrations args then 2 else 1) /\
    (forall s, s <> Some (id hub) -> s <> Some (id res) ->
       (forall nd, In nd cn -> s <> Some (id nd)) ->
       outDegree (g_edges g) s <= 1).
Proof.
  intros Hg.
  pose proof (assemble_wellFormed _ _ _ Hg) as [_ Hnodup].
  destruct (assembled_outDegree description args g Hg)
    as (hub & cn & rest & res & comp & Hn & Hk & Hf & Hrest & Hdeg).
  rewrite Hn in Hnodup. unfold nodeIds in Hnodup.
  cbn [List.map] in Hnodup. rewrite map_app in Hnodup.
  inversion Hnodup as [|? ? Hhub Hnodup']; subst.
  pose proof (NoDup_remove_2 _ _ _ Hnodup') as Hres.
  pose proof (NoDup_remove_1 _ _ _ Hnodup') as Hfan.
  apply NoDup_remove_1 in Hfan. rewrite app_nil_r in Hfan.
  assert (~ In (id res) (List.map id (cn ++ rest))) as Hres'.
  { intros Hin. apply Hres. apply in_or_app. now left. }
  assert (~ In (id hub) (List.map id (cn ++ rest))) as Hhub'.
  { intros Hin. apply Hhub. apply in_or_app. now left. }
  assert (id hub <> id res) as Hhr.
  { intros Heq. apply Hhub. apply in_or_app. right. left. now symmetry. }
  assert (forall i, ~ In i (List.map id (cn ++ rest)) ->
            occurrences (Some i) cn = 0 /\
            occurrences (Some i) (cn ++ rest) = 0) as Habsent.
  { intros i Hi. split; apply occurrences_absent; intros nd Hnd Heq;
      injection Heq as ->; apply Hi, in_map; [apply in_or_app; now left|exact Hnd]. }
  assert (sameKey (Some (id res)) (Some (id hub)) = false) as Hrh
    by (apply sameKey_neq; congruence).
  assert (sameKey (Some (id hub)) (Some (id res)) = false) as Hhr'
    by (apply sameKey_neq; congruence).
  exists hub, cn, res. rewrite Hn.
  split; [reflexivity|].
  split; [right; apply in_or_app; right; now left|].
  split; [exact Hk|]. split; [exact Hhr|].
  split; [rewrite map_app in Hfan; now apply NoDup_app_remove_r in Hfan|].
  split; [intros Hin; apply Hhub'; rewrite map_app; apply in_or_app; now left|].
  split; [intros Hin; apply Hres'; rewrite map_app; apply in_or_app; now left|].
  split; [|split; [|split]].
  - rewrite Hdeg, sameKey_refl, Hrh.
    destruct (Habsent _ Hhub') as [-> ->].
    destruct (hasIntegrations args); lia.
  - rewrite Hdeg, sameKey_refl, Hhr'.
    destruct (Habsent _ Hres') as [-> ->].
    destruct (hasIntegrations args); lia.
  - intros nd Hnd. rewrite Hdeg.
    assert (In nd (cn ++ rest)) as Hnd' by (apply in_or_app; now left).
    assert (sameKey (Some (id hub)) (Some (id nd)) = false) as ->.
    { apply sameKey_neq. intros Heq. injection Heq as Heq.
      apply Hhub'. rewrite Heq. now apply in_map. }
    assert (sameKey (Some (id res)) (Some (id nd)) = false) as ->.
    { apply sameKey_neq. intros Heq. injection Heq as Heq.
      apply Hres'. rewrite Heq. now apply in_map. }
    rewrite (occurrences_once nd (cn ++ rest) Hfan Hnd').
    rewrite (occurrences_once nd cn); [|unfold nodeIds in *|exact Hnd].
    + destruct (hasIntegrations args); lia.
    + rewrite map_app in Hfan. now apply NoDup_app_remove_r in Hfan.
  - intros s Hs1 Hs2 Hs3. rewrite Hdeg.
    assert (sameKey (Some (id hub)) s = false) as ->
      by (apply sameKey_neq; congruence).
    assert (sameKey (Some (id res)) s = false) as ->
      by (apply sameKey_neq; congruence).
    rewrite (occurrences_absent s cn) by exact Hs3.
    pose proof (occurrences_at_most_once s (cn ++ rest) Hfan).
    destruct (hasIntegrations args); lia.
Qed.

Lemma same_members_same_length {A} (l l' : list A) :
  List.NoDup l -> List.NoDup l' -> (forall x, In x l <-> In x l') ->
  length l = length l'.
Proof.
  intros Hl Hl' Hiff. apply Permutation.Permutation_length.
  now apply Permutation.NoDup_Permutation.
Qed.

(** X13. What the analysis reports for an assembled graph.  With [f]
    fan-out nodes (concepts, webhooks, knowledge bases, transfer targets)
    the largest out-degree is [max f 2]: the hub has [f] outgoing edges and
    the resolution node two.  The branching points are the resolution
    node, the hub when [f >= 2], and every concept node when an
    integration is configured (it then has two edges into the resolution
    node). *)
Theorem analysis_of_an_assembled_graph
  (description : string) (args : Args) (g : Graph) :
  assemble description args = Some g ->
  maxBranches (analyzeBranchingComplexity g)
  = Nat.max (fanOutSize description args) 2 /\
  branchingPoints (analyzeBranchingComplexity g)
  = (if 2 <=? fanOutSize description args then 1 else 0) + 1
    + (if hasIntegrations args
       then length (extractDomainSpecificConcepts description
                      (extractPrimaryDomain description (name args)))
       else 0).
Proof.
  intros Hg.
  destruct (assembled_degree_cases description args g Hg)
    as (hub & cn & res & _ & _ & Hk & Hhr & Hcn & Hhub & Hres & Hdh & Hdr
        & Hdc & Hrest).
  set (f := fanOutSize description args) in *.
  assert (forall s, outDegree (g_edges g) s <= Nat.max f 2) as Hbound.
  { intros s.
    destruct (decide (s = Some (id hub))) as [->|H1]; [rewrite Hdh; lia|].
    destruct (decide (s = Some (id res))) as [->|H2]; [rewrite Hdr; lia|].
    destruct (occurrences s cn) as [|n] eqn:Hocc.
    - assert (outDegree (g_edges g) s <= 1); [|lia].
      apply Hrest; [exact H1 | exact H2 |]. intros nd Hnd ->.
      rewrite (occurrences_once nd cn Hcn Hnd) in Hocc. discriminate.
    - destruct (occurrences_positive s cn) as [nd [Hnd ->]]; [lia|].
      rewrite (Hdc nd Hnd). destruct (hasIntegrations args); lia. }
  split.
  - unfold analyzeBranchingComplexity. cbn [maxBranches].
    pose proof (maxCount_bounds (g_edges g) (Some (id hub))) as Hh.
    pose proof (maxCount_bounds (g_edges g) (Some (id res))) as Hr.
    rewrite Hdh in Hh. rewrite Hdr in Hr.
    destruct (maxCount_attained (g_edges g)) as [e [_ He]].
    { intros Hnil. rewrite Hnil in Hdr. discriminate. }
    pose proof (Hbound (source e)) as Hb. rewrite He in Hb. lia.
  - unfold analyzeBranchingComplexity. cbn [branchingPoints].
    destruct (branching_sources (g_edges g)) as [sources [Hsrc [Hiff ->]]].
    set (L := (if 2 <=? f then [Some (id hub)] else [])
              ++ [Some (id res)]
              ++ (if hasIntegrations args
                  then List.map (fun nd => Some (id nd)) cn else [])).
    assert (length L = (if 2 <=? f then 1 else 0) + 1
                       + (if hasIntegrations args then length cn else 0))
      as HlenL.
    { subst L. rewrite !length_app.
      destruct (2 <=? f), (hasIntegrations args); simpl;
        rewrite ?length_map; lia. }
    rewrite <- Hk, <- HlenL. apply same_members_same_length; [exact Hsrc| |].
    + subst L. apply List.NoDup_app.
      * destruct (2 <=? f); repeat constructor. intros [].
      * apply List.NoDup_app.
        -- repeat constructor. intros [].
        -- destruct (hasIntegrations args); [|constructor].
           apply List.NoDup_map_NoDup_ForallPairs;
             [|now apply NoDup_map_inv in Hcn].
           intros x y Hx Hy Heq. injection Heq as Heq.
           clear -Hcn Hx Hy Heq. unfold nodeIds in Hcn.
           induction cn as [|n cn IH]; [destruct Hx|].
           inversion Hcn as [|? ? Hfresh Hcn']; subst.
           destruct Hx as [->|Hx], Hy as [->|Hy]; auto.
           ++ exfalso. apply Hfresh. rewrite Heq. now apply in_map.
           ++ exfalso. apply Hfresh. rewrite <- Heq. now apply in_map.
        -- intros s [<-|[]] Hin.
           destruct (hasIntegrations args); [|destruct Hin].
           apply in_map_iff in Hin as [nd [Heq Hin]]. injection Heq as Heq.
           apply Hres. rewrite <- Heq. now apply in_map.
      * intros s Hs Hin. destruct (2 <=? f); [|destruct Hs].
        destruct Hs as [<-|[]]. apply in_app_or in Hin as [[Heq|[]]|Hin].
        -- injection Heq as Heq. congruence.
        -- destruct (hasIntegrations args); [|destruct Hin].
           apply in_map_iff in Hin as [nd [Heq Hin]]. injection Heq as Heq.
           apply Hhub. rewrite <- Heq. now apply in_map.
    + intros s. rewrite Hiff. subst L. split.
      * intros Hdeg.
        destruct (decide (s = Some (id hub))) as [->|H1].
        { rewrite Hdh in Hdeg. apply Nat.leb_le in Hdeg. rewrite Hdeg.
          now left. }
        apply in_or_app. right.
        destruct (decide (s = Some (id res))) as [->|H2]; [now left|].
        right. destruct (occurrences s cn) as [|n] eqn:Hocc.
        { assert (outDegree (g_edges g) s <= 1); [|lia].
          apply Hrest; [exact H1 | exact H2 |]. intros nd Hnd ->.
          rewrite (occurrences_once nd cn Hcn Hnd) in Hocc. discriminate. }
        destruct (occurrences_positive s cn) as [nd [Hnd ->]]; [lia|].
        rewrite (Hdc nd Hnd) in Hdeg.
        destruct (hasIntegrations args); [|lia].
        now apply in_map with (f := fun nd => Some (id nd)).
      * intros Hin. apply in_app_or in Hin as [Hin|[<-|Hin]].
        -- destruct (2 <=? f) eqn:Hf; [|destruct Hin].
           destruct Hin as [<-|[]]. rewrite Hdh. now apply Nat.leb_le.
        -- rewrite Hdr. lia.
        -- destruct (hasIntegrations args) eqn:Hint; [|destruct Hin].
           apply in_map_iff in Hin as [nd [<- Hin]].
           rewrite (Hdc nd Hin). lia.
Qed.

Lemma analysis_of_an_assembled_graph_witness :
  exists g, assemble mixedDescription mixedArgs = Some g /\
  (maxBranches (analyzeBranchingComplexity g)
    = Nat.max (fanOutSize mixedDescription mixedArgs) 2 /\
    branchingPoints (analyzeBranchingComplexity g)
    = (if 2 <=? fanOutSize mixedDescription mixedArgs then 1 else 0) + 1
      + (if hasIntegrations mixedArgs
         then length (extractDomainSpecificConcepts mixedDescription
                        (extractPrimaryDomain mixedDescription (name mixedArgs)))
         else 0)).
Proof.
  eexists. split; [vm_compute; reflexivity|].
  apply (analysis_of_an_assembled_graph mixedDescription mixedArgs).
  vm_compute. reflexivity.
Defined.

(** X14. An assembled graph is connected from its start node exactly
    when the fan-out is not empty: with at least one concept, webhook,
    knowledge base or transfer target every node is reached from the hub
    by following edges; with none the hub has no outgoing edge at all. *)
Theorem assembled_graph_is_connected_iff_fan_out
  (description : string) (args : Args) (g : Graph) :
  assemble description args = Some g ->
  exists hub,
    hd_error (g_nodes g) = Some hub /\ isStart (data hub) = true /\
    ((forall n, In n (g_nodes g) -> reachable (g_edges g) (id hub) (id n))
     <-> 0 < fanOutSize description args) /\
    (fanOutSize description args = 0 ->
     forall e, In e (g_edges g) -> source e <> Some (id hub)).
Proof.
  intros Hg.
  destruct (assemble_shape description args g Hg)
    as (hub0 & cn0 & wn & kn & tn & res0 & comp & Hnodes & _ & _ & _ & _
        & [_ Hstart] & _).
  destruct (assembled_degree_cases description args g Hg)
    as (hub & cn & res & Hhd & Hres & _ & Hhr & _ & _ & _ & Hdh & _).
  assert (hub0 = hub) as ->.
  { rewrite Hnodes in Hhd. now injection Hhd. }
  assert (fanOutSize description args = 0 ->
          forall e, In e (g_edges g) -> source e <> Some (id hub)) as Hdead.
  { intros Hzero e He Hsrc. rewrite Hzero in Hdh.
    unfold outDegree in Hdh.
    assert (In e (List.filter (fun x => sameKey (source x) (Some (id hub)))
                    (g_edges g))) as Hin
      by (apply List.filter_In; split; [exact He | now apply sameKey_eq]).
    destruct (List.filter _ (g_edges g)); [destruct Hin | discriminate]. }
  exists hub. split; [exact Hhd|]. split; [exact Hstart|].
  split; [|exact Hdead]. split.
  - intros Hall.
    destruct (fanOutSize description args) as [|f] eqn:Hf; [|lia].
    exfalso. apply Hhr. symmetry.
    exact (reachable_stuck _ _ _ (Hdead eq_refl) (Hall res Hres)).
  - intros Hpos.
    destruct (fan_out_makes_every_node_reachable description args g Hg Hpos)
      as [hub' [Hhd' [_ Hall]]].
    rewrite Hhd in Hhd'. injection Hhd' as <-. exact Hall.
Qed.

Lemma assembled_graph_is_connected_iff_fan_out_witness :
  exists g, assemble mixedDescription mixedArgs = Some g /\
  (exists hub,
      hd_error (g_nodes g) = Some hub /\ isStart (data hub) = true /\
      ((forall n, In n (g_nodes g) -> reachable (g_edges g) (id hub) (id n))
       <-> 0 < fanOutSize mixedDescription mixedArgs) /\
      (fanOutSize mixedDescription mixedArgs = 0 ->
       forall e, In e (g_edges g) -> source e <> Some (id hub))).
Proof.
  eexists. split; [vm_compute; reflexivity|].
  apply (assembled_graph_is_connected_iff_fan_out mixedDescription mixedArgs).
  vm_compute. reflexivity.
Defined.

Lemma includes_suffix (p s : string) : includes (p +:+ s) s = true.
Proof. apply includes_spec. exists p, EmptyString. now rewrite append_nil_r. Qed.

(** X15. Every concept found in the description appears among the
    specialist nodes that the analysis reports, under its display name:
    the concept type with underscores read as spaces, each word
    capitalized, followed by "Specialist". *)
Theorem concepts_are_reported_as_specialists
  (description : string) (args : Args) (g : Graph) :
  assemble description args = Some g ->
  forall c,
    In c (extractDomainSpecificConcepts description
            (extractPrimaryDomain description (name args))) ->
    In (capitalizeWords (underscoresToSpace (c_type c)) +:+ " Specialist")
       (specialistTypes (analyzeBranchingComplexity g)).
Proof.
  intros Hg c Hc.
  destruct (assemble_shape description args g Hg)
    as (hub & cn & wn & kn & tn & res & comp & Hnodes & HFc & _).
  destruct (Forall2_In_left _ _ _ _ HFc Hc) as [nd [Hnd [_ [Hname _]]]].
  unfold analyzeBranchingComplexity. cbn [specialistTypes].
  rewrite <- Hname.
  apply (in_map (fun node => d_name (data node))).
  apply List.filter_In. split.
  - rewrite Hnodes. right. apply in_or_app. now left.
  - rewrite Hname.
    change (capitalizeWords (underscoresToSpace (c_type c)) +:+ " Specialist")
      with (capitalizeWords (underscoresToSpace (c_type c))
              +:+ String " " "Specialist").
    rewrite <- (append_assoc _ " " "Specialist").
    apply includes_suffix.
Qed.

Lemma concepts_are_reported_as_specialists_witness :
  exists g, assemble mixedDescription mixedArgs = Some g /\
  (forall c,
      In c (extractDomainSpecificConcepts mixedDescription
              (extractPrimaryDomain mixedDescription (name mixedArgs))) ->
      In (capitalizeWords (underscoresToSpace (c_type c)) +:+ " Specialist")
         (specialistTypes (analyzeBranchingComplexity g))).
Proof.
  eexists. split; [vm_compute; reflexivity|].
  apply (concepts_are_reported_as_specialists mixedDescription mixedArgs).
  vm_compute. reflexivity.
Defined.

End AssembledAnalysis.

(** ** The exact wiring of an assembled graph *)

Section AssembledWiring.

Lemma sameKey_Some (x y : string) : sameKey (Some x) (Some y) = String.eqb x y.
Proof. reflexivity. Qed.

Lemma edgesBetween_wiredInto (tgt : string) (ns : list PathwayNode)
  (es : list PathwayEdge) (a b : string) :
  wiredInto id tgt ns es ->
  length (edgesBetween es a b)
  = if String.eqb tgt b then occurrences (Some a) ns else 0.
Proof.
  unfold wiredInto, edgesBetween, occurrences.
  induction 1 as [|nd e ns es [Hs Ht] _ IH]; cbn [List.filter length].
  - now destruct (String.eqb tgt b).
  - unfold connectsb at 1. rewrite Hs, Ht. cbn [optEqb]. rewrite sameKey_Some.
    destruct (String.eqb (id nd) a), (String.eqb tgt b);
      cbn [andb length]; rewrite IH; reflexivity.
Qed.

Lemma edgesBetween_wiredOut (hub : string) (ns : list PathwayNode)
  (es : list PathwayEdge) (a b : string) :
  wiredOut hub ns es ->
  length (edgesBetween es a b)
  = if String.eqb hub a then occurrences (Some b) ns else 0.
Proof.
  unfold wiredOut, edgesBetween, occurrences.
  induction 1 as [|nd e ns es [Hs Ht] _ IH]; cbn [List.filter length].
  - now destruct (String.eqb hub a).
  - unfold connectsb at 1. rewrite Hs, Ht. cbn [optEqb]. rewrite sameKey_Some.
    destruct (String.eqb hub a), (String.eqb (id nd) b);
      cbn [andb length]; rewrite IH; reflexivity.
Qed.

Lemma edgesBetween_nil (es : list PathwayEdge) (a b : string) :
  length (edgesBetween es a b) = 0 -> edgesBetween es a b = [].
Proof. now destruct (edgesBetween es a b). Qed.

(** X16. The wiring of an assembled graph, edge by edge.  Every fan-out
    node has exactly one edge from the hub.  A concept node has exactly one
    edge into the resolution node when no integration is configured and
    exactly two when one is; every webhook, knowledge-base and transfer
    node has exactly one.  The resolution node has one edge to the End
    Call node and one back to the hub; no edge leads from the hub to the
    resolution node.  These are all the edges: with [f] fan-out nodes, [k]
    of them concept nodes, the graph has [f + k + 2] edges, and [f] more
    when an integration is configured. *)
Theorem assembled_graph_wiring (description : string) (args : Args) (g : Graph) :
  assemble description args = Some g ->
  exists hub cn rest res comp,
    g_nodes g = hub :: (cn ++ rest) ++ [res; comp] /\
    length cn = length (extractDomainSpecificConcepts description
                          (extractPrimaryDomain description (name args))) /\
    length rest = length (webhook_integrations args)
                  + length (knowledge_bases args)
                  + length (transfer_numbers args) /\
    (forall nd, In nd (cn ++ rest) ->
       length (edgesBetween (g_edges g) (id hub) (id nd)) = 1) /\
    (forall nd, In nd cn ->
       length (edgesBetween (g_edges g) (id nd) (id res))
       = if hasIntegrations args then 2 else 1) /\
    (forall nd, In nd rest ->
       length (edgesBetween (g_edges g) (id nd) (id res)) = 1) /\
    length (edgesBetween (g_edges g) (id res) (id comp)) = 1 /\
    length (edgesBetween (g_edges g) (id res) (id hub)) = 1 /\
    edgesBetween (g_edges g) (id hub) (id res) = [] /\
    length (g_edges g)
    = fanOutSize description args + length cn
      + (if hasIntegrations args then fanOutSize description args else 0) + 2.
Proof.
  intros Hg.
  pose proof (assemble_wellFormed _ _ _ Hg) as [_ Hnodup].
  destruct (assemble_edges description args g Hg)
    as (hub & cn & wn & kn & tn & res & comp & esFan & esC & esO & e1 & e2
        & Hn & He & HFc & HFw & HFk & HFt & Hout & HinC & HinO & Hc1 & Hc2).
  set (fan := cn ++ wn ++ kn ++ tn) in *.
  assert (length fan = fanOutSize description args) as Hlen.
  { subst fan. unfold fanOutSize. rewrite !length_app.
    rewrite (Forall2_length_eq _ _ _ HFc), (Forall2_length_eq _ _ _ HFw),
      (Forall2_length_eq _ _ _ HFk), (Forall2_length_eq _ _ _ HFt). lia. }
  rewrite Hn in Hnodup. unfold nodeIds in Hnodup.
  cbn [List.map] in Hnodup. rewrite map_app in Hnodup.
  inversion Hnodup as [|? ? Hhub Hnodup']; subst x l.
  pose proof (NoDup_remove_2 _ _ _ Hnodup') as Hres.
  pose proof (NoDup_remove_1 _ _ _ Hnodup') as Hfan'.
  pose proof (NoDup_remove_2 _ _ _ Hfan') as Hcomp.
  apply NoDup_remove_1 in Hfan'. rewrite app_nil_r in Hfan', Hcomp.
  change (List.NoDup (nodeIds fan)) in Hfan'.
  assert (List.NoDup (nodeIds cn)) as Hcn.
  { unfold nodeIds, fan in Hfan'. rewrite map_app in Hfan'.
    now apply NoDup_app_remove_r in Hfan'. }
  assert (id hub <> id res /\ id hub <> id comp /\ id res <> id comp)
    as [Hhr [Hhc Hrc]].
  { split; [|split].
    - intros Heq. apply Hhub. apply in_or_app. right. left. now symmetry.
    - intros Heq. apply Hhub. apply in_or_app. right. right. left.
      now symmetry.
    - intros Heq. apply Hres. apply in_or_app. right. left. now symmetry. }
  assert (forall nd, In nd fan ->
            id nd <> id hub /\ id nd <> id res /\ id nd <> id comp) as Hids.
  { intros nd Hnd. apply (in_map id) in Hnd. split; [|split]; intros Heq.
    - apply Hhub. apply in_or_app. left. now rewrite <- Heq.
    - apply Hres. apply in_or_app. left. now rewrite <- Heq.
    - apply Hcomp. now rewrite <- Heq. }
  assert (forall i, (forall nd, In nd fan -> id nd <> i) ->
            occurrences (Some i) fan = 0 /\ occurrences (Some i) cn = 0)
    as Habsent.
  { intros i Hi. split; apply occurrences_absent; intros nd Hnd Heq;
      injection Heq as ->; [apply (Hi nd Hnd); reflexivity|].
    apply (Hi nd); [apply in_or_app; now left | reflexivity]. }
  assert (forall a b,
            length (edgesBetween (g_edges g) a b)
            = (if String.eqb (id hub) a then occurrences (Some b) fan else 0)
              + (if String.eqb (id res) b then occurrences (Some a) cn else 0)
              + (if hasIntegrations args
                 then if String.eqb (id res) b
                      then occurrences (Some a) fan else 0
                 else 0)
              + ((if String.eqb (id res) a && String.eqb (id comp) b
                  then 1 else 0)
                 + (if String.eqb (id res) a && String.eqb (id hub) b
                    then 1 else 0))) as Hbetween.
  { intros a b. rewrite He, !edgesBetween_app, !length_app.
    rewrite (edgesBetween_wiredOut _ _ _ a b Hout).
    rewrite (edgesBetween_wiredInto _ _ _ a b HinC).
    assert (length (edgesBetween [e1; e2] a b)
            = (if String.eqb (id res) a && String.eqb (id comp) b
               then 1 else 0)
              + (if String.eqb (id res) a && String.eqb (id hub) b
                 then 1 else 0)) as ->.
    { unfold edgesBetween. cbn [List.filter]. unfold connectsb.
      destruct Hc1 as [-> ->], Hc2 as [-> ->]. cbn [optEqb].
      destruct (String.eqb (id res) a && String.eqb (id comp) b),
               (String.eqb (id res) a && String.eqb (id hub) b);
        reflexivity. }
    destruct (hasIntegrations args).
    - rewrite (edgesBetween_wiredInto _ _ _ a b HinO). lia.
    - assert (edgesBetween esO a b = []) as -> by (now inversion HinO).
      simpl. lia. }
  assert (hasIntegrations args = false -> wn ++ kn ++ tn = []) as Hnone
    by (now apply no_integration_no_node).
  exists hub, cn, (wn ++ kn ++ tn), res, comp.
  split; [exact Hn|]. split; [exact (Forall2_length_eq _ _ _ HFc)|].
  split.
  { rewrite !length_app.
    rewrite (Forall2_length_eq _ _ _ HFw), (Forall2_length_eq _ _ _ HFk),
      (Forall2_length_eq _ _ _ HFt). lia. }
  assert (String.eqb (id res) (id hub) = false) as Erh
    by (apply String.eqb_neq; congruence).
  assert (String.eqb (id hub) (id res) = false) as Ehr
    by (now apply String.eqb_neq).
  assert (String.eqb (id comp) (id hub) = false) as Ech
    by (apply String.eqb_neq; congruence).
  assert (String.eqb (id hub) (id comp) = false) as Ehc
    by (now apply String.eqb_neq).
  assert (String.eqb (id res) (id comp) = false) as Erc
    by (now apply String.eqb_neq).
  destruct (Habsent (id hub)) as [Hh1 Hh2]; [intros nd Hnd; now apply Hids|].
  destruct (Habsent (id res)) as [Hr1 Hr2]; [intros nd Hnd; now apply Hids|].
  split; [|split; [|split; [|split; [|split; [|split]]]]].
  - intros nd Hnd. destruct (Hids nd Hnd) as [H1 [H2 H3]].
    apply String.eqb_neq in H1, H2, H3.
    rewrite Hbetween, String.eqb_refl, Erh.
    rewrite (occurrences_once nd fan Hfan' Hnd).
    assert (String.eqb (id res) (id nd) = false) as ->
      by (apply String.eqb_neq; apply String.eqb_neq in H2; congruence).
    cbn [andb]. destruct (hasIntegrations args); lia.
  - intros nd Hnd.
    assert (In nd fan) as Hnd' by (apply in_or_app; now left).
    destruct (Hids nd Hnd') as [H1 [H2 H3]].
    rewrite Hbetween, String.eqb_refl.
    assert (String.eqb (id hub) (id nd) = false) as ->
      by (apply String.eqb_neq; congruence).
    assert (String.eqb (id res) (id nd) = false) as ->
      by (apply String.eqb_neq; congruence).
    rewrite (occurrences_once nd fan Hfan' Hnd'),
      (occurrences_once nd cn Hcn Hnd).
    cbn [andb]. destruct (hasIntegrations args); lia.
  - intros nd Hnd.
    assert (In nd fan) as Hnd' by (apply in_or_app; now right).
    destruct (Hids nd Hnd') as [H1 [H2 H3]].
    destruct (hasIntegrations args) eqn:Hint;
      [|rewrite (Hnone eq_refl) in Hnd; destruct Hnd].
    rewrite Hbetween, String.eqb_refl.
    assert (String.eqb (id hub) (id nd) = false) as ->
      by (apply String.eqb_neq; congruence).
    assert (String.eqb (id res) (id nd) = false) as ->
      by (apply String.eqb_neq; congruence).
    rewrite (occurrences_once nd fan Hfan' Hnd').
    rewrite (occurrences_absent (Some (id nd)) cn); [cbn [andb]; lia|].
    intros x Hx Heq. injection Heq as Heq.
    exact (distinct_ids_across cn (wn ++ kn ++ tn) x nd Hfan' Hx Hnd
             (eq_sym Heq)).
  - rewrite Hbetween, !String.eqb_refl, Ehr, Erc, Ehc.
    cbn [andb]. destruct (hasIntegrations args); lia.
  - rewrite Hbetween, !String.eqb_refl, Ehr, Erh, Ech.
    cbn [andb]. destruct (hasIntegrations args); lia.
  - apply edgesBetween_nil.
    rewrite Hbetween, !String.eqb_refl, Erh. cbn [andb].
    rewrite Hr1, Hh1, Hh2. destruct (hasIntegrations args); lia.
  - rewrite He, !length_app.
    unfold wiredOut in Hout. unfold wiredInto in HinC, HinO.
    rewrite (Forall2_length_eq _ _ _ Hout), (Forall2_length_eq _ _ _ HinC),
      (Forall2_length_eq _ _ _ HinO), Hlen.
    destruct (hasIntegrations args); simpl; lia.
Qed.

Lemma assembled_graph_wiring_witness :
  exists g, assemble mixedDescription mixedArgs = Some g /\
  (exists hub cn rest res comp,
      g_nodes g = hub :: (cn ++ rest) ++ [res; comp] /\
      length cn = length (extractDomainSpecificConcepts mixedDescription
                            (extractPrimaryDomain mixedDescription (name mixedArgs))) /\
      length rest = length (webhook_integrations mixedArgs)
                    + length (knowledge_bases mixedArgs)
                    + length (transfer_numbers mixedArgs) /\
      (forall nd, In nd (cn ++ rest) ->
         length (edgesBetween (g_edges g) (id hub) (id nd)) = 1) /\
      (forall nd, In nd cn ->
         length (edgesBetween (g_edges g) (id nd) (id res))
         = if hasIntegrations mixedArgs then 2 else 1) /\
      (forall nd, In nd rest ->
         length (edgesBetween (g_edges g) (id nd) (id res)) = 1) /\
      length (edgesBetween (g_edges g) (id res) (id comp)) = 1 /\
      length (edgesBetween (g_edges g) (id res) (id hub)) = 1 /\
      edgesBetween (g_edges g) (id hub) (id res) = [] /\
      length (g_edges g)
      = fanOutSize mixedDescription mixedArgs + length cn
        + (if hasIntegrations mixedArgs then fanOutSize mixedDescription mixedArgs else 0) + 2).
Proof.
  eexists. split; [vm_compute; reflexivity|].
  apply (assembled_graph_wiring mixedDescription mixedArgs).
  vm_compute. reflexivity.
Defined.

End AssembledWiring.

(** ** Ids of an assembled graph *)

Section AssemblerNumbering.

Local Open Scope build_scope.

Lemma getNodes_keep (P : Builder -> Prop) :
  hoare P getNodes (fun _ => P).
Proof.
  eapply hoare_conseq; [apply (hoare_getNodes P) | auto |].
  intros a b [_ HP]. exact HP.
Qed.

(** What the constructors keep holds of the state in which
    [buildFromDescription] returns, and the graph it returns is that
    state's node and edge lists. *)
Lemma buildFromDescription_keeps (J0 J : Builder -> Prop)
  (description : string) (args : Args) :
  hoare (fun b => b = newBuilder) (runConceptExtractor description args)
    (fun _ => J0) ->
  (forall cs, hoare J0 (createDomainSpecificHub cs) (fun _ => J)) ->
  keptByConstructors J ->
  hoare (fun b => b = newBuilder) (buildFromDescription description args)
    (fun g b => J b /\ g = mkGraph (nodes b) (edges b)).
Proof.
  intros Hstart Hhub [Hconcept Hwebhook Hkb Htransfer Hres Hcomp Hedge].
  unfold buildFromDescription.
  eapply hoare_bind; [exact Hstart|]. intros concepts.
  eapply hoare_bind; [apply Hhub|]. intros hubId.
  eapply hoare_bind.
  { apply (hoare_forEachAcc (fun _ => J)). intros m c _.
    eapply hoare_bind; [apply Hconcept|]. intros nodeId.
    eapply hoare_bind; [apply Hedge|]. intros ?.
    apply hoare_ret. auto. }
  intros conceptNodeIds.
  eapply hoare_bind with (R := fun _ => J).
  { apply hoare_if; [|apply hoare_ret; auto].
    apply hoare_forEach. intros w _.
    eapply hoare_bind; [apply Hwebhook|]. intros i.
    eapply hoare_bind; [apply required_keep|]. intros nm. apply Hedge. }
  intros ?.
  eapply hoare_bind with (R := fun _ => J).
  { apply hoare_if; [|apply hoare_ret; auto].
    apply hoare_forEach. intros w _.
    eapply hoare_bind; [apply Hkb|]. intros i.
    eapply hoare_bind; [apply required_keep|]. intros nm.
    eapply hoare_bind; [apply joinOr_keep|]. intros ?. apply Hedge. }
  intros ?.
  eapply hoare_bind with (R := fun _ => J).
  { apply hoare_if; [|apply hoare_ret; auto].
    apply hoare_forEach. intros w _.
    eapply hoare_bind; [apply Htransfer|]. intros i.
    eapply hoare_bind; [apply required_keep|]. intros nm.
    eapply hoare_bind; [apply joinOr_keep|]. intros ?. apply Hedge. }
  intros ?.
  eapply hoare_bind; [apply Hres|]. intros resolutionId.
  eapply hoare_bind; [apply Hcomp|]. intros completionId.
  eapply hoare_bind with (R := fun _ => J).
  { apply hoare_forEach. intros entry _. apply Hedge. }
  intros ?.
  eapply hoare_bind with (R := fun _ => J).
  { apply hoare_if; [|apply hoare_ret; auto].
    eapply hoare_bind; [apply getNodes_keep|]. intros allNodes.
    apply hoare_forEach. intros nodeId _. apply Hedge. }
  intros ?.
  eapply hoare_bind; [apply getDomain_keep|]. intros dom.
  eapply hoare_bind; [apply Hedge|]. intros ?.
  eapply hoare_bind; [apply Hedge|]. intros ?.
  eapply hoare_bind; [apply hoare_getNodes|]. intros ns.
  eapply hoare_bind; [apply hoare_getEdges|]. intros es.
  apply hoare_ret. intros b [-> [-> HJ]]. split; [exact HJ | reflexivity].
Qed.

Ltac numbered_node :=
  let b := fresh "b" in let i := fresh "i" in let b' := fresh "b'" in
  let Hrun := fresh "Hrun" in
  intros b i b' [Hd [Hn He]] Hrun; run_builder Hrun;
  split; [exact eq_refl|]; cbn [nodes edges nodeCount edgeCount domain] in *;
  split; [|exact He];
  rewrite seq_snoc; apply Forall2_app; [exact Hn|];
  constructor; [apply numbered_numberedId | constructor].

Lemma NumberedB_hub (dom : string) (cs : list Concept) :
  hoare (NumberedB dom) (createDomainSpecificHub cs) (fun _ => NumberedB dom).
Proof. numbered_node. Qed.

Lemma NumberedB_kept (dom : string) : keptByConstructors (NumberedB dom).
Proof.
  split.
  - intros c args. numbered_node.
  - intros w. numbered_node.
  - intros k. numbered_node.
  - intros t. numbered_node.
  - numbered_node.
  - numbered_node.
  - intros s t c d b i b' [Hd [Hn He]] Hrun. run_builder Hrun.
    split; [reflexivity|].
    cbn [nodes edges nodeCount edgeCount domain] in *.
    split; [exact Hn|].
    now rewrite map_app, He, seq_snoc, map_app.
Qed.

(** X17. The ids of an assembled graph follow the order of creation:
    the id of the j-th node ends in [_j], and the j-th edge has the id
    [<prefix>_edge_<j>] for one prefix common to all edges, so the edge
    ids are pairwise distinct, as the node ids are.  For an ASCII
    description and name the prefix is the domain with every run of white
    space written as one underscore. *)
Theorem assembled_ids_are_numbered_in_creation_order
  (description : string) (args : Args) (g : Graph) :
  assemble description args = Some g ->
  Forall2 (fun nd j => numbered (id nd) j)
    (g_nodes g) (seq 1 (length (g_nodes g))) /\
  (exists prefix,
     List.map e_id (g_edges g)
     = List.map (numberedId (prefix +:+ "_edge"))
         (seq 1 (length (g_edges g))) /\
     (asciiOnly description = true -> asciiOnly (name args) = true ->
      prefix
      = spacesToUnderscore (extractPrimaryDomain description (name args)))) /\
  List.NoDup (List.map e_id (g_edges g)).
Proof.
  unfold assemble.
  destruct (buildFromDescription description args newBuilder)
    as [[g' b]|] eqn:E; [|discriminate].
  intros Hg. injection Hg as ->.
  set (dom := extractPrimaryDomain description (name args)).
  destruct (buildFromDescription_keeps (NumberedB dom) (NumberedB dom)
              description args) with (b := newBuilder) (a := g) (b' := b)
    as [[Hd [Hn He]] ->];
    [| apply NumberedB_hub | apply NumberedB_kept | reflexivity | exact E |].
  { intros b0 cs b1 -> Hrun. inversion Hrun; subst; clear Hrun.
    repeat split. constructor. }
  cbn [g_nodes g_edges].
  assert (length (nodes b) = nodeCount b) as Hnc.
  { apply Forall2_length in Hn. now rewrite length_seq in Hn. }
  assert (length (edges b) = edgeCount b) as Hec.
  { apply (f_equal (@length _)) in He.
    now rewrite !length_map, length_seq in He. }
  rewrite Hnc, Hec. split; [exact Hn|]. split.
  - exists (spacesToUnderscore dom). split; [exact He | reflexivity].
  - rewrite He. apply numbered_ids_distinct.
Qed.

Lemma assembled_ids_are_numbered_in_creation_order_witness :
  exists g, assemble mixedDescription mixedArgs = Some g /\
  (Forall2 (fun nd j => numbered (id nd) j)
      (g_nodes g) (seq 1 (length (g_nodes g))) /\
    (exists prefix,
       List.map e_id (g_edges g)
       = List.map (numberedId (prefix +:+ "_edge"))
           (seq 1 (length (g_edges g))) /\
       (asciiOnly mixedDescription = true ->
        asciiOnly (name mixedArgs) = true ->
        prefix
        = spacesToUnderscore
            (extractPrimaryDomain mixedDescription (name mixedArgs)))) /\
    List.NoDup (List.map e_id (g_edges g))).
Proof.
  eexists. split; [vm_compute; reflexivity|].
  apply (assembled_ids_are_numbered_in_creation_order mixedDescription mixedArgs).
  vm_compute. reflexivity.
Defined.

End AssemblerNumbering.

(** ** When the assembler raises *)

Section AssemblerFailure.

Local Open Scope build_scope.













End AssemblerFailure.

(** ** Start nodes and End Call nodes *)

Section StartAndEndAssembled.

Local Open Scope build_scope.

Lemma startCount_snoc (ns : list PathwayNode) (nd : PathwayNode) :
  startCount (ns ++ [nd])
  = startCount ns + (if isStart (data nd) then 1 else 0).
Proof.
  unfold startCount, startNodes. rewrite List.filter_app, length_app.
  cbn [List.filter]. now destruct (isStart (data nd)).
Qed.

Lemma endCount_snoc (ns : list PathwayNode) (nd : PathwayNode) :
  endCount (ns ++ [nd])
  = endCount ns + (if NodeType_eqb (type nd) EndCall then 1 else 0).
Proof.
  unfold endCount, nodesOfType. rewrite List.filter_app, length_app.
  cbn [List.filter]. now destruct (NodeType_eqb (type nd) EndCall).
Qed.

Ltac plain_push :=
  let b := fresh "b" in let i := fresh "i" in let b' := fresh "b'" in
  let Hrun := fresh "Hrun" in let H := fresh "H" in
  intros b i b' H Hrun; run_builder Hrun; cbn [nodes] in *;
  rewrite startCount_snoc; cbn; lia.

Lemma one_start_kept :
  keptByConstructors (fun b => startCount (nodes b) = 1).
Proof.
  split.
  - intros c args. plain_push.
  - intros w. plain_push.
  - intros k. plain_push.
  - intros t. plain_push.
  - plain_push.
  - plain_push.
  - intros s t c d b i b' H Hrun. run_builder Hrun. exact H.
Qed.

Lemma assembled_marked (description : string) (args : Args) (g : Graph) :
  assemble description args = Some g ->
  startCount (g_nodes g) = 1 /\ endCount (g_nodes g) = 1.
Proof.
  intros Hg. split.
  - revert Hg. unfold assemble.
    destruct (buildFromDescription description args newBuilder)
      as [[g' b]|] eqn:E; [|discriminate].
    intros Hg. injection Hg as ->.
    destruct (buildFromDescription_keeps
                (fun b => nodes b = []) (fun b => startCount (nodes b) = 1)
                description args)
      with (b := newBuilder) (a := g) (b' := b) as [Hone ->];
      [| | apply one_start_kept | reflexivity | exact E | exact Hone].
    + intros b0 cs b1 -> Hrun. inversion Hrun; subst; clear Hrun. reflexivity.
    + intros cs b0 i b1 Hnil Hrun. run_builder Hrun. cbn [nodes] in *.
      rewrite Hnil. reflexivity.
  - destruct (assemble_shape description args g Hg)
      as (hub & cn & wn & kn & tn & res & comp & Hnodes & HFc & HFw & HFk
          & HFt & [Hhub _] & Hres & Hcomp & _).
    destruct (Forall2_types _ Default _ _
                (fun c n (H : isConceptNodeFor _ c n) => proj1 H) HFc)
      as [Hc _].
    destruct (Forall2_types _ Webhook _ _
                (fun w n (H : isWebhookNodeFor w n) => proj1 H) HFw)
      as [Hw _].
    destruct (Forall2_types _ KnowledgeBase _ _
                (fun k n (H : isKnowledgeBaseNodeFor k n) => proj1 H) HFk)
      as [Hk _].
    destruct (Forall2_types _ TransferNode _ _
                (fun t n (H : isTransferNodeFor t n) => proj1 H) HFt)
      as [Ht _].
    unfold endCount. rewrite Hnodes.
    change (hub :: cn ++ wn ++ kn ++ tn ++ [res; comp])
      with ([hub] ++ cn ++ wn ++ kn ++ tn ++ [res] ++ [comp]).
    rewrite !nodesOfType_app.
    rewrite (nodesOfType_other EndCall Default [hub])
      by (auto; repeat constructor; auto).
    rewrite (nodesOfType_other EndCall Default cn) by auto.
    rewrite (nodesOfType_other EndCall Webhook wn) by auto.
    rewrite (nodesOfType_other EndCall KnowledgeBase kn) by auto.
    rewrite (nodesOfType_other EndCall TransferNode tn) by auto.
    rewrite (nodesOfType_other EndCall Default [res])
      by (auto; repeat constructor; auto).
    rewrite (nodesOfType_same EndCall [comp])
      by (auto; repeat constructor; auto).
    reflexivity.
Qed.

End StartAndEndAssembled.

Section StartAndEnd.

Import Modular.

Lemma addNew_marked (s t : nat) (name : string)
  (chain : ModularNodeBuilder -> ModularNodeBuilder) (st en : bool) :
  (forall i n, isStart (data (buildNode (chain (newNodeBuilder i n)))) = st) ->
  (forall i n,
      NodeType_eqb (type (buildNode (chain (newNodeBuilder i n)))) EndCall
      = en) ->
  hoareM (MarkedM s t) (addNew name chain)
    (fun _ => MarkedM (s + (if st then 1 else 0)) (t + (if en then 1 else 0))).
Proof.
  intros Hst Hen b [Hs Ht].
  unfold addNew, Modular.bind, createNode, addNode. cbn [fst snd].
  unfold MarkedM. cbn [Modular.nodes].
  now rewrite startCount_snoc, endCount_snoc, Hst, Hen, Hs, Ht.
Qed.

Lemma addEdge_marked (s t : nat) (src tgt : option string) (label : string)
  (metadata : option (string * string)) :
  hoareM (MarkedM s t) (addEdge src tgt label metadata) (fun _ => MarkedM s t).
Proof. intros b H. exact H. Qed.

Lemma hoareM_forEachAcc_keep {A S} (I : ModularPathwayBuilder -> Prop)
  (xs : list A) (body : S -> A -> Modular.Build S) :
  (forall acc x, hoareM I (body acc x) (fun _ => I)) ->
  forall acc, hoareM I (Modular.forEachAcc xs acc body) (fun _ => I).
Proof.
  intros Hbody. induction xs as [|x xs IH]; intros acc; simpl.
  - apply hoareM_ret. auto.
  - eapply hoareM_bind; [apply Hbody|]. intros acc'. apply IH.
Qed.

Lemma chainDecisions_marked (s t : nat) (decisionNodes : gmap string string)
  (processorId : string) (points : list string) :
  forall (i : nat) (currentNodeId : option string),
  hoareM (MarkedM s t)
    (chainDecisions decisionNodes processorId i points currentNodeId)
    (fun _ => MarkedM s t).
Proof.
  induction points as [|p rest IH]; intros i cur.
  - apply hoareM_ret. auto.
  - cbn [chainDecisions].
    eapply hoareM_bind; [apply addEdge_marked | intros ?].
    eapply hoareM_bind; [apply addEdge_marked | intros ?].
    apply IH.
Qed.

Lemma build_marked (s t : nat) :
  hoareM (MarkedM s t) Modular.build
    (fun g _ => startCount (g_nodes g) = s /\ endCount (g_nodes g) = t).
Proof. intros b H. exact H. Qed.

Lemma run_marked {A} (m : Modular.Build A) (Q : A -> Prop) :
  hoareM (MarkedM 0 0) m (fun a _ => Q a) -> Q (run m).
Proof. intros H. apply (H Modular.newBuilder). split; reflexivity. Qed.

Ltac mark_node :=
  eapply hoareM_bind;
  [eapply addNew_marked; intros; cbn; reflexivity | intros ?; cbn [Nat.add]].
Ltac mark_edge :=
  eapply hoareM_bind; [apply addEdge_marked | intros ?].
Ltac plain_node :=
  eapply hoareM_bind;
  [eapply hoareM_conseq;
   [eapply (addNew_marked _ _ _ _ false false); intros; cbn; reflexivity
   | intros ? H; exact H
   | intros ? ? H; rewrite !Nat.add_0_r in H; exact H]
  | intros ?].

Lemma sales_marked (args : SalesArgs) :
  startCount (g_nodes (buildEnterpriseSalesPathway args)) = 1 /\
  endCount (g_nodes (buildEnterpriseSalesPathway args)) = 1.
Proof. split; vm_compute; reflexivity. Qed.

Lemma appointment_marked (args : AppointmentArgs) :
  startCount (g_nodes (buildIntelligentAppointmentSystem args)) = 1 /\
  endCount (g_nodes (buildIntelligentAppointmentSystem args)) = 1.
Proof. split; vm_compute; reflexivity. Qed.

Lemma service_marked (args : ServiceArgs) :
  startCount (g_nodes (buildAdvancedCustomerServicePathway args)) = 1 /\
  endCount (g_nodes (buildAdvancedCustomerServicePathway args)) = 1.
Proof.
  unfold buildAdvancedCustomerServicePathway. apply run_marked.
  plain_node. mark_node. plain_node.
  eapply hoareM_bind.
  { apply (hoareM_forEachAcc_keep (MarkedM 1 0)).
    intros acc x. plain_node. apply hoareM_ret. auto. }
  intros specialistNodes. do 2 plain_node. mark_node. mark_edge.
  eapply hoareM_bind.
  { apply (hoareM_forEach (MarkedM 1 1)). intros x _.
    mark_edge. apply hoareM_ret. auto. }
  intros ?. mark_edge.
  eapply hoareM_bind.
  { apply (hoareM_forEach (MarkedM 1 1)). intros x _.
    mark_edge. apply hoareM_ret. auto. }
  intros ?. do 2 mark_edge. apply build_marked.
Qed.

Lemma workflow_marked (args : WorkflowArgs) :
  startCount (g_nodes (buildCustomWorkflowPathway args)) = 1 /\
  endCount (g_nodes (buildCustomWorkflowPathway args)) = 1.
Proof.
  unfold buildCustomWorkflowPathway. apply run_marked.
  plain_node. mark_node.
  eapply hoareM_bind with (R := fun _ => MarkedM 1 0).
  { apply hoareM_if; [|apply hoareM_ret; auto].
    apply (hoareM_forEachAcc_keep (MarkedM 1 0)).
    intros acc x. plain_node. apply hoareM_ret. auto. }
  intros decisionNodes. plain_node.
  eapply hoareM_bind with (R := fun _ => MarkedM 1 0).
  { apply hoareM_if; [|apply hoareM_ret; auto].
    plain_node. apply hoareM_ret. auto. }
  intros ?. plain_node. mark_node.
  eapply hoareM_bind with (R := fun _ => MarkedM 1 1).
  { apply hoareM_if; [apply chainDecisions_marked|].
    mark_edge. apply hoareM_ret. auto. }
  intros ?. do 2 mark_edge. apply build_marked.
Qed.

(** X19. Every generated graph has exactly one start node and exactly
    one End Call node: the graphs of the assembler and of the four
    templates, for every input. *)
Theorem generated_graphs_have_one_start_and_one_end :
  (forall description args g,
      assemble description args = Some g ->
      startCount (g_nodes g) = 1 /\ endCount (g_nodes g) = 1) /\
  (forall args,
      startCount (g_nodes (buildEnterpriseSalesPathway args)) = 1 /\
      endCount (g_nodes (buildEnterpriseSalesPathway args)) = 1) /\
  (forall args,
      startCount (g_nodes (buildAdvancedCustomerServicePathway args)) = 1 /\
      endCount (g_nodes (buildAdvancedCustomerServicePathway args)) = 1) /\
  (forall args,
      startCount (g_nodes (buildIntelligentAppointmentSystem args)) = 1 /\
      endCount (g_nodes (buildIntelligentAppointmentSystem args)) = 1) /\
  (forall args,
      startCount (g_nodes (buildCustomWorkflowPathway args)) = 1 /\
      endCount (g_nodes (buildCustomWorkflowPathway args)) = 1).
Proof.
  split; [exact assembled_marked|]. split; [exact sales_marked|].
  split; [exact service_marked|]. split; [exact appointment_marked|].
  exact workflow_marked.
Qed.

End StartAndEnd.

(** ** Letter case and the concept extractor *)

Section ExtractorFacts.

(** X20. The concept extractor ignores letter case: two descriptions
    (and names) that differ only in the case of their letters get the same
    domain, the same purpose and the same concept list. *)
Theorem concept_extractor_ignores_letter_case
  (description1 description2 name1 name2 : string) :
  toLowerCase description1 = toLowerCase description2 ->
  toLowerCase name1 = toLowerCase name2 ->
  extractPrimaryDomain description1 name1
  = extractPrimaryDomain description2 name2 /\
  extractPrimaryPurpose description1 = extractPrimaryPurpose description2 /\
  forall domain,
    extractDomainSpecificConcepts description1 domain
    = extractDomainSpecificConcepts description2 domain.
Proof.
  intros Hd Hn. split; [|split].
  - unfold extractPrimaryDomain.
    assert (toLowerCase (description1 +:+ " " +:+ name1)
            = toLowerCase (description2 +:+ " " +:+ name2)) as ->.
    { unfold toLowerCase in *. rewrite !map_string_append.
      now rewrite Hd, Hn. }
    reflexivity.
  - unfold extractPrimaryPurpose. now rewrite Hd.
  - intros domain. rewrite !extractDomainSpecificConcepts_unfold.
    now rewrite Hd.
Qed.

Lemma concept_extractor_ignores_letter_case_witness :
  extractPrimaryDomain "URGENT: Health Insurance for my Family" "Quote Line"
  = extractPrimaryDomain "urgent: health insurance for my family" "quote line"
  /\ extractPrimaryPurpose "URGENT: Health Insurance for my Family"
     = extractPrimaryPurpose "urgent: health insurance for my family"
  /\ forall domain,
       extractDomainSpecificConcepts
         "URGENT: Health Insurance for my Family" domain
       = extractDomainSpecificConcepts
           "urgent: health insurance for my family" domain.
Proof.
  apply (concept_extractor_ignores_letter_case
           "URGENT: Health Insurance for my Family"
           "urgent: health insurance for my family"
           "Quote Line" "quote line"); reflexivity.
Defined.

(** X21. Whatever the description and the domain, the concept list is
    sorted by ascending priority, names no concept type twice and is drawn
    from the eight concepts of the rules, so it has at most eight
    entries. *)
Theorem extracted_concepts_are_sorted_and_distinct (description domain : string) :
  let concepts := extractDomainSpecificConcepts description domain in
  StronglySorted byPriority concepts /\
  List.NoDup (List.map c_type concepts) /\
  incl concepts allConcepts /\
  length concepts <= 8.
Proof.
  cbv zeta.
  assert (List.NoDup (extractDomainSpecificConcepts description domain))
    as Hnodup.
  { apply (NoDup_map_inv c_type). apply extracted_types_distinct. }
  assert (incl (extractDomainSpecificConcepts description domain) allConcepts)
    as Hincl by (intros c; apply extracted_is_known).
  split; [|split; [|split]].
  - rewrite extractDomainSpecificConcepts_unfold. apply sortByPriority_sorted.
  - apply extracted_types_distinct.
  - exact Hincl.
  - change 8 with (length allConcepts).
    now apply List.NoDup_incl_length.
Qed.

End ExtractorFacts.

(** ** The custom workflow as the tool handler builds it *)

Section WorkflowHandler.

Import Modular.

Lemma one_start_is_second (h s : PathwayNode) (rest : list PathwayNode) :
  isStart (data h) = false -> isStart (data s) = true ->
  startCount (h :: s :: rest) = 1 -> startNodes (h :: s :: rest) = [s].
Proof.
  unfold startCount, startNodes. intros Hh Hs. cbn [List.filter].
  rewrite Hh, Hs. cbn [length].
  destruct (List.filter _ rest); [reflexivity | discriminate].
Qed.

Lemma addNew_prefix (l : list PathwayNode) (name : string)
  (chain : ModularNodeBuilder -> ModularNodeBuilder) :
  hoareM (PrefixM l) (addNew name chain) (fun _ => PrefixM l).
Proof.
  intros b [rest Hb].
  unfold addNew, Modular.bind, createNode, addNode. cbn [fst snd].
  unfold PrefixM. cbn [Modular.nodes]. rewrite Hb.
  eexists. now rewrite <- app_assoc.
Qed.

Lemma addEdge_prefix (l : list PathwayNode) (src tgt : option string)
  (label : string) (metadata : option (string * string)) :
  hoareM (PrefixM l) (addEdge src tgt label metadata) (fun _ => PrefixM l).
Proof. intros b H. exact H. Qed.

Lemma chainDecisions_prefix (l : list PathwayNode)
  (decisionNodes : gmap string string) (processorId : string)
  (points : list string) :
  forall (i : nat) (currentNodeId : option string),
  hoareM (PrefixM l)
    (chainDecisions decisionNodes processorId i points currentNodeId)
    (fun _ => PrefixM l).
Proof.
  induction points as [|p rest IH]; intros i cur.
  - apply hoareM_ret. auto.
  - cbn [chainDecisions].
    eapply hoareM_bind; [apply addEdge_prefix | intros ?].
    eapply hoareM_bind; [apply addEdge_prefix | intros ?].
    apply IH.
Qed.

Ltac keep_node := eapply hoareM_bind; [apply addNew_prefix | intros ?].
Ltac keep_edge := eapply hoareM_bind; [apply addEdge_prefix | intros ?].

Lemma addNew_first (ns : list PathwayNode) (n : nat) (name : string)
  (chain : ModularNodeBuilder -> ModularNodeBuilder) :
  hoareM (fun b => Modular.nodes b = ns /\ Modular.nodeCount b = n)
    (addNew name chain)
    (fun _ b =>
       Modular.nodes b
       = ns ++ [buildNode
                  (chain (newNodeBuilder (numberedId "node" (S n)) name))] /\
       Modular.nodeCount b = S n).
Proof.
  intros b [Hns Hn].
  unfold addNew, Modular.bind, createNode, addNode. cbn [fst snd].
  cbn [Modular.nodes Modular.nodeCount]. now rewrite Hns, Hn.
Qed.

Lemma run_from_new {A} (m : Modular.Build A) (Q : A -> Prop) :
  hoareM (fun b => Modular.nodes b = [] /\ Modular.nodeCount b = 0) m
    (fun a _ => Q a) ->
  Q (run m).
Proof. intros H. apply (H Modular.newBuilder). split; reflexivity. Qed.

(** The first two nodes of the custom workflow: the help node and the
    entry node, which carries the variables. *)
Lemma workflow_first_nodes (args : WorkflowArgs) :
  exists help entry rest,
    g_nodes (buildCustomWorkflowPathway args) = help :: entry :: rest /\
    isStart (data help) = false /\ isStart (data entry) = true /\
    extractVars (data entry)
    = Some (match required_data_points args with
            | Some points => dataPointVars 0 points
            | None =>
                [ var4 "workflow_intent" "string"
                    "Purpose of workflow interaction" true;
                  var4 "customer_context" "string"
                    "Customer context or background" false ]
            end).
Proof.
  unfold buildCustomWorkflowPathway. apply run_from_new.
  eapply hoareM_bind; [apply addNew_first | intros helpNodeId].
  eapply hoareM_bind; [apply addNew_first | intros entryId].
  cbn [List.app].
  match goal with
  | |- hoareM (fun b => Modular.nodes b = ?l /\ _) _ _ =>
      set (L := l);
      apply hoareM_conseq with
        (P := PrefixM L)
        (Q := fun g _ => exists rest, g_nodes g = L ++ rest)
  end.
  - eapply hoareM_bind with (R := fun _ => PrefixM L).
    { apply hoareM_if; [|apply hoareM_ret; auto].
      apply (hoareM_forEachAcc_keep (PrefixM L)).
      intros acc x. keep_node. apply hoareM_ret. auto. }
    intros decisionNodes. keep_node.
    eapply hoareM_bind with (R := fun _ => PrefixM L).
    { apply hoareM_if; [|apply hoareM_ret; auto].
      keep_node. apply hoareM_ret. auto. }
    intros ?. do 2 keep_node.
    eapply hoareM_bind with (R := fun _ => PrefixM L).
    { apply hoareM_if; [apply chainDecisions_prefix|].
      keep_edge. apply hoareM_ret. auto. }
    intros ?. do 2 keep_edge.
    intros b [rest Hb]. exists rest. exact Hb.
  - intros b [Hb _]. exists []. now rewrite app_nil_r.
  - intros g _ [rest Hg]. do 2 eexists. exists rest.
    split; [exact Hg|]. repeat split.
Qed.

Lemma dataPointVars_names (i : nat) (points : list string) :
  List.map ev_name (dataPointVars i points) = List.map dataPointName points /\
  List.map ev_description (dataPointVars i points) = points /\
  List.map ev_required (dataPointVars i points)
  = List.map (fun j => Some (j <? 3)) (seq i (length points)).
Proof.
  revert i. induction points as [|p points IH]; intros i; simpl;
    [repeat split|].
  destruct (IH (S i)) as [-> [-> ->]]. repeat split.
Qed.

(** X22. The custom workflow as the tool handler builds it from a list
    of data points given as ASCII text.  Its one start node is the second
    node of the graph, and it extracts exactly one variable per listed
    data point: named by the point in lower case with every run of white
    space written as one underscore, described by the point itself,
    required for the first three points and optional for the others.
    Without data points the start node extracts no variable. *)
Theorem workflow_start_node_collects_the_data_points
  (name workflow_description : string)
  (required_data_points decision_points : option string)
  (enable_global_fallbacks : bool) :
  (forall text, required_data_points = Some text -> asciiOnly text = true) ->
  let points := listArgument required_data_points in
  let g := buildCustomWorkflowPathway
             (customWorkflowArgs name workflow_description
                required_data_points decision_points
                enable_global_fallbacks) in
  exists entry vars,
    startNodes (g_nodes g) = [entry] /\
    nth_error (g_nodes g) 1 = Some entry /\
    extractVars (data entry) = Some vars /\
    List.map ev_name vars = List.map dataPointName points /\
    List.map ev_description vars = points /\
    List.map ev_required vars
    = List.map (fun j => Some (j <? 3)) (seq 0 (length points)).
Proof.
  intros _. cbv zeta.
  set (args := customWorkflowArgs name workflow_description
                 required_data_points decision_points
                 enable_global_fallbacks).
  destruct (workflow_first_nodes args)
    as (help & entry & rest & Hnodes & Hhelp & Hentry & Hvars).
  destruct (workflow_marked args) as [Hone _].
  exists entry, (dataPointVars 0 (listArgument required_data_points)).
  rewrite Hnodes in *.
  split; [|split; [reflexivity|split; [exact Hvars|]]].
  - exact (one_start_is_second help entry rest Hhelp Hentry Hone).
  - apply dataPointVars_names.
Qed.

Lemma workflow_start_node_collects_the_data_points_witness :
  let points := listArgument (Some "Order Number, email,  Postal   code ") in
  let g := buildCustomWorkflowPathway
             (customWorkflowArgs "Returns" returnsDescription
                (Some "Order Number, email,  Postal   code ")
                (Some "refund, exchange") true) in
  exists entry vars,
    startNodes (g_nodes g) = [entry] /\
    nth_error (g_nodes g) 1 = Some entry /\
    extractVars (data entry) = Some vars /\
    List.map ev_name vars = List.map dataPointName points /\
    List.map ev_description vars = points /\
    List.map ev_required vars
    = List.map (fun j => Some (j <? 3)) (seq 0 (length points)).
Proof.
  apply (workflow_start_node_collects_the_data_points
           "Returns" returnsDescription
           (Some "Order Number, email,  Postal   code ")
           (Some "refund, exchange") true).
  intros text [= <-]. reflexivity.
Defined.

End WorkflowHandler.

(** ** Reachability in the customer-service graph *)

Section ServiceReachability.

Import Modular.

Lemma hoareM_assume_eq {A B} (x y : A) (P : ModularPathwayBuilder -> Prop)
  (m : Modular.Build B) (Q : B -> ModularPathwayBuilder -> Prop) :
  (x = y -> hoareM P m Q) -> hoareM (fun b => x = y /\ P b) m Q.
Proof. intros H b [Heq HP]. exact (H Heq b HP). Qed.

Lemma addNew_exact (ns : list PathwayNode) (es : list PathwayEdge) (n e : nat)
  (name : string) (chain : ModularNodeBuilder -> ModularNodeBuilder) :
  keepsId chain ->
  hoareM (StM ns es n e) (addNew name chain)
    (fun i b =>
       i = numberedId "node" (S n) /\
       StM (ns ++ [buildNode
                     (chain (newNodeBuilder (numberedId "node" (S n)) name))])
         es (S n) e b).
Proof.
  intros Hchain b [Hns [Hes [Hn He]]].
  unfold addNew, Modular.bind, createNode, addNode. cbn [fst snd].
  unfold StM. cbn [Modular.nodes Modular.edges Modular.nodeCount
                   Modular.edgeCount].
  rewrite Hns, Hes, Hn, He. split; [|repeat split].
  unfold buildNode. cbn [id]. now rewrite Hchain.
Qed.

Lemma addEdge_exact (ns : list PathwayNode) (es : list PathwayEdge) (n e : nat)
  (src tgt : option string) (label : string)
  (metadata : option (string * string)) :
  hoareM (StM ns es n e) (addEdge src tgt label metadata)
    (fun _ b =>
       StM ns (es ++ [buildEdge (numberedId "edge" (S e)) src tgt label
                        metadata])
         n (S e) b).
Proof.
  intros b [Hns [Hes [Hn He]]]. unfold addEdge. cbn [fst snd].
  unfold StM. cbn [Modular.nodes Modular.edges Modular.nodeCount
                   Modular.edgeCount].
  now rewrite Hns, Hes, Hn, He.
Qed.

(** The loop that fills a dictionary with one new node per key: with
    pairwise distinct keys, none of them [__proto__], every key ends up
    bound to the id of its own node. *)
Lemma dictionary_loop_exact (name : string -> string)
  (chain : string -> ModularNodeBuilder -> ModularNodeBuilder)
  (xs : list string) :
  (forall x, keepsId (chain x)) ->
  List.NoDup xs ->
  ~ In "__proto__" xs ->
  forall (m : gmap string string) ns es n e,
  hoareM (StM ns es n e)
    (Modular.forEachAcc xs m
       (fun acc x => Modular.bind (addNew (name x) (chain x))
                       (fun i => Modular.ret (objSet x i acc))))
    (fun m' b => exists news,
         StM (ns ++ news) es (length xs + n) e b /\
         Forall2 (fun x nd =>
                    objGet x m' = Some (id nd) /\
                    exists i, nd = buildNode
                                     (chain x (newNodeBuilder i (name x))))
           xs news /\
         forall k, ~ In k xs -> m' !! k = m !! k).
Proof.
  intros Hchain Hnd. induction Hnd as [|x xs Hfresh Hnd IH];
    intros Hnp m ns es n e.
  - apply hoareM_ret. intros b Hb. exists []. rewrite app_nil_r.
    split; [exact Hb|]. split; [constructor | auto].
  - assert (x <> "__proto__") as Hx by (intros ->; apply Hnp; now left).
    assert (~ In "__proto__" xs) as Hnp' by (intros H; apply Hnp; now right).
    specialize (IH Hnp').
    cbn [Modular.forEachAcc].
    set (nd0 := buildNode
                  (chain x (newNodeBuilder (numberedId "node" (S n)) (name x)))).
    eapply hoareM_bind with
      (R := fun acc' b =>
              acc' = <[x := id nd0]> m /\ StM (ns ++ [nd0]) es (S n) e b).
    { eapply hoareM_bind; [apply addNew_exact; apply Hchain|].
      intros i. apply hoareM_ret. intros b [-> Hb]. split; [|exact Hb].
      rewrite objSet_other by exact Hx.
      subst nd0. unfold buildNode. cbn [id]. now rewrite Hchain. }
    intros acc'. apply hoareM_assume_eq. intros ->.
    eapply hoareM_conseq; [apply IH | intros b Hb; exact Hb |].
    intros m' b [news [HSt [HF Hkeep]]].
    exists (nd0 :: news). rewrite <- app_assoc in HSt. cbn [List.app] in HSt.
    split; [|split].
    + cbn [length]. now rewrite Nat.add_succ_r in HSt.
    + constructor; [|exact HF]. split.
      * rewrite objGet_other by exact Hx.
        rewrite (Hkeep x Hfresh). apply lookup_insert_eq.
      * eexists. reflexivity.
    + intros k Hk. rewrite Hkeep by (intros Hin; apply Hk; now right).
      apply lookup_insert_ne. intros ->. apply Hk. now left.
Qed.

(** A loop that adds one edge per element. *)
Lemma edges_loop_exact {A} (src tgt : A -> option string)
  (label : A -> string) (metadata : A -> option (string * string))
  (xs : list A) :
  forall ns es n e,
  hoareM (StM ns es n e)
    (Modular.forEach xs
       (fun x => Modular.bind (addEdge (src x) (tgt x) (label x) (metadata x))
                   (fun _ => Modular.ret tt)))
    (fun _ b => exists es',
         StM ns (es ++ es') n (length xs + e) b /\
         Forall2 (fun x edge => source edge = src x /\ target edge = tgt x)
           xs es').
Proof.
  induction xs as [|x xs IH]; intros ns es n e.
  - apply hoareM_ret. intros b Hb. exists []. rewrite app_nil_r.
    split; [exact Hb | constructor].
  - cbn [Modular.forEach].
    eapply hoareM_bind with
      (R := fun _ =>
              StM ns (es ++ [buildEdge (numberedId "edge" (S e)) (src x)
                               (tgt x) (label x) (metadata x)]) n (S e)).
    { eapply hoareM_bind; [apply addEdge_exact|].
      intros ?. apply hoareM_ret. intros b H. exact H. }
    intros ?.
    eapply hoareM_conseq; [apply IH | intros b Hb; exact Hb |].
    intros ? b [es' [HSt HF]].
    eexists (_ :: es'). rewrite <- app_assoc in HSt. cbn [List.app] in HSt.
    split; [cbn [length]; rewrite Nat.add_succ_r in HSt; exact HSt|].
    constructor; [|exact HF]. split; reflexivity.
Qed.

Lemma hoareM_ex {A B} (P : A -> ModularPathwayBuilder -> Prop)
  (m : Modular.Build B) (Q : B -> ModularPathwayBuilder -> Prop) :
  (forall x, hoareM (P x) m Q) -> hoareM (fun b => exists x, P x b) m Q.
Proof. intros H b [x HP]. exact (H x b HP). Qed.

Lemma run_exact {A} (m : Modular.Build A) (Q : A -> Prop) :
  hoareM (StM [] [] 0 0) m (fun a _ => Q a) -> Q (run m).
Proof. intros H. apply (H Modular.newBuilder). repeat split. Qed.

Lemma build_exact (ns : list PathwayNode) (es : list PathwayEdge) (n e : nat) :
  hoareM (StM ns es n e) Modular.build (fun g _ => g = mkGraph ns es).
Proof. intros b [Hns [Hes _]]. unfold Modular.build. cbn. now rewrite Hns, Hes. Qed.

Lemma Forall2_join {A B C} (R : A -> B -> Prop) (S : A -> C -> Prop)
  (T : B -> C -> Prop) (xs : list A) (ys : list B) (zs : list C) :
  (forall x y z, R x y -> S x z -> T y z) ->
  Forall2 R xs ys -> Forall2 S xs zs -> Forall2 T ys zs.
Proof.
  intros H HR. revert zs. induction HR as [|x y xs ys Hxy _ IH]; intros zs HS;
    inversion HS; subst; constructor; eauto.
Qed.

Ltac exact_node :=
  eapply hoareM_bind;
  [apply addNew_exact; intros ?; reflexivity
  |intros ?; apply hoareM_assume_eq; intros ->].
Ltac exact_edge :=
  eapply hoareM_bind; [apply addEdge_exact | intros ?].

(** The customer-service graph for pairwise distinct service types, none
    of them [__proto__]. *)
Lemma service_graph_shape (args : ServiceArgs) :
  List.NoDup (service_types args) ->
  ~ In "__proto__" (service_types args) ->
  exists esc hub cls specs kb sat comp e1 E1 e2 E2 e3 e4,
    g_nodes (buildAdvancedCustomerServicePathway args)
    = [esc; hub; cls] ++ specs ++ [kb; sat; comp] /\
    g_edges (buildAdvancedCustomerServicePathway args)
    = [e1] ++ E1 ++ [e2] ++ E2 ++ [e3; e4] /\
    isStart (data esc) = false /\ isStart (data hub) = true /\
    isGlobal (data esc) = true /\ type comp = EndCall /\
    length specs = length (service_types args) /\
    connects e1 (id hub) (id cls) /\
    Forall2 (fun nd e => connects e (id cls) (id nd)) specs E1 /\
    connects e2 (id cls) (id kb) /\
    Forall2 (fun nd e => connects e (id nd) (id sat)) specs E2 /\
    connects e3 (id kb) (id sat) /\ connects e4 (id sat) (id comp).
Proof.
  intros Hnd Hnp. unfold buildAdvancedCustomerServicePathway. apply run_exact.
  do 3 exact_node.
  eapply hoareM_bind.
  { apply (dictionary_loop_exact
             (fun serviceType => capitalize serviceType +:+ " Specialist")
             (fun serviceType nb =>
                withVariableExtraction
                  [ var4 (serviceType +:+ "_details") "string"
                      ("Specific " +:+ serviceType +:+ " issue details") true;
                    var4 (serviceType +:+ "_resolution_preference") "string"
                      "Preferred resolution method" false ]
                  (withCondition ("Issue classified as " +:+ serviceType) nb))
             (service_types args));
      [intros x nb; reflexivity | exact Hnd | exact Hnp]. }
  intros specialistNodes. apply hoareM_ex. intros specs.
  apply hoareM_assume. intros [Hspecs _].
  do 3 exact_node. exact_edge.
  eapply hoareM_bind.
  { apply (edges_loop_exact
             (fun _ => Some (numberedId "node" 3))
             (fun serviceType => objGet serviceType specialistNodes)). }
  intros ?. apply hoareM_ex. intros E1. apply hoareM_assume. intros HE1.
  exact_edge.
  eapply hoareM_bind.
  { apply (edges_loop_exact
             (fun serviceType => objGet serviceType specialistNodes)
             (fun _ => Some (numberedId "node"
                               (S (S (length (service_types args) + 3)))))). }
  intros ?. apply hoareM_ex. intros E2. apply hoareM_assume. intros HE2.
  do 2 exact_edge.
  eapply hoareM_conseq; [apply build_exact | intros b Hb; exact Hb |].
  intros g _ ->. cbn [g_nodes g_edges].
  do 3 eexists. exists specs. do 3 eexists. eexists. exists E1.
  eexists. exists E2. do 2 eexists.
  split; [repeat rewrite <- app_assoc; reflexivity|].
  split; [repeat rewrite <- app_assoc; reflexivity|].
  do 4 (split; [reflexivity|]).
  split; [symmetry; eapply Forall2_length; exact Hspecs|].
  split; [split; reflexivity|].
  split.
  { eapply Forall2_join; [|exact Hspecs|exact HE1].
    intros x nd e [Hx _] [Hs Ht]. split; [exact Hs | now rewrite Ht, Hx]. }
  split; [split; reflexivity|].
  split.
  { eapply Forall2_join; [|exact Hspecs|exact HE2].
    intros x nd e [Hx _] [Hs Ht]. split; [now rewrite Hs, Hx | exact Ht]. }
  split; split; reflexivity.
Qed.

Lemma Forall2_In_first {A B} (R : A -> B -> Prop) (xs : list A)
  (ys : list B) (x : A) :
  Forall2 R xs ys -> In x xs -> exists y, In y ys /\ R x y.
Proof.
  induction 1 as [|a b xs ys Hab _ IH]; intros Hin; [destruct Hin|].
  destruct Hin as [->|Hin]; [exists b; split; [now left | exact Hab]|].
  destruct (IH Hin) as [y [Hy HR]]. exists y. split; [now right | exact HR].
Qed.

(** X23. The customer-service graph for pairwise distinct service
    types, none of which is [__proto__].  It has one start node; every
    node that is not global lies on a path from the start node to the End
    Call node, which is the last node of the graph: the classification
    node leads to one specialist node per service type and to the
    knowledge-base node, and all of them lead on to the satisfaction
    survey. *)
Theorem customer_service_nodes_lie_on_a_path_to_the_end
  (args : ServiceArgs) :
  List.NoDup (service_types args) ->
  ~ In "__proto__" (service_types args) ->
  let g := buildAdvancedCustomerServicePathway args in
  exists start terminal,
    startNodes (g_nodes g) = [start] /\
    List.last (g_nodes g) start = terminal /\ type terminal = EndCall /\
    forall n, In n (g_nodes g) -> isGlobal (data n) = false ->
      reachable (g_edges g) (id start) (id n) /\
      reachable (g_edges g) (id n) (id terminal).
Proof.
  intros Hnd Hnp. cbv zeta.
  destruct (service_graph_shape args Hnd Hnp)
    as (esc & hub & cls & specs & kb & sat & comp & e1 & E1 & e2 & E2 & e3
        & e4 & Hnodes & Hedges & Hesc & Hhub & Hglobal & Hend & Hlen & Hc1
        & HE1 & Hc2 & HE2 & Hc3 & Hc4).
  destruct (service_marked args) as [Hone _].
  set (g := buildAdvancedCustomerServicePathway args) in *.
  exists hub, comp. split; [|split; [|split; [exact Hend|]]].
  - rewrite Hnodes in Hone |- *.
    exact (one_start_is_second esc hub _ Hesc Hhub Hone).
  - rewrite Hnodes.
    replace ([esc; hub; cls] ++ specs ++ [kb; sat; comp])
      with (([esc; hub; cls] ++ specs ++ [kb; sat]) ++ [comp])
      by (now rewrite <- !app_assoc).
    apply List.last_last.
  - assert (forall a b e, In e (g_edges g) -> connects e a b ->
              reachable (g_edges g) a b) as Hstep.
    { intros a b e He Hc. apply reachable_one. now exists e. }
    assert (In e1 (g_edges g) /\ In e2 (g_edges g) /\ In e3 (g_edges g)
            /\ In e4 (g_edges g)) as [H1 [H2 [H3 H4]]].
    { rewrite Hedges. repeat split.
      - now left.
      - apply in_or_app. right. apply in_or_app. right. now left.
      - do 4 (apply in_or_app; right). now left.
      - do 4 (apply in_or_app; right). right. now left. }
    assert (incl E1 (g_edges g) /\ incl E2 (g_edges g)) as [HI1 HI2].
    { rewrite Hedges. split; intros e He.
      - apply in_or_app. right. apply in_or_app. now left.
      - do 3 (apply in_or_app; right). apply in_or_app. now left. }
    pose proof (Hstep _ _ _ H1 Hc1) as Rhub_cls.
    pose proof (Hstep _ _ _ H2 Hc2) as Rcls_kb.
    pose proof (Hstep _ _ _ H3 Hc3) as Rkb_sat.
    pose proof (Hstep _ _ _ H4 Hc4) as Rsat_comp.
    pose proof (reachable_trans _ _ _ _ Rkb_sat Rsat_comp) as Rkb_comp.
    pose proof (reachable_trans _ _ _ _ Rcls_kb Rkb_comp) as Rcls_comp.
    pose proof (reachable_trans _ _ _ _ Rhub_cls Rcls_kb) as Rhub_kb.
    pose proof (reachable_trans _ _ _ _ Rhub_kb Rkb_sat) as Rhub_sat.
    intros n Hn Hng. rewrite Hnodes in Hn.
    apply in_app_or in Hn as [Hn|Hn];
      [|apply in_app_or in Hn as [Hn|Hn]].
    + cbn [In] in Hn. destruct Hn as [<-|[<-|[<-|[]]]].
      * congruence.
      * split; [apply reach_here|].
        exact (reachable_trans _ _ _ _ Rhub_cls Rcls_comp).
      * split; [exact Rhub_cls | exact Rcls_comp].
    + destruct (Forall2_In_first _ _ _ _ HE1 Hn) as [ea [Hea Hca]].
      destruct (Forall2_In_first _ _ _ _ HE2 Hn) as [eb [Heb Hcb]].
      split.
      * exact (reachable_trans _ _ _ _ Rhub_cls
                 (Hstep _ _ _ (HI1 _ Hea) Hca)).
      * exact (reachable_trans _ _ _ _
                 (Hstep _ _ _ (HI2 _ Heb) Hcb) Rsat_comp).
    + cbn [In] in Hn. destruct Hn as [<-|[<-|[<-|[]]]].
      * split; [exact Rhub_kb | exact Rkb_comp].
      * split; [exact Rhub_sat | exact Rsat_comp].
      * split; [|apply reach_here].
        exact (reachable_trans _ _ _ _ Rhub_sat Rsat_comp).
Qed.

Lemma customer_service_nodes_lie_on_a_path_to_the_end_witness :
  let g := buildAdvancedCustomerServicePathway
             (customerServiceArgs "Acme" "billing, technical" None None) in
  exists start terminal,
    startNodes (g_nodes g) = [start] /\
    List.last (g_nodes g) start = terminal /\ type terminal = EndCall /\
    forall n, In n (g_nodes g) -> isGlobal (data n) = false ->
      reachable (g_edges g) (id start) (id n) /\
      reachable (g_edges g) (id n) (id terminal).
Proof.
  apply (customer_service_nodes_lie_on_a_path_to_the_end
           (customerServiceArgs "Acme" "billing, technical" None None)).
  - vm_compute. repeat constructor; simpl; intuition discriminate.
  - vm_compute. intuition discriminate.
Defined.

(** *** The custom workflow graph *)

Lemma linked_incl (cur : string) (ds : list string) (proc : string)
  (es es' : list PathwayEdge) :
  incl es es' -> linked cur ds proc es -> linked cur ds proc es'.
Proof.
  intros Hincl. revert cur. induction ds as [|d rest IH]; intros cur; [auto|].
  cbn [linked]. intros [[e [He Hc]] Hrest]. split; [exists e; auto|].
  destruct rest as [|d' rest'].
  - destruct Hrest as [e' [He' Hc']]. exists e'. auto.
  - now apply IH.
Qed.

Lemma linked_reaches (cur : string) (ds : list string) (proc : string)
  (es : list PathwayEdge) :
  ds <> [] -> linked cur ds proc es ->
  reachable es cur proc /\
  forall d, In d ds -> reachable es cur d /\ reachable es d proc.
Proof.
  revert cur. induction ds as [|d rest IH]; intros cur Hne; [contradiction|].
  cbn [linked]. intros [Hfirst Hrest].
  pose proof (reachable_one es cur d Hfirst) as Rcur.
  destruct rest as [|d' rest'].
  - pose proof (reachable_one es d proc Hrest) as Rd.
    split; [exact (reachable_trans _ _ _ _ Rcur Rd)|].
    intros x [<-|[]]. split; assumption.
  - destruct (IH d ltac:(discriminate) Hrest) as [Rproc Hall].
    split; [exact (reachable_trans _ _ _ _ Rcur Rproc)|].
    intros x [<-|Hx]; [split; assumption|].
    destruct (Hall x Hx) as [R1 R2].
    split; [exact (reachable_trans _ _ _ _ Rcur R1) | exact R2].
Qed.

(** The chain loop links the current node through the decision nodes to
    the processor. *)
Lemma chainDecisions_exact (decisionNodes : gmap string string)
  (processorId : string) (points ds : list string) :
  Forall2 (fun p d => objGet p decisionNodes = Some d) points ds ->
  forall (i : nat) (cur : string) ns es n e,
  hoareM (StM ns es n e)
    (chainDecisions decisionNodes processorId i points (Some cur))
    (fun _ b => exists es',
         StM ns (es ++ es') n (2 * length points + e) b /\
         linked cur ds processorId es').
Proof.
  induction 1 as [|p d points ds Hp HF IH]; intros i cur ns es n e.
  - apply hoareM_ret. intros b Hb. exists []. rewrite app_nil_r.
    split; [exact Hb | exact I].
  - cbn [chainDecisions]. rewrite Hp.
    set (next := match points with
                 | next :: _ => objGet next decisionNodes
                 | [] => Some processorId
                 end).
    set (ea := buildEdge (numberedId "edge" (S e)) (Some cur) (Some d)
                 (p +:+ " decision needed")
                 (Some ("Decision " +:+ ofNat (i + 1),
                        "Route to " +:+ p +:+ " decision"))).
    set (eb := buildEdge (numberedId "edge" (S (S e))) (Some d) next
                 (p +:+ " decision made")
                 (Some ("Decision Complete", p +:+ " decision completed"))).
    eapply hoareM_bind with (R := fun _ => StM ns (es ++ [ea]) n (S e));
      [apply addEdge_exact | intros ?].
    eapply hoareM_bind with
      (R := fun _ => StM ns ((es ++ [ea]) ++ [eb]) n (S (S e)));
      [apply addEdge_exact | intros ?].
    eapply hoareM_conseq; [apply (IH (S i) d) | intros b Hb; exact Hb |].
    intros ? b [es' [HSt Hlinked]].
    exists (ea :: eb :: es').
    rewrite <- !app_assoc in HSt. cbn [List.app] in HSt.
    split.
    { cbn [length].
      replace (2 * S (length points) + e)
        with (2 * length points + S (S e)) by lia.
      exact HSt. }
    cbn [linked]. split.
    { exists ea. split; [now left | split; reflexivity]. }
    destruct HF as [|p' d' points' ds' Hp' HF'].
    + exists eb. split; [right; now left | split; reflexivity].
    + apply (linked_incl d (d' :: ds') processorId es');
        [intros x Hx; right; now right | exact Hlinked].
Qed.

Lemma guarded_forEachAcc {A S} (xs : list A) (acc : S)
  (body : S -> A -> Modular.Build S) :
  (if nonEmpty xs then Modular.forEachAcc xs acc body else Modular.ret acc)
  = Modular.forEachAcc xs acc body.
Proof. destruct xs; reflexivity. Qed.

(** The custom workflow graph for pairwise distinct decision points, none
    of them [__proto__]. *)
Lemma workflow_graph_shape (args : WorkflowArgs) :
  List.NoDup (decision_points args) ->
  ~ In "__proto__" (decision_points args) ->
  exists help entry decs proc fbs results comp chain e1 e2,
    g_nodes (buildCustomWorkflowPathway args)
    = [help; entry] ++ decs ++ [proc] ++ fbs ++ [results; comp] /\
    g_edges (buildCustomWorkflowPathway args) = chain ++ [e1; e2] /\
    isStart (data help) = false /\ isStart (data entry) = true /\
    isGlobal (data help) = true /\
    Forall (fun n => isGlobal (data n) = true) fbs /\
    type comp = EndCall /\
    length decs = length (decision_points args) /\
    match decs with
    | [] => exists e, In e chain /\ connects e (id entry) (id proc)
    | _ => linked (id entry) (List.map id decs) (id proc) chain
    end /\
    connects e1 (id proc) (id results) /\ connects e2 (id results) (id comp).
Proof.
  intros Hnd Hnp. unfold buildCustomWorkflowPathway. apply run_exact.
  do 2 exact_node.
  rewrite guarded_forEachAcc.
  eapply hoareM_bind.
  { apply (dictionary_loop_exact
             (fun decisionPoint => "Decision Point: " +:+ decisionPoint)
             (fun decisionPoint =>
                withCondition (decisionPoint +:+ " decision required"))
             (decision_points args));
      [intros x nb; reflexivity | exact Hnd | exact Hnp]. }
  intros decisionNodes. apply hoareM_ex. intros decs.
  apply hoareM_assume. intros [Hdecs _].
  exact_node.
  match goal with
  | |- hoareM (StM ?ns ?es ?n ?e) _ _ =>
      eapply hoareM_bind with
        (R := fun _ b => exists fbs,
                  StM (ns ++ fbs) es (length fbs + n) e b /\
                  Forall (fun nd => isGlobal (data nd) = true) fbs)
  end.
  { destruct (global_fallbacks args).
    - eapply hoareM_bind; [apply addNew_exact; intros ?; reflexivity|].
      intros ?. apply hoareM_ret. intros b [_ Hb].
      eexists [_]. split; [exact Hb | repeat constructor].
    - apply hoareM_ret. intros b Hb. exists [].
      split; [|constructor]. rewrite app_nil_r. exact Hb. }
  intros ?. apply hoareM_ex. intros fbs. apply hoareM_assume. intros Hfbs.
  do 2 exact_node.
  set (entryId := numberedId "node" 2).
  set (processorId :=
         numberedId "node" (S (length (decision_points args) + 2))).
  match goal with
  | |- hoareM (StM ?ns ?es ?n _) _ _ =>
      eapply hoareM_bind with
        (R := fun _ b => exists chain k,
                  StM ns (es ++ chain) n k b /\
                  match decs with
                  | [] => exists edge, In edge chain /\
                                       connects edge entryId processorId
                  | _ => linked entryId (List.map id decs) processorId chain
                  end)
  end.
  { destruct (decision_points args) as [|p ps] eqn:Hdp.
    - inversion Hdecs; subst. cbn [nonEmpty length Nat.ltb Nat.leb].
      eapply hoareM_bind; [apply addEdge_exact|]. intros ?.
      apply hoareM_ret. intros b Hb. eexists [_], _.
      split; [exact Hb|]. eexists. split; [now left | split; reflexivity].
    - change (nonEmpty (p :: ps)) with true. cbv iota.
      eapply hoareM_conseq;
        [apply (chainDecisions_exact decisionNodes processorId (p :: ps)
                  (List.map id decs))
        | intros b Hb; exact Hb |].
      + clear -Hdecs. induction Hdecs as [|x nd xs nds [Hx _] _ IH];
          constructor; auto.
      + intros ? b [chain [HSt Hlinked]]. exists chain. eexists.
        split; [exact HSt|].
        destruct decs; [inversion Hdecs | exact Hlinked]. }
  intros ?. apply hoareM_ex. intros chain. apply hoareM_ex. intros k.
  apply hoareM_assume. intros Hchain.
  do 2 exact_edge.
  eapply hoareM_conseq; [apply build_exact | intros b Hb; exact Hb |].
  intros g _ ->. cbn [g_nodes g_edges].
  do 2 eexists. exists decs. eexists. exists fbs. do 2 eexists.
  exists chain. do 2 eexists.
  split; [repeat rewrite <- app_assoc; reflexivity|].
  split; [repeat rewrite <- app_assoc; reflexivity|].
  do 3 (split; [reflexivity|]).
  split; [exact Hfbs|].
  split; [reflexivity|].
  split; [symmetry; eapply Forall2_length; exact Hdecs|].
  split; [exact Hchain|].
  split; split; reflexivity.
Qed.

(** X24. The custom workflow graph for pairwise distinct decision
    points, none of which is [__proto__].  It has one start node; every
    node that is not global lies on a path from the start node to the End
    Call node, which is the last node of the graph: the entry node leads
    through the decision nodes, in the order of the decision points, to
    the processor, the results node and the completion node. *)
Theorem custom_workflow_nodes_lie_on_a_path_to_the_end
  (args : WorkflowArgs) :
  List.NoDup (decision_points args) ->
  ~ In "__proto__" (decision_points args) ->
  let g := buildCustomWorkflowPathway args in
  exists start terminal,
    startNodes (g_nodes g) = [start] /\
    List.last (g_nodes g) start = terminal /\ type terminal = EndCall /\
    forall n, In n (g_nodes g) -> isGlobal (data n) = false ->
      reachable (g_edges g) (id start) (id n) /\
      reachable (g_edges g) (id n) (id terminal).
Proof.
  intros Hnd Hnp. cbv zeta.
  destruct (workflow_graph_shape args Hnd Hnp)
    as (help & entry & decs & proc & fbs & results & comp & chain & e1 & e2
        & Hnodes & Hedges & Hhelp & Hentry & Hglobal & Hfbs & Hend & Hlen
        & Hchain & Hc1 & Hc2).
  destruct (workflow_marked args) as [Hone _].
  set (g := buildCustomWorkflowPathway args) in *.
  exists entry, comp. split; [|split; [|split; [exact Hend|]]].
  - rewrite Hnodes in Hone |- *.
    exact (one_start_is_second help entry _ Hhelp Hentry Hone).
  - rewrite Hnodes.
    replace ([help; entry] ++ decs ++ [proc] ++ fbs ++ [results; comp])
      with (([help; entry] ++ decs ++ [proc] ++ fbs ++ [results]) ++ [comp])
      by (now rewrite <- !app_assoc).
    apply List.last_last.
  - assert (incl chain (g_edges g)) as Hincl.
    { rewrite Hedges. intros e He. apply in_or_app. now left. }
    assert (forall a b e, In e (g_edges g) -> connects e a b ->
              reachable (g_edges g) a b) as Hstep.
    { intros a b e He Hc. apply reachable_one. now exists e. }
    assert (reachable (g_edges g) (id proc) (id results)) as Rproc_res.
    { apply (Hstep _ _ e1); [|exact Hc1].
      rewrite Hedges. apply in_or_app. right. now left. }
    assert (reachable (g_edges g) (id results) (id comp)) as Rres_comp.
    { apply (Hstep _ _ e2); [|exact Hc2].
      rewrite Hedges. apply in_or_app. right. right. now left. }
    pose proof (reachable_trans _ _ _ _ Rproc_res Rres_comp) as Rproc_comp.
    assert (reachable (g_edges g) (id entry) (id proc) /\
            forall d, In d decs ->
              reachable (g_edges g) (id entry) (id d) /\
              reachable (g_edges g) (id d) (id proc)) as [Rentry_proc Hdecs].
    { destruct decs as [|d0 decs'] eqn:Hd.
      - destruct Hchain as [e [He Hc]].
        split; [exact (Hstep _ _ e (Hincl _ He) Hc) | intros d []].
      - rewrite <- Hd in *.
        assert (List.map id decs <> []) as Hne by (rewrite Hd; discriminate).
        assert (linked (id entry) (List.map id decs) (id proc) (g_edges g))
          as Hlinked.
        { apply (linked_incl _ _ _ chain); [exact Hincl|].
          rewrite Hd in Hchain |- *. exact Hchain. }
        destruct (linked_reaches _ _ _ _ Hne Hlinked) as [R Hall].
        split; [exact R|]. intros d Hin. apply Hall. now apply in_map. }
    intros n Hn Hng. rewrite Hnodes in Hn.
    apply in_app_or in Hn as [Hn|Hn];
      [|apply in_app_or in Hn as [Hn|Hn];
        [|apply in_app_or in Hn as [Hn|Hn];
          [|apply in_app_or in Hn as [Hn|Hn]]]].
    + cbn [In] in Hn. destruct Hn as [<-|[<-|[]]]; [congruence|].
      split; [apply reach_here|].
      exact (reachable_trans _ _ _ _ Rentry_proc Rproc_comp).
    + destruct (Hdecs n Hn) as [R1 R2].
      split; [exact R1 | exact (reachable_trans _ _ _ _ R2 Rproc_comp)].
    + cbn [In] in Hn. destruct Hn as [<-|[]].
      split; [exact Rentry_proc | exact Rproc_comp].
    + rewrite List.Forall_forall in Hfbs. specialize (Hfbs n Hn). congruence.
    + cbn [In] in Hn. destruct Hn as [<-|[<-|[]]].
      * split; [exact (reachable_trans _ _ _ _ Rentry_proc Rproc_res)
               | exact Rres_comp].
      * split; [|apply reach_here].
        exact (reachable_trans _ _ _ _ Rentry_proc Rproc_comp).
Qed.

Lemma custom_workflow_nodes_lie_on_a_path_to_the_end_witness :
  let g := buildCustomWorkflowPathway
             (customWorkflowArgs "Returns" returnsDescription
                (Some "order number") (Some "refund, exchange") true) in
  exists start terminal,
    startNodes (g_nodes g) = [start] /\
    List.last (g_nodes g) start = terminal /\ type terminal = EndCall /\
    forall n, In n (g_nodes g) -> isGlobal (data n) = false ->
      reachable (g_edges g) (id start) (id n) /\
      reachable (g_edges g) (id n) (id terminal).
Proof.
  apply (custom_workflow_nodes_lie_on_a_path_to_the_end
           (customWorkflowArgs "Returns" returnsDescription
              (Some "order number") (Some "refund, exchange") true)).
  - vm_compute. repeat constructor; simpl; intuition discriminate.
  - vm_compute. intuition discriminate.
Defined.

End ServiceReachability.
